(** * daily-news: the ingestion-and-delivery pipeline, embedded and verified

    A shallow embedding of the TypeScript sources of the daily-news
    repository (domain models, ArticleFilterService, FeedClient,
    ArticleStorage, FileArticleRepository, DiscordNotifier and the two use
    cases) together with the properties its specification states about
    them.

    Conventions of the embedding.
    - A JavaScript string is a [string] (the bytes of its UTF-8 encoding).
    - A [Date] is its time value in milliseconds, a [Z]: every date the
      pipeline builds is a valid one (RssFeedParser.parsePublishedDate
      falls back to the current time when a date does not parse).
    - A JavaScript number that the code uses as a count or a duration is a
      [number]: an integer or NaN.
    - Arrays that the code mutates or returns by reference live in a heap,
      a [gmap] from references to lists; code that only reads its arrays
      works on lists.
    - Effects (file system, HTTP, timers, logger) thread a [World]; thrown
      values are the [Throw] outcome of the [M] monad.  What the outside
      world answers is given by an [Env] of oracles. *)

From Stdlib Require Import ZArith Ascii String List Lia Permutation Sorted.
From stdpp Require Import base decidable option numbers list strings gmap sets pretty.

Set Default Proof Using "Type".
Local Open Scope Z_scope.

(* ===================================================================== *)
(** ** SHA-256 (FIPS 180-4), the hash behind [crypto.createHash('sha256')] *)
(* ===================================================================== *)

Module Sha256.

Definition w32 (x : Z) : Z := x mod 2 ^ 32.

Definition add32 (x y : Z) : Z := w32 (x + y).

Definition rotr (n x : Z) : Z :=
  w32 (Z.lor (Z.shiftr x n) (Z.shiftl x (32 - n))).

Definition shr (n x : Z) : Z := Z.shiftr x n.

Definition Ch (x y z : Z) : Z :=
  Z.lxor (Z.land x y) (Z.land (Z.lxor x (2 ^ 32 - 1)) z).

Definition Maj (x y z : Z) : Z :=
  Z.lxor (Z.lxor (Z.land x y) (Z.land x z)) (Z.land y z).

Definition Sigma0 (x : Z) : Z := Z.lxor (Z.lxor (rotr 2 x) (rotr 13 x)) (rotr 22 x).
Definition Sigma1 (x : Z) : Z := Z.lxor (Z.lxor (rotr 6 x) (rotr 11 x)) (rotr 25 x).
Definition sigma0 (x : Z) : Z := Z.lxor (Z.lxor (rotr 7 x) (rotr 18 x)) (shr 3 x).
Definition sigma1 (x : Z) : Z := Z.lxor (Z.lxor (rotr 17 x) (rotr 19 x)) (shr 10 x).

(** The constants are the leading 32 fractional bits of the square roots
    (initial state) and cube roots (round constants) of the first primes;
    they are computed here rather than tabulated. *)
Definition is_prime (n : nat) : bool :=
  forallb (fun d => negb (Nat.eqb (Nat.modulo n d) 0)) (seq 2 (n - 2)).

Definition primes64 : list Z :=
  Eval vm_compute in map Z.of_nat (List.filter is_prime (seq 2 310)).

(** Floor of the cube root, one bit at a time from bit [b] downwards. *)
Fixpoint icbrt_bits (b : nat) (x r : Z) : Z :=
  let r' := r + 2 ^ Z.of_nat b in
  let r := if Z.leb (r' * r' * r') x then r' else r in
  match b with
  | O => r
  | S b' => icbrt_bits b' x r
  end.

Definition icbrt (x : Z) : Z := icbrt_bits 40 x 0.

Definition K : list Z :=
  Eval vm_compute in map (fun p => w32 (icbrt (p * 2 ^ 96))) primes64.

Definition H0 : list Z :=
  Eval vm_compute in map (fun p => w32 (Z.sqrt (p * 2 ^ 64))) (firstn 8 primes64).

(** Padding: a 1 bit, zeros up to 56 mod 64 bytes, the bit length on 8 bytes. *)
Definition be_bytes (n : nat) (x : Z) : list Z :=
  map (fun i => Z.land (Z.shiftr x (8 * Z.of_nat (n - 1 - i))) 255) (seq 0 n).

Definition pad (msg : list Z) : list Z :=
  let len := Z.of_nat (length msg) in
  let zeros := Z.to_nat ((55 - len) mod 64) in
  msg ++ 128 :: repeat 0 zeros ++ be_bytes 8 (8 * len).

Fixpoint be_words (fuel : nat) (bs : list Z) : list Z :=
  match fuel, bs with
  | S fuel', b0 :: b1 :: b2 :: b3 :: rest =>
      (b0 * 2 ^ 24 + b1 * 2 ^ 16 + b2 * 2 ^ 8 + b3) :: be_words fuel' rest
  | _, _ => []
  end.

Fixpoint chunks (fuel : nat) (ws : list Z) : list (list Z) :=
  match fuel, ws with
  | S fuel', _ :: _ => firstn 16 ws :: chunks fuel' (skipn 16 ws)
  | _, _ => []
  end.

(** The message schedule, kept newest word first while it is extended. *)
Fixpoint extend (n : nat) (rev_w : list Z) : list Z :=
  match n with
  | O => rev_w
  | S n' =>
      let w := fun i => nth i rev_w 0 in
      let next := add32 (add32 (sigma1 (w 1%nat)) (w 6%nat))
                        (add32 (sigma0 (w 14%nat)) (w 15%nat)) in
      extend n' (next :: rev_w)
  end.

Definition schedule (block : list Z) : list Z := rev (extend 48 (rev block)).

Record state := State { sa : Z; sb : Z; sc : Z; sd : Z; se : Z; sf : Z; sg : Z; sh : Z }.

Definition round (s : state) (kw : Z * Z) : state :=
  let t1 := add32 (add32 (add32 (sh s) (Sigma1 (se s)))
                         (add32 (Ch (se s) (sf s) (sg s)) (fst kw))) (snd kw) in
  let t2 := add32 (Sigma0 (sa s)) (Maj (sa s) (sb s) (sc s)) in
  State (add32 t1 t2) (sa s) (sb s) (sc s) (add32 (sd s) t1) (se s) (sf s) (sg s).

Definition compress (s : state) (block : list Z) : state :=
  let s' := fold_left round (combine K (schedule block)) s in
  State (add32 (sa s) (sa s')) (add32 (sb s) (sb s')) (add32 (sc s) (sc s'))
        (add32 (sd s) (sd s')) (add32 (se s) (se s')) (add32 (sf s) (sf s'))
        (add32 (sg s) (sg s')) (add32 (sh s) (sh s')).

Definition init : state :=
  let h := fun i => nth i H0 0 in
  State (h 0%nat) (h 1%nat) (h 2%nat) (h 3%nat) (h 4%nat) (h 5%nat) (h 6%nat) (h 7%nat).

Definition digest_words (msg : list Z) : list Z :=
  let bs := pad msg in
  let blocks := chunks (length bs) (be_words (length bs) bs) in
  let s := fold_left compress blocks init in
  [sa s; sb s; sc s; sd s; se s; sf s; sg s; sh s].

Definition hex_digit (d : Z) : ascii :=
  if Z.ltb d 10 then ascii_of_nat (Z.to_nat (48 + d))
  else ascii_of_nat (Z.to_nat (87 + d)).

Definition hex_byte (b : Z) : list ascii := [hex_digit (b / 16); hex_digit (b mod 16)].

Definition bytes_of_string (s : string) : list Z :=
  map (fun c => Z.of_nat (nat_of_ascii c)) (list_ascii_of_string s).

(** [createHash('sha256').update(s).digest('hex')] *)
Definition hex (s : string) : string :=
  string_of_list_ascii
    (flat_map hex_byte (flat_map (be_bytes 4) (digest_words (bytes_of_string s)))).

End Sha256.

(* ===================================================================== *)
(** ** JavaScript values and built-ins the sources rely on *)
(* ===================================================================== *)

(** What a [throw] carries: an instance of [Error] (with the name of its
    class and its message) or some other value. *)
Inductive ErrorClass :=
  | PlainError | FeedParseError | NotificationError | StorageError
  | ConfigurationError | FeedFetchError
  (** an axios error, with the status and the [retry-after] header of its
      response when it has one *)
  | AxiosError (response : option (Z * option string)).

Inductive Thrown :=
  | ErrorObj (cls : ErrorClass) (message : string)
  | NonError (shown : string).

(** [error instanceof Error] *)
Definition instanceof_Error (e : Thrown) : bool :=
  match e with ErrorObj _ _ => true | NonError _ => false end.

(** [error instanceof StorageError] *)
Definition instanceof_StorageError (e : Thrown) : bool :=
  match e with ErrorObj StorageError _ => true | _ => false end.

(** [error instanceof Error ? error : new Error(String(error))] *)
Definition as_Error (e : Thrown) : Thrown :=
  match e with ErrorObj _ _ => e | NonError s => ErrorObj PlainError s end.

Definition error_message (e : Thrown) : string :=
  match e with ErrorObj _ m => m | NonError s => s end.

Inductive Outcome (A : Type) :=
  | Ok (a : A)
  | Throw (e : Thrown).
Arguments Ok {A} a.
Arguments Throw {A} e.

Module JS.

(** A number used as a count or a duration: an integer, or NaN.  The
    integers up to 2^53 in magnitude are doubles, and the arithmetic below
    is that of JavaScript as long as its results stay within them; beyond,
    JavaScript rounds (and overflows to Infinity) where these do not. *)
Inductive number := Num (z : Z) | NaN.

(** Truthiness of a number: neither 0 nor NaN. *)
Definition truthy (n : number) : bool :=
  match n with Num z => negb (Z.eqb z 0) | NaN => false end.

Definition mul (a b : number) : number :=
  match a, b with Num x, Num y => Num (x * y) | _, _ => NaN end.

Definition sub (a b : number) : number :=
  match a, b with Num x, Num y => Num (x - y) | _, _ => NaN end.

(** Truthiness of a string: non-empty. *)
Definition truthy_string (s : string) : bool :=
  match s with EmptyString => false | String _ _ => true end.

(** Truthiness of [string | undefined]. *)
Definition truthy_opt (o : option string) : bool :=
  match o with Some s => truthy_string s | None => false end.

(** [String.prototype.toLowerCase], on the ASCII letters: other cased
    letters, which JavaScript folds too, are left as they are. *)
Definition lower_ascii (c : ascii) : ascii :=
  let n := nat_of_ascii c in
  if (Nat.leb 65 n && Nat.leb n 90)%bool then ascii_of_nat (n + 32) else c.

Fixpoint toLowerCase (s : string) : string :=
  match s with
  | EmptyString => EmptyString
  | String c s' => String (lower_ascii c) (toLowerCase s')
  end.

Fixpoint startsWith (s p : string) : bool :=
  match p, s with
  | EmptyString, _ => true
  | String _ _, EmptyString => false
  | String b p', String a s' => if Ascii.eqb a b then startsWith s' p' else false
  end.

(** [String.prototype.includes] *)
Fixpoint includes (s p : string) : bool :=
  if startsWith s p then true
  else match s with
       | EmptyString => false
       | String _ s' => includes s' p
       end.

(** [Array.prototype.join] *)
Fixpoint join (sep : string) (parts : list string) : string :=
  match parts with
  | [] => EmptyString
  | [p] => p
  | p :: rest => p +:+ sep +:+ join sep rest
  end.

(** [Array.prototype.slice(0, end)]: a negative end counts from the end
    of the array, NaN counts as 0. *)
Definition slice0 {A} (l : list A) (e : number) : list A :=
  match e with
  | NaN => []
  | Num z =>
      let len := Z.of_nat (length l) in
      let final := if Z.ltb z 0 then Z.max (len + z) 0 else Z.min z len in
      firstn (Z.to_nat final) l
  end.

(** [Array.prototype.sort(cmp)].  The comparator answers a number; a
    positive answer [cmp a b] puts [b] first, NaN counts as 0.  The sort
    is stable (ECMAScript 2019; the project runs on Node 20), and is
    written here as a stable insertion sort. *)
Definition after {A} (cmp : A -> A -> number) (a b : A) : bool :=
  match cmp a b with Num z => Z.ltb 0 z | NaN => false end.

Fixpoint insert {A} (cmp : A -> A -> number) (x : A) (l : list A) : list A :=
  match l with
  | [] => [x]
  | y :: l' => if after cmp x y then y :: insert cmp x l' else x :: l
  end.

Fixpoint sort {A} (cmp : A -> A -> number) (l : list A) : list A :=
  match l with
  | [] => []
  | x :: l' => insert cmp x (sort cmp l')
  end.

(** [a || b] on [string | undefined], and [a || undefined]. *)
Definition or (a b : option string) : option string :=
  if truthy_opt a then a else b.

Definition or_undefined (a : option string) : option string :=
  if truthy_opt a then a else None.

(** How often [for (let i = 1; i <= n; i++)] runs its body. *)
Definition iterations (n : number) : nat :=
  match n with Num z => Z.to_nat z | NaN => O end.

(** [a <= b], [a < b], [a >= b] on numbers: false when one side is NaN. *)
Definition le (a b : number) : bool :=
  match a, b with Num x, Num y => Z.leb x y | _, _ => false end.

Definition lt (a b : number) : bool :=
  match a, b with Num x, Num y => Z.ltb x y | _, _ => false end.

Definition ge (a b : number) : bool := le b a.

(** Template-literal rendering of a number and of an array length. *)
Definition show (n : number) : string :=
  match n with Num z => pretty z | NaN => "NaN" end.

Definition show_nat (n : nat) : string := pretty n.

(** [parseInt(s)] without a radix: leading white space, a sign, an
    optional [0x] prefix, then the longest run of digits; NaN when there
    is no digit.  The white space stripped is the ASCII one (JavaScript
    strips the other Unicode white space too), and the numeral is read
    exactly (JavaScript rounds one beyond 2^53 to a double). *)
Definition is_space (c : ascii) : bool :=
  let n := nat_of_ascii c in
  (Nat.eqb n 32 || (Nat.leb 9 n && Nat.leb n 13))%bool.

Fixpoint trimStart (s : string) : string :=
  match s with
  | String c s' => if is_space c then trimStart s' else s
  | EmptyString => s
  end.

Definition digit_value (radix : Z) (c : ascii) : option Z :=
  let n := Z.of_nat (nat_of_ascii c) in
  let v := if (Z.leb 48 n && Z.leb n 57)%bool then Some (n - 48)
           else if (Z.leb 97 n && Z.leb n 122)%bool then Some (n - 87)
           else if (Z.leb 65 n && Z.leb n 90)%bool then Some (n - 55)
           else None in
  match v with
  | Some d => if Z.ltb d radix then Some d else None
  | None => None
  end.

Fixpoint digits (radix : Z) (s : string) (acc : option Z) : option Z :=
  match s with
  | EmptyString => acc
  | String c s' =>
      match digit_value radix c with
      | Some d => digits radix s' (Some (default 0 acc * radix + d))
      | None => acc
      end
  end.

Definition parseInt (s : string) : number :=
  let s := trimStart s in
  let '(sign, s) :=
    match s with
    | String "-" r => (-1, r)
    | String "+" r => (1, r)
    | _ => (1, s)
    end in
  let '(radix, s) :=
    match s with
    | String "0" (String "x" r) => (16, r)
    | String "0" (String "X" r) => (16, r)
    | _ => (10, s)
    end in
  match digits radix s None with
  | Some v => Num (sign * v)
  | None => NaN
  end.

(** [[...new Set(l)]]: the strings of [l], each once, in the order of
    their first occurrence. *)
Definition Set_add (seen : list string) (x : string) : list string :=
  if bool_decide (x ∈ seen) then seen else seen ++ [x].

Definition uniq (l : list string) : list string := fold_left Set_add l [].

(** [String.prototype.trim], on the ASCII white space: the other Unicode
    white space, which JavaScript strips too, is left in place. *)
Fixpoint trimEnd (s : string) : string :=
  match s with
  | EmptyString => EmptyString
  | String c s' =>
      match trimEnd s' with
      | EmptyString => if is_space c then EmptyString else String c EmptyString
      | rest => String c rest
      end
  end.

Definition trim (s : string) : string := trimEnd (trimStart s).

(** [String.prototype.split(sep)] for a separator of one character: the
    pieces between the separators, at least one. *)
Fixpoint split (sep : ascii) (s : string) : list string :=
  match s with
  | EmptyString => [EmptyString]
  | String c s' =>
      if Ascii.eqb c sep then EmptyString :: split sep s'
      else match split sep s' with
           | piece :: pieces => String c piece :: pieces
           | [] => [String c EmptyString]
           end
  end.

(** [parseInt(s, 10)]: as [parseInt], in base ten and without the [0x]
    prefix; read exactly, as [parseInt] is. *)
Definition parseInt10 (s : string) : number :=
  let s := trimStart s in
  let '(sign, s) :=
    match s with
    | String "-" r => (-1, r)
    | String "+" r => (1, r)
    | _ => (1, s)
    end in
  match digits 10 s None with
  | Some v => Num (sign * v)
  | None => NaN
  end.

End JS.

(** Arrays as objects: a heap of array cells addressed by reference. *)
Section Arrays.
Context {A : Type}.

Definition read (h : gmap nat (list A)) (r : nat) : list A := default [] (h !! r).

(** A new array object. *)
Definition alloc (v : list A) (h : gmap nat (list A)) : nat * gmap nat (list A) :=
  let r := fresh (dom h) in (r, <[r := v]> h).

(** [arr.sort(cmp)] sorts the cell of [arr] in place and returns [arr]. *)
Definition Array_sort (cmp : A -> A -> JS.number) (r : nat) (h : gmap nat (list A))
  : nat * gmap nat (list A) :=
  (r, <[r := JS.sort cmp (read h r)]> h).

(** [arr.slice(0, end)] returns a new array. *)
Definition Array_slice0 (e : JS.number) (r : nat) (h : gmap nat (list A))
  : nat * gmap nat (list A) :=
  alloc (JS.slice0 (read h r) e) h.

(** [arr.filter(p)] returns a new array. *)
Definition Array_filter (p : A -> bool) (r : nat) (h : gmap nat (list A))
  : nat * gmap nat (list A) :=
  alloc (List.filter p (read h r)) h.
End Arrays.

(* ===================================================================== *)
(** ** Domain models *)
(* ===================================================================== *)

Module Article.

(** The constructor arguments.  [_id] is assigned once, by the
    constructor, from [generateId()] over read-only fields: it is the
    function [id] of the record. *)
Record t := new {
  title : string;
  url : string;
  publishedAt : Z;
  feedName : string;
  description : option string;
  content : option string
}.

Definition generateId (a : t) : string := Sha256.hex (url a +:+ title a).

Definition id (a : t) : string := generateId a.

(** The persisted shape of an article. *)
Record plain := Plain {
  p_id : string;
  p_title : string;
  p_url : string;
  p_description : option string;
  p_publishedAt : Z;
  p_feedName : string
}.

Definition toPlainObject (a : t) : plain :=
  Plain (id a) (title a) (url a) (description a) (publishedAt a) (feedName a).

(** The stored [id] is not read back: the constructor computes it again. *)
Definition fromPlainObject (o : plain) : t :=
  new (p_title o) (p_url o) (p_publishedAt o) (p_feedName o) (p_description o) None.

End Article.

Module ArticleFilter.

Inductive MatchStrategy := OR | AND.

Record FilterOptions := Options {
  matchStrategy : MatchStrategy;
  caseSensitive : bool;
  searchInTitle : bool;
  searchInDescription : bool;
  searchInContent : option bool
}.

(** [Partial<FilterOptions>] *)
Record PartialOptions := Partial {
  o_matchStrategy : option MatchStrategy;
  o_caseSensitive : option bool;
  o_searchInTitle : option bool;
  o_searchInDescription : option bool;
  o_searchInContent : option bool
}.

Record t := Build { _keywords : list string; _options : FilterOptions }.

(** The constructor: an empty keyword list is rejected. *)
Definition new (keywords : list string) (options : option PartialOptions) : Outcome t :=
  if Nat.eqb (length keywords) 0
  then Throw (ErrorObj PlainError "At least one keyword is required for filtering")
  else Ok (Build keywords
    (Options
      (default OR (options ≫= o_matchStrategy))
      (default false (options ≫= o_caseSensitive))
      (default true (options ≫= o_searchInTitle))
      (default true (options ≫= o_searchInDescription))
      (Some (default false (options ≫= o_searchInContent))))).

Definition toPlainObject (f : t) : list string * FilterOptions :=
  (_keywords f, _options f).

(** The options of a filter, passed back to the constructor. *)
Definition as_partial (o : FilterOptions) : PartialOptions :=
  Partial (Some (matchStrategy o)) (Some (caseSensitive o)) (Some (searchInTitle o))
          (Some (searchInDescription o)) (searchInContent o).

Definition addKeywords (f : t) (newKeywords : list string) : Outcome t :=
  let mergedKeywords := JS.uniq (_keywords f ++ newKeywords) in
  new mergedKeywords (Some (as_partial (_options f))).

Definition fromPlainObject (keywords : list string) (options : option PartialOptions)
  : Outcome t :=
  new keywords options.

End ArticleFilter.

Module Feed.

Inductive FeedType := rss | atom.

Record t := new { name : string; url : string; type : FeedType; enabled : bool }.

Definition isEnabled (f : t) : bool := enabled f.

End Feed.

(* ===================================================================== *)
(** ** ArticleFilterService *)
(* ===================================================================== *)

Module ArticleFilterService.
Import ArticleFilter.

Definition buildSearchableText (article : Article.t) (options : FilterOptions) : string :=
  let parts := [] in
  let parts :=
    if searchInTitle options then parts ++ [Article.title article] else parts in
  let parts :=
    match Article.description article with
    | Some d =>
        if (searchInDescription options && JS.truthy_string d)%bool
        then parts ++ [d] else parts
    | None => parts
    end in
  let parts :=
    match Article.content article with
    | Some c =>
        if (default false (searchInContent options) && JS.truthy_string c)%bool
        then parts ++ [c] else parts
    | None => parts
    end in
  JS.join " " parts.

Definition matchKeyword (text keyword : string) (caseSensitive : bool) : bool :=
  let searchText := if caseSensitive then text else JS.toLowerCase text in
  let searchKeyword := if caseSensitive then keyword else JS.toLowerCase keyword in
  JS.includes searchText searchKeyword.

Definition matchesFilter (article : Article.t) (filter : ArticleFilter.t) : bool :=
  let '(keywords, options) := ArticleFilter.toPlainObject filter in
  let searchableText := buildSearchableText article options in
  let matches :=
    map (fun keyword => matchKeyword searchableText keyword (caseSensitive options))
        keywords in
  match matchStrategy options with
  | OR => existsb (fun m => m) matches
  | AND => forallb (fun m => m) matches
  end.

(** The contents of the arrays the methods return. *)
Definition filterArticles (articles : list Article.t) (filter : ArticleFilter.t)
  : list Article.t :=
  List.filter (fun article => matchesFilter article filter) articles.

Definition excludeReadArticles (articles : list Article.t) (readArticleIds : gset string)
  : list Article.t :=
  List.filter (fun article => negb (bool_decide (Article.id article ∈ readArticleIds)))
              articles.

Definition byPublishedDate (a b : Article.t) : JS.number :=
  JS.sub (JS.Num (Article.publishedAt b)) (JS.Num (Article.publishedAt a)).

Definition sortByPublishedDate (articles : list Article.t) : list Article.t :=
  JS.sort byPublishedDate articles.

Definition limitArticles (articles : list Article.t) (maxCount : JS.number)
  : list Article.t :=
  JS.slice0 articles maxCount.

(** The methods as calls on array objects: which array each one writes
    and which reference it returns. *)
Module Call.

Definition sortByPublishedDate (articles : nat) (h : gmap nat (list Article.t))
  : nat * gmap nat (list Article.t) :=
  Array_sort byPublishedDate articles h.

Definition limitArticles (articles : nat) (maxCount : JS.number)
    (h : gmap nat (list Article.t)) : nat * gmap nat (list Article.t) :=
  Array_slice0 maxCount articles h.

End Call.

End ArticleFilterService.

(* ===================================================================== *)
(** ** The outside world: oracles, state, and the monad of effects *)
(* ===================================================================== *)

(** An entry of an RSS or Atom feed, as rss-parser hands it over. *)
Record Item := {
  i_title : option string;
  i_link : option string;
  i_isoDate : option string;
  i_pubDate : option string;
  i_published : option string;
  i_contentSnippet : option string;
  i_content : option string
}.

(** What [parser.parseURL] answers: a feed with or without [items], or a
    rejection. *)
Inductive UrlReply :=
  | UrlFeed (items : option (list Item))
  | UrlFail (e : Thrown).

(** The payload of a webhook message.  The embed layout is the
    MessageFormatter's business; a message is identified by the formatter
    that built it and what it was built from. *)
Inductive DiscordMessage :=
  | ArticlesMessage (total : nat) (shown : list Article.t) (keywords : list string)
  | ErrorMessage (e : Thrown)
  | NoArticlesMessage (keywords : list string).

(** What [axios.post] answers: success, or the value it rejects with. *)
Inductive PostReply :=
  | PostOk
  | PostFail (e : Thrown).

(** The content of the storage file, as [JSON.parse] sees it. *)
Inductive FileContent :=
  | NotJson (why : string)
  | NoArticlesArray
  | ArticlesJson (articles : list Article.plain).

Record Env := {
  (** rss-parser: the answer to the n-th request (from 1) for a URL *)
  parseURL : string -> Z -> UrlReply;
  (** [new Date(s).getTime()], [None] for NaN *)
  parseDate : string -> option Z;
  (** the reading of the clock, [new Date()] *)
  now : Z;
  (** the local calendar: the time value of [d = new Date()] after
      [d.setDate(d.getDate() - n)], NaN when it is not a valid date *)
  daysBefore : Z -> JS.number;
  (** axios: the answer to the n-th POST of the run (from 0) *)
  post_reply : nat -> PostReply;
  (** fs/promises: whether the n-th call of the run (from 0) rejects *)
  fs_fault : nat -> option Thrown
}.

Inductive LogLevel := LDebug | LInfo | LWarn | LError.

#[warnings="-register-all"]
Inductive Event :=
  | Log (level : LogLevel) (message : string) (meta : option Thrown)
  | Delay (ms : JS.number)
  | Post (message : DiscordMessage)
  | Parallel (tasks : list (list Event)).

Record World := {
  disk : option FileContent;
  fs_calls : nat;
  posts : nat;
  trace : list Event
}.

Definition M (A : Type) : Type := World -> Outcome A * World.

Definition ret {A} (a : A) : M A := fun w => (Ok a, w).

Definition throw {A} (e : Thrown) : M A := fun w => (Throw e, w).

Definition bind {A B} (m : M A) (k : A -> M B) : M B :=
  fun w => match m w with
           | (Ok a, w') => k a w'
           | (Throw e, w') => (Throw e, w')
           end.

(** [try { m } catch (error) { handler error }] *)
Definition try_catch {A} (m : M A) (handler : Thrown -> M A) : M A :=
  fun w => match m w with
           | (Ok a, w') => (Ok a, w')
           | (Throw e, w') => handler e w'
           end.

Declare Scope M_scope.
Delimit Scope M_scope with M.
Notation "x <- m ;; k" := (bind m (fun x => k))
  (at level 100, m at next level, right associativity) : M_scope.
Notation "m ;; k" := (bind m (fun _ => k))
  (at level 100, right associativity) : M_scope.
Local Open Scope M_scope.

Definition emit (e : Event) : M unit :=
  fun w => (Ok tt, {| disk := disk w; fs_calls := fs_calls w; posts := posts w;
                      trace := trace w ++ [e] |}).

Module logger.
Definition debug (message : string) : M unit := emit (Log LDebug message None).
Definition info (message : string) : M unit := emit (Log LInfo message None).
Definition warn (message : string) (meta : option Thrown) : M unit :=
  emit (Log LWarn message meta).
Definition error (message : string) (e : Thrown) : M unit :=
  emit (Log LError message (Some e)).
End logger.

(** [new Promise((resolve) => setTimeout(resolve, ms))] *)
Definition delay (ms : JS.number) : M unit := emit (Delay ms).

(** Tasks started together and joined: each one leaves its own sequence of
    events, in no order relative to the others.  The tasks of this program
    only log, wait and query their own feed. *)
Definition fork {A} (tasks : list (M A)) : M (list (Outcome A)) :=
  fun w =>
    let runs := map (fun task => task {| disk := disk w; fs_calls := fs_calls w;
                                         posts := posts w; trace := [] |}) tasks in
    (Ok (map fst runs),
     {| disk := disk w; fs_calls := fs_calls w; posts := posts w;
        trace := trace w ++ [Parallel (map (fun r => trace (snd r)) runs)] |}).

(** [Promise.all]: the results in the order of the promises, or a rejection. *)
Fixpoint Promise_all {A} (outcomes : list (Outcome A)) : M (list A) :=
  match outcomes with
  | [] => ret []
  | Ok a :: rest => rest' <- Promise_all rest ;; ret (a :: rest')
  | Throw e :: _ => throw e
  end.

(* ===================================================================== *)
(** ** RssFeedParser and FeedClient *)
(* ===================================================================== *)

Module RssFeedParser.

Definition parsePublishedDate (env : Env) (item : Item) : M Z :=
  let dateString := JS.or (JS.or (i_isoDate item) (i_pubDate item)) (i_published item) in
  let fallback :=
    logger.warn "Could not parse published date, using current time" None ;;
    ret (now env) in
  match dateString with
  | Some s =>
      if JS.truthy_string s
      then match parseDate env s with
           | Some t => ret t
           | None => fallback
           end
      else fallback
  | None => fallback
  end.

Definition itemToArticle (env : Env) (item : Item) (feedName : string)
  : M (option Article.t) :=
  match i_title item, i_link item with
  | Some title, Some link =>
      if (JS.truthy_string title && JS.truthy_string link)%bool
      then
        publishedAt <- parsePublishedDate env item ;;
        ret (Some (Article.new title link publishedAt feedName
                     (JS.or_undefined (JS.or (i_contentSnippet item) (i_content item)))
                     (JS.or_undefined (i_content item))))
      else
        logger.warn ("Item missing required fields (title or link) in feed: " +:+ feedName)
                    None ;;
        ret None
  | _, _ =>
      logger.warn ("Item missing required fields (title or link) in feed: " +:+ feedName)
                  None ;;
      ret None
  end.

(** The loop over the items of a feed. *)
Fixpoint parseItems (env : Env) (feed : Feed.t) (items : list Item)
    (articles : list Article.t) : M (list Article.t) :=
  match items with
  | [] => ret articles
  | item :: rest =>
      articles' <-
        try_catch
          (article <- itemToArticle env item (Feed.name feed) ;;
           ret (match article with
                | Some a => articles ++ [a]
                | None => articles
                end))
          (fun error =>
             logger.warn ("Failed to parse item in feed " +:+ Feed.name feed +:+ ":")
                         (Some error) ;;
             ret articles) ;;
      parseItems env feed rest articles'
  end.

(** [nth_call] selects the answer of the remote end: the retry loop of
    FeedClient is the caller, and its attempt number counts the calls. *)
Definition parse (env : Env) (feed : Feed.t) (nth_call : Z) : M (list Article.t) :=
  try_catch
    (logger.info ("Parsing feed: " +:+ Feed.name feed +:+ " (" +:+ Feed.url feed +:+ ")") ;;
     match parseURL env (Feed.url feed) nth_call with
     | UrlFail e => throw e
     | UrlFeed items =>
         match items with
         | None | Some [] =>
             logger.warn ("No items found in feed: " +:+ Feed.name feed) None ;;
             ret []
         | Some items =>
             articles <- parseItems env feed items [] ;;
             logger.info ("Parsed " +:+ JS.show_nat (length articles)
                          +:+ " articles from feed: " +:+ Feed.name feed) ;;
             ret articles
         end
     end)
    (fun error =>
       if instanceof_Error error
       then throw (ErrorObj FeedParseError
                     ("Failed to parse feed " +:+ Feed.name feed +:+ ": "
                      +:+ error_message error))
       else throw (ErrorObj FeedParseError ("Failed to parse feed " +:+ Feed.name feed))).

(** [parseMultiple]: every feed is parsed once, concurrently, and the
    articles are filed under the name of their feed. *)
Definition parseMultiple (env : Env) (feeds : list Feed.t)
  : M (gmap string (list Article.t)) :=
  parsePromises <-
    fork (map (fun feed =>
                 try_catch
                   (articles <- parse env feed 1 ;;
                    ret (Feed.name feed, articles))
                   (fun error =>
                      logger.error ("Failed to parse feed " +:+ Feed.name feed +:+ ":")
                                   error ;;
                      ret (Feed.name feed, [])))
              feeds) ;;
  parsedResults <- Promise_all parsePromises ;;
  ret (fold_left (fun (results : gmap string (list Article.t)) result =>
                    <[fst result := snd result]> results)
                 parsedResults ∅).

End RssFeedParser.

Module FeedClient.

Record FetchOptions := {
  maxRetries : JS.number;
  retryDelayMs : JS.number;
  timeout : JS.number
}.

(** The constructor's defaults. *)
Definition new (maxRetries retryDelayMs timeout : option JS.number) : FetchOptions :=
  {| maxRetries := default (JS.Num 3) maxRetries;
     retryDelayMs := default (JS.Num 1000) retryDelayMs;
     timeout := default (JS.Num 10000) timeout |}.

(** [lastError?.message] inside a template literal. *)
Definition show_last (lastError : option Thrown) : string :=
  match lastError with Some e => error_message e | None => "undefined" end.

(** The retry loop of [fetchFeed], from attempt number [attempt] on, with
    [remaining] iterations to go. *)
Fixpoint fetchFeed_from (env : Env) (options : FetchOptions) (feed : Feed.t)
    (remaining : nat) (attempt : Z) (lastError : option Thrown) : M (list Article.t) :=
  match remaining with
  | O =>
      throw (ErrorObj FeedFetchError
               ("Failed to fetch feed " +:+ Feed.name feed +:+ " after "
                +:+ JS.show (maxRetries options) +:+ " attempts: "
                +:+ show_last lastError))
  | S remaining' =>
      try_catch
        (logger.info ("Fetching feed: " +:+ Feed.name feed +:+ " (attempt "
                      +:+ JS.show (JS.Num attempt) +:+ "/"
                      +:+ JS.show (maxRetries options) +:+ ")") ;;
         RssFeedParser.parse env feed attempt)
        (fun error =>
           let lastError := as_Error error in
           logger.warn ("Failed to fetch feed " +:+ Feed.name feed +:+ " (attempt "
                        +:+ JS.show (JS.Num attempt) +:+ "/"
                        +:+ JS.show (maxRetries options) +:+ "): "
                        +:+ error_message lastError) None ;;
           (if JS.lt (JS.Num attempt) (maxRetries options)
            then delay (JS.mul (retryDelayMs options) (JS.Num attempt))
            else ret tt) ;;
           fetchFeed_from env options feed remaining' (attempt + 1) (Some lastError))
  end.

Definition fetchFeed (env : Env) (options : FetchOptions) (feed : Feed.t)
  : M (list Article.t) :=
  fetchFeed_from env options feed (JS.iterations (maxRetries options)) 1 None.

Definition fetchFeeds (env : Env) (options : FetchOptions) (feeds : list Feed.t)
  : M (list Article.t) :=
  logger.info ("Fetching " +:+ JS.show_nat (length feeds) +:+ " feeds in parallel") ;;
  fetchPromises <-
    fork (map (fun feed =>
                 try_catch (fetchFeed env options feed)
                   (fun error =>
                      logger.error ("Failed to fetch feed " +:+ Feed.name feed +:+ ":")
                                   error ;;
                      ret []))
              feeds) ;;
  results <- Promise_all fetchPromises ;;
  let allArticles := concat results in
  logger.info ("Fetched total " +:+ JS.show_nat (length allArticles)
               +:+ " articles from " +:+ JS.show_nat (length feeds) +:+ " feeds") ;;
  ret allArticles.

Definition fetchEnabledFeeds (env : Env) (options : FetchOptions) (feeds : list Feed.t)
  : M (list Article.t) :=
  let enabledFeeds := List.filter Feed.isEnabled feeds in
  logger.info ("Found " +:+ JS.show_nat (length enabledFeeds) +:+ " enabled feeds out of "
               +:+ JS.show_nat (length feeds) +:+ " total") ;;
  fetchFeeds env options enabledFeeds.

End FeedClient.

(* ===================================================================== *)
(** ** ArticleStorage and FileArticleRepository *)
(* ===================================================================== *)

(** A call into fs/promises: the environment may make it reject. *)
Definition fs_call {A} (env : Env) (action : M A) : M A :=
  fun w =>
    let w' := {| disk := disk w; fs_calls := S (fs_calls w); posts := posts w;
                 trace := trace w |} in
    match fs_fault env (fs_calls w) with
    | Some e => (Throw e, w')
    | None => action w'
    end.

Definition ENOENT : Thrown := ErrorObj PlainError "ENOENT: no such file or directory".

Definition fs_access (env : Env) : M unit :=
  fs_call env (fun w => match disk w with
                        | Some _ => (Ok tt, w)
                        | None => (Throw ENOENT, w)
                        end).

Definition fs_readFile (env : Env) : M FileContent :=
  fs_call env (fun w => match disk w with
                        | Some c => (Ok c, w)
                        | None => (Throw ENOENT, w)
                        end).

Definition fs_mkdir (env : Env) : M unit := fs_call env (ret tt).

Definition fs_writeFile (env : Env) (c : FileContent) : M unit :=
  fs_call env (fun w => (Ok tt, {| disk := Some c; fs_calls := fs_calls w;
                                   posts := posts w; trace := trace w |})).

Module ArticleStorage.

(** The storage path is taken to be absolute already. *)
Definition getAbsolutePath (storagePath : string) : string := storagePath.

Definition loadArticles (env : Env) (storagePath : string) : M (list Article.t) :=
  try_catch
    (let absolutePath := getAbsolutePath storagePath in
     found <- try_catch (fs_access env ;; ret true)
                (fun _ =>
                   logger.info ("Storage file not found, returning empty array: "
                                +:+ absolutePath) ;;
                   ret false) ;;
     if negb found then ret []
     else
       fileContent <- fs_readFile env ;;
       match fileContent with
       | NotJson why => throw (ErrorObj PlainError why)
       | NoArticlesArray =>
           logger.warn "Invalid storage data format, returning empty array" None ;;
           ret []
       | ArticlesJson items =>
           let articles := map Article.fromPlainObject items in
           logger.info ("Loaded " +:+ JS.show_nat (length articles)
                        +:+ " articles from storage") ;;
           ret articles
       end)
    (fun error =>
       if instanceof_Error error
       then throw (ErrorObj StorageError
                     ("Failed to load articles from storage: " +:+ error_message error))
       else throw (ErrorObj StorageError "Failed to load articles from storage")).

Definition saveArticles (env : Env) (storagePath : string) (articles : list Article.t)
  : M unit :=
  try_catch
    (let absolutePath := getAbsolutePath storagePath in
     fs_mkdir env ;;
     let data := ArticlesJson (map Article.toPlainObject articles) in
     fs_writeFile env data ;;
     logger.info ("Saved " +:+ JS.show_nat (length articles) +:+ " articles to storage: "
                  +:+ absolutePath))
    (fun error =>
       if instanceof_Error error
       then throw (ErrorObj StorageError
                     ("Failed to save articles to storage: " +:+ error_message error))
       else throw (ErrorObj StorageError "Failed to save articles to storage")).

Definition appendArticles (env : Env) (storagePath : string)
    (newArticles : list Article.t) : M unit :=
  try_catch
    (existingArticles <- loadArticles env storagePath ;;
     let existingIds : gset string := list_to_set (map Article.id existingArticles) in
     let articlesToAdd :=
       List.filter (fun article => negb (bool_decide (Article.id article ∈ existingIds)))
                   newArticles in
     if Nat.eqb (length articlesToAdd) 0
     then logger.info "No new articles to append"
     else
       let allArticles := existingArticles ++ articlesToAdd in
       saveArticles env storagePath allArticles ;;
       logger.info ("Appended " +:+ JS.show_nat (length articlesToAdd)
                    +:+ " new articles to storage"))
    (fun error =>
       if instanceof_StorageError error then throw error
       else if instanceof_Error error
       then throw (ErrorObj StorageError
                     ("Failed to append articles to storage: " +:+ error_message error))
       else throw (ErrorObj StorageError "Failed to append articles to storage")).

(** [cutoffDate = new Date(); cutoffDate.setDate(cutoffDate.getDate() -
    retentionDays)]: the date that the local calendar gives, an invalid
    date (NaN) when [retentionDays] is NaN. *)
Definition cutoffDate (env : Env) (retentionDays : JS.number) : JS.number :=
  match retentionDays with
  | JS.Num n => daysBefore env n
  | JS.NaN => JS.NaN
  end.

Definition cleanupOldArticles (env : Env) (storagePath : string)
    (retentionDays : JS.number) : M unit :=
  try_catch
    (articles <- loadArticles env storagePath ;;
     let cutoffDate := cutoffDate env retentionDays in
     let remainingArticles :=
       List.filter (fun article => JS.ge (JS.Num (Article.publishedAt article)) cutoffDate)
                   articles in
     let removedCount := (length articles - length remainingArticles)%nat in
     if Nat.ltb 0 removedCount
     then
       saveArticles env storagePath remainingArticles ;;
       logger.info ("Cleaned up " +:+ JS.show_nat removedCount
                    +:+ " old articles (retention: " +:+ JS.show retentionDays +:+ " days)")
     else logger.info "No old articles to clean up")
    (fun error =>
       if instanceof_StorageError error then throw error
       else if instanceof_Error error
       then throw (ErrorObj StorageError
                     ("Failed to cleanup old articles: " +:+ error_message error))
       else throw (ErrorObj StorageError "Failed to cleanup old articles")).

End ArticleStorage.

(** The repository interface of the domain layer. *)
Record IArticleRepository := {
  findReadArticleIds : M (list string);
  isArticleRead : string -> M bool;
  saveReadArticle : Article.t -> M unit;
  saveReadArticles : list Article.t -> M unit;
  cleanupOldArticles : JS.number -> M unit
}.

Module FileArticleRepository.

Definition findReadArticleIds (env : Env) (storagePath : string) : M (list string) :=
  try_catch
    (articles <- ArticleStorage.loadArticles env storagePath ;;
     let ids := map Article.id articles in
     logger.debug ("Found " +:+ JS.show_nat (length ids) +:+ " read article IDs") ;;
     ret ids)
    (fun error => logger.error "Failed to find read article IDs:" error ;; throw error).

Definition isArticleRead (env : Env) (storagePath : string) (articleId : string)
  : M bool :=
  try_catch
    (readIds <- findReadArticleIds env storagePath ;;
     let isRead := bool_decide (articleId ∈ readIds) in
     logger.debug ("Article " +:+ articleId +:+ " is "
                   +:+ (if isRead then "read" else "unread")) ;;
     ret isRead)
    (fun error => logger.error "Failed to check if article is read:" error ;; throw error).

Definition saveReadArticle (env : Env) (storagePath : string) (article : Article.t)
  : M unit :=
  try_catch
    (ArticleStorage.appendArticles env storagePath [article] ;;
     logger.debug ("Saved article as read: " +:+ Article.id article))
    (fun error => logger.error "Failed to save read article:" error ;; throw error).

Definition saveReadArticles (env : Env) (storagePath : string)
    (articles : list Article.t) : M unit :=
  try_catch
    (if Nat.eqb (length articles) 0
     then logger.debug "No articles to save"
     else
       ArticleStorage.appendArticles env storagePath articles ;;
       logger.info ("Saved " +:+ JS.show_nat (length articles) +:+ " articles as read"))
    (fun error => logger.error "Failed to save read articles:" error ;; throw error).

Definition cleanupOldArticles (env : Env) (storagePath : string)
    (retentionDays : JS.number) : M unit :=
  try_catch
    (ArticleStorage.cleanupOldArticles env storagePath retentionDays ;;
     logger.info ("Cleaned up old articles (retention: " +:+ JS.show retentionDays
                  +:+ " days)"))
    (fun error => logger.error "Failed to cleanup old articles:" error ;; throw error).

(** [new FileArticleRepository(storagePath)] *)
Definition new (env : Env) (storagePath : string) : IArticleRepository :=
  Build_IArticleRepository
    (findReadArticleIds env storagePath)
    (isArticleRead env storagePath)
    (saveReadArticle env storagePath)
    (saveReadArticles env storagePath)
    (cleanupOldArticles env storagePath).

End FileArticleRepository.

(* ===================================================================== *)
(** ** DiscordNotifier *)
(* ===================================================================== *)

Module MessageFormatter.

(** A summary block and at most nine article blocks. *)
Definition formatArticles (articles : list Article.t) (keywords : list string)
  : DiscordMessage :=
  ArticlesMessage (length articles) (firstn (Nat.min (length articles) 9) articles) keywords.

Definition formatError (error : Thrown) : DiscordMessage := ErrorMessage error.

Definition formatNoArticles (keywords : list string) : DiscordMessage :=
  NoArticlesMessage keywords.

End MessageFormatter.

(** [axiosInstance.post(webhookUrl, message)] *)
Definition axios_post (env : Env) (message : DiscordMessage) : M unit :=
  fun w =>
    let w' := {| disk := disk w; fs_calls := fs_calls w; posts := S (posts w);
                 trace := trace w ++ [Post message] |} in
    match post_reply env (posts w) with
    | PostOk => (Ok tt, w')
    | PostFail e => (Throw e, w')
    end.

Module DiscordNotifier.

Record NotificationOptions := {
  maxRetries : JS.number;
  retryDelayMs : JS.number
}.

(** The constructor's defaults. *)
Definition new (maxRetries retryDelayMs : option JS.number) : NotificationOptions :=
  {| maxRetries := default (JS.Num 3) maxRetries;
     retryDelayMs := default (JS.Num 1000) retryDelayMs |}.

(** [axios.isAxiosError(error) && error.response?.status === 429]; when it
    holds, the [retry-after] header of the response. *)
Definition rate_limited (error : Thrown) : option (option string) :=
  match error with
  | ErrorObj (AxiosError (Some (status, retryAfter))) _ =>
      if Z.eqb status 429 then Some retryAfter else None
  | _ => None
  end.

(** The retry loop of [sendWithRetry], from attempt number [attempt] on,
    with [remaining] iterations to go. *)
Fixpoint sendWithRetry_from (env : Env) (options : NotificationOptions)
    (message : DiscordMessage) (remaining : nat) (attempt : Z)
    (lastError : option Thrown) : M unit :=
  match remaining with
  | O =>
      throw (ErrorObj NotificationError
               ("Failed to send message to Discord after "
                +:+ JS.show (maxRetries options) +:+ " attempts: "
                +:+ FeedClient.show_last lastError))
  | S remaining' =>
      try_catch
        (logger.info ("Sending message to Discord (attempt "
                      +:+ JS.show (JS.Num attempt) +:+ "/"
                      +:+ JS.show (maxRetries options) +:+ ")") ;;
         axios_post env message)
        (fun error =>
           let lastError := as_Error error in
           match rate_limited error with
           | Some retryAfter =>
               let waitTime :=
                 match retryAfter with
                 | Some hint =>
                     if JS.truthy_string hint
                     then JS.mul (JS.parseInt hint) (JS.Num 1000)
                     else JS.mul (retryDelayMs options) (JS.Num attempt)
                 | None => JS.mul (retryDelayMs options) (JS.Num attempt)
                 end in
               logger.warn ("Discord rate limit hit. Retrying after "
                            +:+ JS.show waitTime +:+ "ms") None ;;
               delay waitTime ;;
               sendWithRetry_from env options message remaining' (attempt + 1)
                                  (Some lastError)
           | None =>
               logger.warn ("Failed to send message to Discord (attempt "
                            +:+ JS.show (JS.Num attempt) +:+ "/"
                            +:+ JS.show (maxRetries options) +:+ "): "
                            +:+ error_message lastError) None ;;
               (if JS.lt (JS.Num attempt) (maxRetries options)
                then delay (JS.mul (retryDelayMs options) (JS.Num attempt))
                else ret tt) ;;
               sendWithRetry_from env options message remaining' (attempt + 1)
                                  (Some lastError)
           end)
  end.

Definition sendWithRetry (env : Env) (options : NotificationOptions)
    (message : DiscordMessage) : M unit :=
  sendWithRetry_from env options message (JS.iterations (maxRetries options)) 1 None.

Definition sendNoArticlesMessage (env : Env) (options : NotificationOptions)
    (keywords : list string) : M unit :=
  let message := MessageFormatter.formatNoArticles keywords in
  sendWithRetry env options message ;;
  logger.info "Successfully notified no articles message to Discord".

Definition notifyArticles (env : Env) (options : NotificationOptions)
    (articles : list Article.t) (keywords : list string) : M unit :=
  if Nat.eqb (length articles) 0
  then
    logger.info "No articles to notify" ;;
    sendNoArticlesMessage env options keywords
  else
    let message := MessageFormatter.formatArticles articles keywords in
    sendWithRetry env options message ;;
    logger.info ("Successfully notified " +:+ JS.show_nat (length articles)
                 +:+ " articles to Discord").

Definition notifyError (env : Env) (options : NotificationOptions) (error : Thrown)
  : M unit :=
  try_catch
    (let message := MessageFormatter.formatError error in
     sendWithRetry env options message ;;
     logger.info "Successfully notified error to Discord")
    (fun notifyError => logger.error "Failed to notify error to Discord:" notifyError).

End DiscordNotifier.

(* ===================================================================== *)
(** ** The use cases *)
(* ===================================================================== *)

Module ArticleDTO.

Record t := new {
  id : string;
  title : string;
  url : string;
  description : option string;
  publishedAt : Z;
  feedName : string
}.

Definition fromDomain (article : Article.t) : t :=
  new (Article.id article) (Article.title article) (Article.url article)
      (Article.description article) (Article.publishedAt article)
      (Article.feedName article).

Definition fromDomainList (articles : list Article.t) : list t :=
  map fromDomain articles.

Definition toDomain (dto : t) : Article.t :=
  Article.new (title dto) (url dto) (publishedAt dto) (feedName dto) (description dto) None.

End ArticleDTO.

Module FetchArticlesUseCase.

Record FetchArticlesInput := {
  feeds : list Feed.t;
  keywords : list string;
  maxArticles : option JS.number
}.

Record FetchArticlesOutput := {
  articles : list ArticleDTO.t;
  totalFetched : nat;
  totalFiltered : nat;
  newArticles : nat
}.

Definition fetchArticlesFromFeeds (env : Env) (feedClient : FeedClient.FetchOptions)
    (feeds : list Feed.t) : M (list Article.t) :=
  let enabledFeeds := List.filter Feed.isEnabled feeds in
  logger.info ("Fetching articles from " +:+ JS.show_nat (length enabledFeeds)
               +:+ " enabled feeds") ;;
  if Nat.eqb (length enabledFeeds) 0
  then logger.warn "No enabled feeds found" None ;; ret []
  else FeedClient.fetchEnabledFeeds env feedClient feeds.

Definition filterByKeywords (articles : list Article.t) (keywords : list string)
  : M (list Article.t) :=
  if Nat.eqb (length keywords) 0
  then
    logger.info "No keywords specified, returning all articles" ;;
    ret articles
  else
    match ArticleFilter.new keywords
            (Some (ArticleFilter.Partial (Some ArticleFilter.OR) (Some false)
                     (Some true) (Some true) (Some false))) with
    | Throw e => throw e
    | Ok filter => ret (ArticleFilterService.filterArticles articles filter)
    end.

Definition excludeReadArticles (articleRepository : IArticleRepository)
    (articles : list Article.t) : M (list Article.t) :=
  readArticleIds <- findReadArticleIds articleRepository ;;
  let readIdsSet : gset string := list_to_set readArticleIds in
  logger.info ("Excluding " +:+ JS.show_nat (size readIdsSet) +:+ " read articles") ;;
  ret (ArticleFilterService.excludeReadArticles articles readIdsSet).

Definition execute (env : Env) (feedClient : FeedClient.FetchOptions)
    (articleRepository : IArticleRepository) (input : FetchArticlesInput)
  : M FetchArticlesOutput :=
  logger.info "Starting FetchArticlesUseCase" ;;
  fetchedArticles <- fetchArticlesFromFeeds env feedClient (feeds input) ;;
  logger.info ("Fetched " +:+ JS.show_nat (length fetchedArticles)
               +:+ " articles from feeds") ;;
  filteredArticles <- filterByKeywords fetchedArticles (keywords input) ;;
  logger.info ("Filtered to " +:+ JS.show_nat (length filteredArticles)
               +:+ " articles by keywords") ;;
  newArticles <- excludeReadArticles articleRepository filteredArticles ;;
  logger.info ("Found " +:+ JS.show_nat (length newArticles) +:+ " new articles") ;;
  let sortedArticles := ArticleFilterService.sortByPublishedDate newArticles in
  let limitedArticles :=
    match maxArticles input with
    | Some maxCount =>
        if JS.truthy maxCount
        then ArticleFilterService.limitArticles sortedArticles maxCount
        else sortedArticles
    | None => sortedArticles
    end in
  let articleDTOs := ArticleDTO.fromDomainList limitedArticles in
  logger.info "FetchArticlesUseCase completed successfully" ;;
  ret {| articles := articleDTOs;
         totalFetched := length fetchedArticles;
         totalFiltered := length filteredArticles;
         newArticles := length newArticles |}.

End FetchArticlesUseCase.

Module NotifyArticlesUseCase.

Record NotifyArticlesInput := {
  articles : list ArticleDTO.t;
  keywords : list string;
  skipNotifyIfEmpty : option bool
}.

Record NotifyArticlesOutput := {
  notified : bool;
  articleCount : nat;
  savedToRepository : bool
}.

Definition cleanupOldArticles (articleRepository : IArticleRepository)
    (retentionDays : JS.number) : M unit :=
  try_catch
    (cleanupOldArticles articleRepository retentionDays ;;
     logger.info ("Cleaned up old articles (retention: " +:+ JS.show retentionDays
                  +:+ " days)"))
    (fun error => logger.warn "Failed to cleanup old articles (non-critical):" (Some error)).

Definition execute (env : Env) (discordNotifier : DiscordNotifier.NotificationOptions)
    (articleRepository : IArticleRepository) (retentionDays : JS.number)
    (input : NotifyArticlesInput) : M NotifyArticlesOutput :=
  logger.info "Starting NotifyArticlesUseCase" ;;
  let skip := default false (skipNotifyIfEmpty input) in
  if Nat.eqb (length (articles input)) 0
  then
    logger.info "No articles to notify" ;;
    if skip
    then
      logger.info "Skipping notification for empty articles" ;;
      ret {| notified := false; articleCount := 0; savedToRepository := false |}
    else
      DiscordNotifier.notifyArticles env discordNotifier [] (keywords input) ;;
      ret {| notified := true; articleCount := 0; savedToRepository := false |}
  else
    let domainArticles := map ArticleDTO.toDomain (articles input) in
    try_catch
      (DiscordNotifier.notifyArticles env discordNotifier domainArticles (keywords input) ;;
       logger.info ("Notified " +:+ JS.show_nat (length (articles input))
                    +:+ " articles to Discord") ;;
       saveReadArticles articleRepository domainArticles ;;
       logger.info ("Saved " +:+ JS.show_nat (length (articles input))
                    +:+ " articles as read") ;;
       cleanupOldArticles articleRepository retentionDays ;;
       logger.info "NotifyArticlesUseCase completed successfully" ;;
       ret {| notified := true; articleCount := length (articles input);
              savedToRepository := true |})
      (fun error =>
         logger.error "Failed to notify articles:" error ;;
         (if instanceof_Error error
          then try_catch (DiscordNotifier.notifyError env discordNotifier error)
                 (fun notifyError =>
                    logger.error "Failed to notify error to Discord:" notifyError)
          else ret tt) ;;
         throw error).

(** [notifyError]: the error notice, with a failure of the notice logged
    and thrown on. *)
Definition notifyError (env : Env) (discordNotifier : DiscordNotifier.NotificationOptions)
    (error : Thrown) : M unit :=
  try_catch
    (DiscordNotifier.notifyError env discordNotifier error ;;
     logger.info "Notified error to Discord")
    (fun notifyError =>
       logger.error "Failed to notify error to Discord:" notifyError ;;
       throw notifyError).

End NotifyArticlesUseCase.

Module DailyNewsCommand.

Record CommandOptions := {
  keywords : option (list string);
  skipNotifyIfEmpty : option bool;
  maxArticles : option JS.number
}.

(** [mergeKeywords]: the default and the custom keywords, each once, the
    empty ones left out. *)
Definition mergeKeywords (defaultKeywords customKeywords : list string) : list string :=
  let merged := JS.uniq (defaultKeywords ++ customKeywords) in
  List.filter (fun k => Nat.ltb 0 (String.length k)) merged.

(** The loop of [parseArgs] over the arguments that are left. *)
Fixpoint parseArgs_from (args : list string) (options : CommandOptions) : CommandOptions :=
  match args with
  | [] => options
  | arg :: rest =>
      match rest with
      | next :: rest' =>
          if String.eqb arg "--keywords"
          then
            parseArgs_from rest'
              {| keywords :=
                   Some (List.filter (fun k => Nat.ltb 0 (String.length k))
                           (map JS.trim (JS.split "," next)));
                 skipNotifyIfEmpty := skipNotifyIfEmpty options;
                 maxArticles := maxArticles options |}
          else if String.eqb arg "--skip-notify-if-empty"
          then
            parseArgs_from rest
              {| keywords := keywords options;
                 skipNotifyIfEmpty := Some true;
                 maxArticles := maxArticles options |}
          else if String.eqb arg "--max-articles"
          then
            let maxNum := JS.parseInt10 next in
            parseArgs_from rest'
              (if JS.lt (JS.Num 0) maxNum
               then {| keywords := keywords options;
                       skipNotifyIfEmpty := skipNotifyIfEmpty options;
                       maxArticles := Some maxNum |}
               else options)
          else parseArgs_from rest options
      | [] =>
          if String.eqb arg "--skip-notify-if-empty"
          then {| keywords := keywords options;
                  skipNotifyIfEmpty := Some true;
                  maxArticles := maxArticles options |}
          else options
      end
  end.

Definition parseArgs (args : list string) : CommandOptions :=
  parseArgs_from args {| keywords := None; skipNotifyIfEmpty := None; maxArticles := None |}.

End DailyNewsCommand.

(* ===================================================================== *)
(** ** Reading traces and worlds *)
(* ===================================================================== *)

(** The waits made from the start of a trace up to its first POST. *)
Fixpoint delays_until_post (tr : list Event) : list JS.number :=
  match tr with
  | [] => []
  | Post _ :: _ => []
  | Delay ms :: tr' => ms :: delays_until_post tr'
  | _ :: tr' => delays_until_post tr'
  end.

(** For each POST of a trace, in order, the waits made after it and before
    the next POST (or the end of the trace). *)
Fixpoint waits_after_posts (tr : list Event) : list (list JS.number) :=
  match tr with
  | [] => []
  | Post _ :: tr' => delays_until_post tr' :: waits_after_posts tr'
  | _ :: tr' => waits_after_posts tr'
  end.

(** The events a computation adds to the trace of the world it starts in. *)
Definition events_of {A} (m : M A) (w : World) : list Event :=
  drop (length (trace w)) (trace (snd (m w))).

(** The articles the storage file holds, as [loadArticles] reads them. *)
Definition stored (w : World) : list Article.t :=
  match disk w with
  | Some (ArticlesJson items) => map Article.fromPlainObject items
  | _ => []
  end.

(** A computation that only adds events to the trace. *)
Definition extends_trace {A} (m : M A) : Prop :=
  forall w, exists new, trace (snd (m w)) = trace w ++ new.

(** A computation whose answer does not depend on the world it runs in. *)
Definition world_blind {A} (m : M A) : Prop :=
  forall w1 w2, fst (m w1) = fst (m w2).

(** Newest first. *)
Definition newer_first (a b : Article.t) : Prop :=
  Article.publishedAt b <= Article.publishedAt a.

(* ===================================================================== *)
(** ** Sample data *)
(* ===================================================================== *)

Module Samples.

Definition jan1 : Z := 1704067200000.
Definition feb1 : Z := 1706745600000.
Definition mar1 : Z := 1709251200000.

Definition alpha : Article.t :=
  Article.new "Alpha" "https://example.com/a" jan1 "Feed One" (Some "first") None.

Definition alpha_again : Article.t :=
  Article.new "Alpha" "https://example.com/a" mar1 "Feed Two" None (Some "body").

Definition beta : Article.t :=
  Article.new "Beta" "https://example.com/b" mar1 "Feed One" None None.

Definition gamma : Article.t :=
  Article.new "Gamma" "https://example.com/c" feb1 "Feed Two" None None.


Definition no_keywords (strategy : ArticleFilter.MatchStrategy) : ArticleFilter.t :=
  ArticleFilter.Build []
    (ArticleFilter.Options strategy false true true (Some false)).

(** Two feeds: the first answers two entries, every request for the
    second is rejected. *)
Definition good_feed : Feed.t :=
  Feed.new "Good" "https://good.example/rss" Feed.rss true.

Definition bad_feed : Feed.t :=
  Feed.new "Bad" "https://bad.example/atom" Feed.atom true.

Definition item (title link date : string) : Item :=
  {| i_title := Some title; i_link := Some link; i_isoDate := Some date;
     i_pubDate := None; i_published := None;
     i_contentSnippet := None; i_content := None |}.

Definition day1 : string := "2024-01-01T00:00:00.000Z".
Definition day2 : string := "2024-02-01T00:00:00.000Z".

Definition old_news : Article.t :=
  Article.new "Old news" "https://good.example/1" jan1 "Good" None None.

Definition tech_news : Article.t :=
  Article.new "New tech arrives" "https://good.example/2" feb1 "Good" None None.

(** The first two POSTs are answered 429 with a hint of two seconds, the
    later ones succeed; the file system works; the calendar has days of
    24 hours. *)
Definition env : Env :=
  {| parseURL := fun url _ =>
       if String.eqb url "https://good.example/rss"
       then UrlFeed (Some [item "Old news" "https://good.example/1" day1;
                           item "New tech arrives" "https://good.example/2" day2])
       else UrlFail (ErrorObj PlainError "connect ECONNREFUSED");
     parseDate := fun s =>
       if String.eqb s day1 then Some jan1
       else if String.eqb s day2 then Some feb1 else None;
     now := mar1;
     daysBefore := fun n => JS.Num (mar1 - n * 86400000);
     post_reply := fun n =>
       if Nat.ltb n 2
       then PostFail (ErrorObj (AxiosError (Some (429, Some "2")))
                               "Request failed with status code 429")
       else PostOk;
     fs_fault := fun _ => None |}.

(** The same, with a network that answers at once and a disk on which
    every call after the first two is rejected. *)
Definition env_disk_full : Env :=
  {| parseURL := parseURL env;
     parseDate := parseDate env;
     now := now env;
     daysBefore := daysBefore env;
     post_reply := fun _ => PostOk;
     fs_fault := fun n =>
       if Nat.ltb n 2 then None
       else Some (ErrorObj PlainError "ENOSPC: no space left on device") |}.

Definition fetch_options : FeedClient.FetchOptions := FeedClient.new None None None.

Definition notify_options : DiscordNotifier.NotificationOptions :=
  DiscordNotifier.new None None.

Definition storagePath : string := "/data/read-articles.json".

(** A world whose storage file records [old_news] as read. *)
Definition world : World :=
  {| disk := Some (ArticlesJson [Article.toPlainObject old_news]);
     fs_calls := 0; posts := 0; trace := [] |}.

(** The same, with a disk on which the sixth call, the read that opens
    the pruning, is rejected. *)
Definition env_prune_fails : Env :=
  {| parseURL := parseURL env;
     parseDate := parseDate env;
     now := now env;
     daysBefore := daysBefore env;
     post_reply := fun _ => PostOk;
     fs_fault := fun n =>
       if Nat.eqb n 5 then Some (ErrorObj PlainError "EIO: i/o error") else None |}.

(** A world without a storage file. *)
Definition fresh_world : World :=
  {| disk := None; fs_calls := 0; posts := 0; trace := [] |}.

Definition notify_input : NotifyArticlesUseCase.NotifyArticlesInput :=
  {| NotifyArticlesUseCase.articles := [ArticleDTO.fromDomain tech_news];
     NotifyArticlesUseCase.keywords := ["tech"];
     NotifyArticlesUseCase.skipNotifyIfEmpty := None |}.

Definition fetch_input (keywords : list string) (maxArticles : option JS.number)
  : FetchArticlesUseCase.FetchArticlesInput :=
  {| FetchArticlesUseCase.feeds := [bad_feed; good_feed];
     FetchArticlesUseCase.keywords := keywords;
     FetchArticlesUseCase.maxArticles := maxArticles |}.

End Samples.

(* ===================================================================== *)
(** ** Further readings of runs *)
(* ===================================================================== *)

(** The waits of a trace, in order. *)
Fixpoint delays_of (tr : list Event) : list JS.number :=
  match tr with
  | [] => []
  | Delay ms :: tr' => ms :: delays_of tr'
  | _ :: tr' => delays_of tr'
  end.

(** The messages posted in a trace, in order. *)
Fixpoint posts_of (tr : list Event) : list DiscordMessage :=
  match tr with
  | [] => []
  | Post message :: tr' => message :: posts_of tr'
  | _ :: tr' => posts_of tr'
  end.

Definition is_log (e : Event) : Prop :=
  match e with Log _ _ _ => True | _ => False end.

(** A world with more events in its trace. *)
Definition with_events (w : World) (new : list Event) : World :=
  {| disk := disk w; fs_calls := fs_calls w; posts := posts w; trace := trace w ++ new |}.

(** A computation that does nothing to the world but log. *)
Definition logs_only {A} (m : M A) : Prop :=
  forall w, exists new, snd (m w) = with_events w new /\ Forall is_log new.

(** A computation that leaves the file system alone. *)
Definition storage_untouched {A} (m : M A) : Prop :=
  forall w, disk (snd (m w)) = disk w /\ fs_calls (snd (m w)) = fs_calls w.

(** A world after [j] more POSTs and with more events in its trace. *)
Definition after_posts (w : World) (j : nat) (new : list Event) : World :=
  {| disk := disk w; fs_calls := fs_calls w; posts := posts w + j;
     trace := trace w ++ new |}.

(** How often [sendWithRetry] waits when all its [n] attempts fail, the
    first of them being the POST numbered [first]: after every failure but
    the last, and after the last one too when it is a rate limit. *)
Definition exhausted_waits (env : Env) (first n : nat) : nat :=
  match n with
  | O => O
  | S r =>
      match post_reply env (first + r) with
      | PostFail e =>
          match DiscordNotifier.rate_limited e with Some _ => S r | None => r end
      | PostOk => r
      end
  end.

(** A computation that rejects with nothing but a StorageError. *)
Definition rejects_only_StorageError {A} (m : M A) : Prop :=
  forall w e, fst (m w) = Throw e -> instanceof_StorageError e = true.

(** An article as it comes back from the storage file: without its
    content. *)
Definition persisted (a : Article.t) : Article.t :=
  Article.new (Article.title a) (Article.url a) (Article.publishedAt a)
              (Article.feedName a) (Article.description a) None.

(** The articles of a batch whose id is not among [existing]. *)
Definition unseen (existing batch : list Article.t) : list Article.t :=
  List.filter
    (fun article =>
       negb (bool_decide (Article.id article
                          ∈ (list_to_set (map Article.id existing) : gset string))))
    batch.

(** What [cleanupOldArticles] keeps: the articles published at or after
    its cutoff date. *)
Definition recent (env : Env) (retentionDays : JS.number) (a : Article.t) : bool :=
  JS.ge (JS.Num (Article.publishedAt a))
        (ArticleStorage.cutoffDate env retentionDays).

(** The cap of [FetchArticlesUseCase.execute]: applied only under a truthy
    [maxArticles]. *)
Definition capped (maxArticles : option JS.number) (sorted : list Article.t)
  : list Article.t :=
  match maxArticles with
  | Some maxCount =>
      if JS.truthy maxCount
      then ArticleFilterService.limitArticles sorted maxCount
      else sorted
  | None => sorted
  end.

(** What [parseArgs] can answer: keywords without an empty one, a skip
    flag that is set or absent, a cap that is greater than 0 or absent. *)
Definition well_formed_options (o : DailyNewsCommand.CommandOptions) : Prop :=
  match DailyNewsCommand.keywords o with
  | Some ks => "" ∉ ks
  | None => True
  end
  /\ DailyNewsCommand.skipNotifyIfEmpty o <> Some false
  /\ match DailyNewsCommand.maxArticles o with
     | Some n => JS.lt (JS.Num 0) n = true
     | None => True
     end.

(** The title and link of an item that has both. *)
Definition item_key (item : Item) : option (string * string) :=
  match i_title item, i_link item with
  | Some title, Some link =>
      if (JS.truthy_string title && JS.truthy_string link)%bool
      then Some (title, link) else None
  | _, _ => None
  end.

Definition parsed_from env (feed : Feed.t) (a : Article.t) : Prop :=
  JS.truthy_string (Article.title a) = true
  /\ JS.truthy_string (Article.url a) = true
  /\ Article.feedName a = Feed.name feed
  /\ (Article.publishedAt a = now env
      \/ exists s, parseDate env s = Some (Article.publishedAt a)).


(** How a [retry-after] header reads.  A numeral ends where the header
    ends or goes on with a character that is neither a decimal digit nor
    (after a leading 0, where it would open a hexadecimal numeral) an x. *)
Definition numeral_ends (rest : string) : bool :=
  match rest with
  | EmptyString => true
  | String c _ =>
      match JS.digit_value 10 c with
      | Some _ => false
      | None => negb (Ascii.eqb c "x" || Ascii.eqb c "X")
      end
  end.

(** An ASCII letter, as opens an HTTP date. *)
Definition is_letter (c : ascii) : bool :=
  let n := nat_of_ascii c in
  ((Nat.leb 65 n && Nat.leb n 90) || (Nat.leb 97 n && Nat.leb n 122))%bool.

(** Further sample data. *)
Module MoreSamples.

(** An environment in which the requests for the good feed are rejected
    twice before they are answered. *)
Definition env_flaky : Env :=
  {| parseURL := fun url n =>
       if Z.ltb n 3 then UrlFail (ErrorObj PlainError "socket hang up")
       else parseURL Samples.env url n;
     parseDate := parseDate Samples.env;
     now := now Samples.env;
     daysBefore := daysBefore Samples.env;
     post_reply := fun _ => PostOk;
     fs_fault := fun _ => None |}.

(** A file system that rejects the first call made to it and no other;
    every POST is accepted. *)
Definition env_access_denied : Env :=
  {| parseURL := parseURL Samples.env;
     parseDate := parseDate Samples.env;
     now := now Samples.env;
     daysBefore := daysBefore Samples.env;
     post_reply := fun _ => PostOk;
     fs_fault := fun n =>
       if Nat.eqb n 0 then Some (ErrorObj PlainError "EACCES: permission denied")
       else None |}.

(** A world whose storage file does not hold JSON. *)
Definition corrupt_world : World :=
  {| disk := Some (NotJson "Unexpected token } in JSON at position 12");
     fs_calls := 0; posts := 0; trace := [] |}.

(** A feed that is not enabled, and a remote end that would answer it. *)
Definition off_feed : Feed.t :=
  Feed.new "Off" "https://off.example/rss" Feed.rss false.

Definition answers_off_feed (url : string) (n : Z) : UrlReply :=
  if String.eqb url "https://off.example/rss"
  then UrlFeed (Some [Samples.item "Unseen" "https://off.example/1" Samples.day1])
  else parseURL Samples.env url n.

(** The first POST is answered 429 with the given [retry-after] header,
    the later ones succeed. *)
Definition env_hint (hint : string) : Env :=
  {| parseURL := parseURL Samples.env;
     parseDate := parseDate Samples.env;
     now := now Samples.env;
     daysBefore := daysBefore Samples.env;
     post_reply := fun n =>
       if Nat.eqb n 0
       then PostFail (ErrorObj (AxiosError (Some (429, Some hint)))
                               "Request failed with status code 429")
       else PostOk;
     fs_fault := fun _ => None |}.

(** A file system that rejects its fifth call, the existence check of a
    second append, and no other. *)
Definition env_second_check_denied : Env :=
  {| parseURL := parseURL Samples.env;
     parseDate := parseDate Samples.env;
     now := now Samples.env;
     daysBefore := daysBefore Samples.env;
     post_reply := fun _ => PostOk;
     fs_fault := fun n =>
       if Nat.eqb n 4 then Some (ErrorObj PlainError "EACCES: permission denied")
       else None |}.

End MoreSamples.

(* ===================================================================== *)
(** ** Properties *)
(* ===================================================================== *)

Example sha256_empty :
  Sha256.hex "" = "e3b0c44298fc1c149afbf4c8996fb92427ae41e4649b934ca495991b7852b855".
Proof. vm_compute. reflexivity. Qed.

Example sha256_abc :
  Sha256.hex "abc" = "ba7816bf8f01cfea414140de5dae2223b00361a396177a9cb410ff61f20015ad".
Proof. vm_compute. reflexivity. Qed.

Example sha256_two_blocks :
  Sha256.hex "abcdbcdecdefdefgefghfghighijhijkijkljklmklmnlmnomnopnopq"
  = "248d6a61d20638b8e5c026930c3e6039a33ce45964ff2167f6ecedd419db06c1".
Proof. vm_compute. reflexivity. Qed.

(** *** Article identity *)

Example alpha_id :
  Article.id Samples.alpha
  = "165825dce3b0756e88163fd70770889d451943afaf1e70be090877dd1317ea34".
Proof. vm_compute. reflexivity. Qed.

Example beta_id :
  Article.id Samples.beta
  = "2b469ef88a81b22301458cc01f60423567ca1b489310e15c962430c28a542ffc".
Proof. vm_compute. reflexivity. Qed.

Lemma alpha_beta_ids_differ : Article.id Samples.alpha ≠ Article.id Samples.beta.
Proof. rewrite alpha_id, beta_id. discriminate. Qed.

(** C4. The id of an article is the SHA-256 digest (in hexadecimal) of its
    url immediately followed by its title, and so two articles with the
    same url and title have the same id whatever their description,
    content, publication date and feed name are. *)
Theorem article_id_is_sha256_of_url_title (a b : Article.t) :
  Article.url a = Article.url b ->
  Article.title a = Article.title b ->
  Article.id a = Article.id b
  /\ Article.id a = Sha256.hex (Article.url a +:+ Article.title a).
Proof.
  intros Hurl Htitle. unfold Article.id, Article.generateId.
  split; [ now rewrite Hurl, Htitle | reflexivity ].
Qed.

Lemma article_id_is_sha256_of_url_title_witness :
  Article.id Samples.alpha = Article.id Samples.alpha_again
  /\ Article.id Samples.alpha
     = Sha256.hex (Article.url Samples.alpha +:+ Article.title Samples.alpha).
Proof.
  apply (article_id_is_sha256_of_url_title Samples.alpha Samples.alpha_again);
    reflexivity.
Defined.

(** *** Deduplication *)

Lemma filter_bool_sublist {A} (p : A -> bool) (l : list A) :
  sublist (List.filter p l) l.
Proof.
  induction l as [|x l IH]; simpl.
  - constructor.
  - destruct (p x); [ now apply sublist_skip | now apply sublist_cons ].
Qed.

Lemma filter_bool_elem_of {A} (p : A -> bool) (l : list A) (x : A) :
  x ∈ List.filter p l <-> x ∈ l /\ p x = true.
Proof. rewrite !list_elem_of_In. apply filter_In. Qed.

Lemma filter_bool_as_filter {A} (p : A -> bool) (P : A -> Prop)
    `{forall x, Decision (P x)} (l : list A) :
  (forall x, p x = true <-> P x) -> List.filter p l = filter P l.
Proof.
  intros Hp. induction l as [|x l IH]; [ reflexivity | ].
  simpl. rewrite filter_cons. destruct (decide (P x)) as [HP|HP].
  - apply Hp in HP. rewrite HP. now f_equal.
  - destruct (p x) eqn:E; [ now apply Hp in E | exact IH ].
Qed.

Lemma unread_iff (seen : gset string) (a : Article.t) :
  negb (bool_decide (Article.id a ∈ seen)) = true <-> Article.id a ∉ seen.
Proof.
  rewrite negb_true_iff, bool_decide_eq_false. reflexivity.
Qed.

(** C5. [excludeReadArticles] returns exactly the articles whose id is not
    in the seen set, in their original relative order; with seen set
    {id X} and input [X, Y], where Y has another id, the output is [Y]. *)
Theorem excludeReadArticles_is_unseen_subsequence
    (articles : list Article.t) (seenIds : gset string) (X Y : Article.t) :
  let out := ArticleFilterService.excludeReadArticles articles seenIds in
  out = filter (fun a => Article.id a ∉ seenIds) articles
  /\ sublist out articles
  /\ (forall a, a ∈ out <-> a ∈ articles /\ Article.id a ∉ seenIds)
  /\ (Article.id X ≠ Article.id Y ->
      ArticleFilterService.excludeReadArticles [X; Y] {[ Article.id X ]} = [Y]).
Proof.
  unfold ArticleFilterService.excludeReadArticles. cbn zeta.
  split; [ | split; [ | split ] ].
  - apply filter_bool_as_filter. intros a. apply unread_iff.
  - apply filter_bool_sublist.
  - intros a. rewrite filter_bool_elem_of, unread_iff. reflexivity.
  - intros Hne. cbn [List.filter].
    rewrite (bool_decide_eq_true_2 (Article.id X ∈ ({[Article.id X]} : gset string)))
      by set_solver.
    rewrite (bool_decide_eq_false_2 (Article.id Y ∈ ({[Article.id X]} : gset string)))
      by set_solver.
    reflexivity.
Qed.

Lemma excludeReadArticles_is_unseen_subsequence_witness :
  Article.id Samples.alpha ≠ Article.id Samples.beta
  /\ ArticleFilterService.excludeReadArticles [Samples.alpha; Samples.beta]
       {[ Article.id Samples.alpha ]} = [Samples.beta].
Proof.
  split; [ exact alpha_beta_ids_differ | ].
  apply (excludeReadArticles_is_unseen_subsequence [] ∅ Samples.alpha Samples.beta).
  exact alpha_beta_ids_differ.
Defined.

(** *** Keyword matching with an empty keyword list *)

Lemma filter_bool_all {A} (p : A -> bool) (l : list A) :
  (forall x, p x = true) -> List.filter p l = l.
Proof.
  intros Hp. induction l as [|x l IH]; simpl; [ reflexivity | ].
  rewrite Hp. now f_equal.
Qed.

Lemma filter_bool_none {A} (p : A -> bool) (l : list A) :
  (forall x, p x = false) -> List.filter p l = [].
Proof.
  intros Hp. induction l as [|x l IH]; simpl; [ reflexivity | ].
  now rewrite Hp.
Qed.

(** C2, as stated, fails: under the OR strategy a filter whose keyword list
    is empty matches no article. *)
Lemma empty_keywords_OR_is_not_pass_through :
  ArticleFilter._keywords (Samples.no_keywords ArticleFilter.OR) = []
  /\ ArticleFilterService.matchesFilter Samples.alpha
       (Samples.no_keywords ArticleFilter.OR) = false
  /\ ArticleFilterService.filterArticles [Samples.alpha]
       (Samples.no_keywords ArticleFilter.OR) = []
  /\ ~ (forall (articles : list Article.t) (f : ArticleFilter.t),
          ArticleFilter._keywords f = [] ->
          ArticleFilterService.filterArticles articles f = articles).
Proof.
  repeat split.
  intros H.
  specialize (H [Samples.alpha] (Samples.no_keywords ArticleFilter.OR) eq_refl).
  discriminate H.
Qed.

(** C2, amended. With an empty keyword list the matcher follows the
    strategy: under AND every article matches and [filterArticles] returns
    its input; under OR no article matches and [filterArticles] returns the
    empty list.  The pass-through for an empty keyword list is the guard of
    [FetchArticlesUseCase.filterByKeywords], which answers its input
    without building a filter, and the constructor of [ArticleFilter]
    rejects an empty keyword list. *)
Theorem empty_keywords_follow_strategy
    (f : ArticleFilter.t) (articles : list Article.t) (w : World) :
  ArticleFilter._keywords f = [] ->
  (forall a, ArticleFilterService.matchesFilter a f
             = match ArticleFilter.matchStrategy (ArticleFilter._options f) with
               | ArticleFilter.AND => true
               | ArticleFilter.OR => false
               end)
  /\ ArticleFilterService.filterArticles articles f
     = match ArticleFilter.matchStrategy (ArticleFilter._options f) with
       | ArticleFilter.AND => articles
       | ArticleFilter.OR => []
       end
  /\ fst (FetchArticlesUseCase.filterByKeywords articles [] w) = Ok articles
  /\ (forall o, exists e, ArticleFilter.new [] o = Throw e).
Proof.
  intros Hk.
  assert (Hm : forall a, ArticleFilterService.matchesFilter a f
             = match ArticleFilter.matchStrategy (ArticleFilter._options f) with
               | ArticleFilter.AND => true
               | ArticleFilter.OR => false
               end).
  { intros a. unfold ArticleFilterService.matchesFilter, ArticleFilter.toPlainObject.
    rewrite Hk. simpl map.
    destruct (ArticleFilter.matchStrategy (ArticleFilter._options f)); reflexivity. }
  split; [ exact Hm | split; [ | split ] ].
  - unfold ArticleFilterService.filterArticles.
    destruct (ArticleFilter.matchStrategy (ArticleFilter._options f)) eqn:E.
    + apply filter_bool_none. intros a. now rewrite Hm.
    + apply filter_bool_all. intros a. now rewrite Hm.
  - reflexivity.
  - intros o. eexists. reflexivity.
Qed.

Lemma empty_keywords_follow_strategy_witness :
  ArticleFilterService.filterArticles [Samples.alpha; Samples.beta]
    (Samples.no_keywords ArticleFilter.AND) = [Samples.alpha; Samples.beta]
  /\ ArticleFilterService.filterArticles [Samples.alpha; Samples.beta]
       (Samples.no_keywords ArticleFilter.OR) = [].
Proof.
  split.
  - apply (empty_keywords_follow_strategy (Samples.no_keywords ArticleFilter.AND)
             [Samples.alpha; Samples.beta]
             {| disk := None; fs_calls := 0; posts := 0; trace := [] |}).
    reflexivity.
  - apply (empty_keywords_follow_strategy (Samples.no_keywords ArticleFilter.OR)
             [Samples.alpha; Samples.beta]
             {| disk := None; fs_calls := 0; posts := 0; trace := [] |}).
    reflexivity.
Defined.

(** The matcher on the keyword examples of the specification. *)
Example matcher_ANY_examples :
  let any := ArticleFilter.Build ["go"; "rust"]
               (ArticleFilter.Options ArticleFilter.OR false true true (Some false)) in
  let all := ArticleFilter.Build ["go"; "rust"]
               (ArticleFilter.Options ArticleFilter.AND false true true (Some false)) in
  let titled t := Article.new t "https://example.com/x" Samples.jan1 "F" None None in
  ArticleFilterService.matchesFilter (titled "Intro to Rust") any = true
  /\ ArticleFilterService.matchesFilter (titled "Intro to Java") any = false
  /\ ArticleFilterService.matchesFilter (titled "Go meets Rust") all = true
  /\ ArticleFilterService.matchesFilter (titled "Go only") all = false.
Proof. vm_compute. repeat split. Qed.

(** *** Ranking *)

Lemma after_byPublishedDate (x y : Article.t) :
  JS.after ArticleFilterService.byPublishedDate x y
  = Z.ltb (Article.publishedAt x) (Article.publishedAt y).
Proof.
  unfold JS.after, ArticleFilterService.byPublishedDate, JS.sub.
  destruct (Z.ltb_spec 0 (Article.publishedAt y - Article.publishedAt x));
    destruct (Z.ltb_spec (Article.publishedAt x) (Article.publishedAt y));
    (reflexivity || lia).
Qed.

Section InsertionSort.
Local Abbreviation cmp := ArticleFilterService.byPublishedDate.

Lemma insert_perm (x : Article.t) (l : list Article.t) :
  Permutation (x :: l) (JS.insert cmp x l).
Proof.
  induction l as [|y l IH]; simpl; [ reflexivity | ].
  destruct (JS.after cmp x y); [ | reflexivity ].
  rewrite perm_swap. now apply perm_skip.
Qed.

Lemma sort_perm (l : list Article.t) : Permutation l (JS.sort cmp l).
Proof.
  induction l as [|x l IH]; simpl; [ reflexivity | ].
  rewrite <- insert_perm. now apply perm_skip.
Qed.

Lemma insert_sorted (x : Article.t) (l : list Article.t) :
  StronglySorted newer_first l -> StronglySorted newer_first (JS.insert cmp x l).
Proof.
  induction 1 as [|y l Hs IH Hy]; simpl.
  - repeat constructor.
  - rewrite after_byPublishedDate.
    destruct (Z.ltb_spec (Article.publishedAt x) (Article.publishedAt y)) as [Hlt|Hge].
    + constructor; [ exact IH | ].
      rewrite <- insert_perm. constructor; [ unfold newer_first; lia | exact Hy ].
    + constructor; [ now constructor | ].
      constructor; [ exact Hge | ].
      eapply Forall_impl; [ exact Hy | ].
      unfold newer_first. intros z Hz. lia.
Qed.

Lemma sort_sorted (l : list Article.t) : StronglySorted newer_first (JS.sort cmp l).
Proof.
  induction l as [|x l IH]; simpl; [ constructor | now apply insert_sorted ].
Qed.

(** Insertion only passes strictly newer articles: those published at
    the same instant stay behind the inserted one. *)
Lemma insert_same_instant (t : Z) (x : Article.t) (l : list Article.t) :
  filter (fun a => Article.publishedAt a = t) (JS.insert cmp x l)
  = filter (fun a => Article.publishedAt a = t) (x :: l).
Proof.
  induction l as [|y l IH]; simpl; [ reflexivity | ].
  rewrite after_byPublishedDate.
  destruct (Z.ltb_spec (Article.publishedAt x) (Article.publishedAt y)) as [Hlt|Hge];
    [ | reflexivity ].
  rewrite (filter_cons _ y (JS.insert _ x l)). rewrite IH.
  rewrite !filter_cons.
  destruct (decide (Article.publishedAt y = t));
    destruct (decide (Article.publishedAt x = t)); try reflexivity.
  lia.
Qed.

Lemma sort_stable (t : Z) (l : list Article.t) :
  filter (fun a => Article.publishedAt a = t) (JS.sort cmp l)
  = filter (fun a => Article.publishedAt a = t) l.
Proof.
  induction l as [|x l IH]; simpl; [ reflexivity | ].
  rewrite insert_same_instant, !filter_cons, IH. reflexivity.
Qed.
End InsertionSort.

(** C9. [sortByPublishedDate] returns its articles ordered by publication
    date, newest first, and is stable: the articles published at any one
    instant keep their relative input order.  Articles dated 2024-01-01,
    2024-03-01, 2024-02-01 come out in the order 03-01, 02-01, 01-01. *)
Theorem sortByPublishedDate_descending_stable
    (articles : list Article.t) (a b c : Article.t) :
  let out := ArticleFilterService.sortByPublishedDate articles in
  Permutation articles out
  /\ StronglySorted (fun x y => Article.publishedAt y <= Article.publishedAt x) out
  /\ (forall t, filter (fun x => Article.publishedAt x = t) out
                = filter (fun x => Article.publishedAt x = t) articles)
  /\ (Article.publishedAt a = Samples.jan1 ->
      Article.publishedAt b = Samples.mar1 ->
      Article.publishedAt c = Samples.feb1 ->
      ArticleFilterService.sortByPublishedDate [a; b; c] = [b; c; a]).
Proof.
  unfold ArticleFilterService.sortByPublishedDate. cbn zeta.
  split; [ apply sort_perm | split; [ apply sort_sorted | split ] ].
  - intros t. apply sort_stable.
  - destruct a, b, c. cbn [Article.publishedAt]. intros -> -> ->. reflexivity.
Qed.

Lemma sortByPublishedDate_descending_stable_witness :
  ArticleFilterService.sortByPublishedDate [Samples.alpha; Samples.beta; Samples.gamma]
  = [Samples.beta; Samples.gamma; Samples.alpha].
Proof.
  apply (sortByPublishedDate_descending_stable [] Samples.alpha Samples.beta Samples.gamma);
    reflexivity.
Defined.

Example sort_keeps_ties_in_input_order :
  ArticleFilterService.sortByPublishedDate
    [Samples.alpha; Samples.beta; Samples.alpha_again; Samples.gamma]
  = [Samples.beta; Samples.alpha_again; Samples.gamma; Samples.alpha].
Proof. vm_compute. reflexivity. Qed.

(** *** Which arrays the ranking and limiting calls write *)

Lemma sorted_sort_id (l : list Article.t) :
  StronglySorted newer_first l -> JS.sort ArticleFilterService.byPublishedDate l = l.
Proof.
  induction 1 as [|x l Hs IH Hx]; simpl; [ reflexivity | ].
  rewrite IH. destruct l as [|y l]; simpl; [ reflexivity | ].
  rewrite after_byPublishedDate.
  apply Forall_cons in Hx as [Hxy _]. unfold newer_first in Hxy.
  destruct (Z.ltb_spec (Article.publishedAt x) (Article.publishedAt y));
    [ lia | reflexivity ].
Qed.





Example limit_examples :
  ArticleFilterService.limitArticles [Samples.alpha; Samples.beta; Samples.gamma] (JS.Num 2)
  = [Samples.alpha; Samples.beta]
  /\ ArticleFilterService.limitArticles [Samples.alpha] (JS.Num 5) = [Samples.alpha]
  /\ ArticleFilterService.limitArticles [Samples.alpha; Samples.beta] (JS.Num 0) = [].
Proof. repeat split. Qed.

(** *** Fetching: what a computation answers does not depend on the log *)

Lemma blind_ret {A} (a : A) : world_blind (ret a).
Proof. intros w1 w2. reflexivity. Qed.

Lemma blind_throw {A} (e : Thrown) : world_blind (@throw A e).
Proof. intros w1 w2. reflexivity. Qed.

Lemma blind_emit (e : Event) : world_blind (emit e).
Proof. intros w1 w2. reflexivity. Qed.

Lemma blind_bind {A B} (m : M A) (k : A -> M B) :
  world_blind m -> (forall a, world_blind (k a)) -> world_blind (bind m k).
Proof.
  intros Hm Hk w1 w2. unfold bind.
  specialize (Hm w1 w2).
  destruct (m w1) as [[a1|e1] w1'], (m w2) as [[a2|e2] w2']; cbn [fst] in *;
    try discriminate; inversion Hm; subst; [ apply Hk | reflexivity ].
Qed.

Lemma blind_try_catch {A} (m : M A) (handler : Thrown -> M A) :
  world_blind m -> (forall e, world_blind (handler e)) -> world_blind (try_catch m handler).
Proof.
  intros Hm Hh w1 w2. unfold try_catch.
  specialize (Hm w1 w2).
  destruct (m w1) as [[a1|e1] w1'], (m w2) as [[a2|e2] w2']; cbn [fst] in *;
    try discriminate; inversion Hm; subst; [ reflexivity | apply Hh ].
Qed.

Ltac blind :=
  repeat lazymatch goal with
    | |- world_blind (ret _) => apply blind_ret
    | |- world_blind (throw _) => apply blind_throw
    | |- world_blind (emit _) => apply blind_emit
    | |- world_blind (bind _ _) => apply blind_bind; [ | intros ? ]
    | |- world_blind (try_catch _ _) => apply blind_try_catch; [ | intros ? ]
    | |- world_blind (logger.info _) => apply blind_emit
    | |- world_blind (logger.debug _) => apply blind_emit
    | |- world_blind (logger.warn _ _) => apply blind_emit
    | |- world_blind (logger.error _ _) => apply blind_emit
    | |- world_blind (delay _) => apply blind_emit
    | |- world_blind (match ?x with _ => _ end) => destruct x
    end.

Lemma blind_parsePublishedDate env item :
  world_blind (RssFeedParser.parsePublishedDate env item).
Proof. unfold RssFeedParser.parsePublishedDate. blind. Qed.

Lemma blind_itemToArticle env item feedName :
  world_blind (RssFeedParser.itemToArticle env item feedName).
Proof.
  unfold RssFeedParser.itemToArticle.
  destruct (i_title item), (i_link item); blind.
  apply blind_parsePublishedDate.
Qed.

Lemma blind_parseItems env feed items articles :
  world_blind (RssFeedParser.parseItems env feed items articles).
Proof.
  revert articles. induction items as [|item rest IH]; intros articles; simpl.
  - blind.
  - apply blind_bind; [ | intros a; apply IH ].
    blind. apply blind_itemToArticle.
Qed.

Lemma blind_parse env feed nth_call : world_blind (RssFeedParser.parse env feed nth_call).
Proof.
  unfold RssFeedParser.parse.
  apply blind_try_catch; [ | intros e; blind ].
  apply blind_bind; [ blind | intros _ ].
  destruct (parseURL env (Feed.url feed) nth_call) as [items|e]; [ | blind ].
  destruct items as [[|item items]|]; [ blind | | blind ].
  apply blind_bind; [ apply blind_parseItems | intros articles; blind ].
Qed.

Lemma blind_fetchFeed_from env options feed remaining attempt lastError :
  world_blind (FeedClient.fetchFeed_from env options feed remaining attempt lastError).
Proof.
  revert attempt lastError.
  induction remaining as [|remaining IH]; intros attempt lastError; simpl.
  - blind.
  - apply blind_try_catch.
    + blind. apply blind_parse.
    + intros e. blind; apply IH.
Qed.

Lemma blind_fetchFeed env options feed : world_blind (FeedClient.fetchFeed env options feed).
Proof. apply blind_fetchFeed_from. Qed.

Lemma Promise_all_fulfilled {A} (results : list A) (w : World) :
  Promise_all (map Ok results) w = (Ok results, w).
Proof.
  induction results as [|r results IH]; simpl; [ reflexivity | ].
  unfold bind. now rewrite IH.
Qed.

(** The per-feed task of [fetchFeeds] never rejects: it answers what
    [fetchFeed] answers, or the empty list when [fetchFeed] throws. *)
Lemma fetch_task_contribution env options (feed : Feed.t) (w0 w : World) :
  fst (try_catch (FeedClient.fetchFeed env options feed)
         (fun error =>
            bind (logger.error ("Failed to fetch feed " +:+ Feed.name feed +:+ ":") error)
                 (fun _ => ret [])) w0)
  = Ok (match fst (FeedClient.fetchFeed env options feed w) with
        | Ok items => items
        | Throw _ => []
        end).
Proof.
  rewrite (blind_fetchFeed env options feed w w0).
  unfold try_catch.
  destruct (FeedClient.fetchFeed env options feed w0) as [[items|e] w']; reflexivity.
Qed.

(** When every request for the feed is rejected, [fetchFeed] throws. *)
Lemma fetchFeed_from_all_fail env options feed remaining attempt lastError w :
  (forall k, exists e, parseURL env (Feed.url feed) k = UrlFail e) ->
  exists e, fst (FeedClient.fetchFeed_from env options feed remaining attempt lastError w)
            = Throw e.
Proof.
  intros Hfail. revert attempt lastError w.
  induction remaining as [|remaining IH]; intros attempt lastError w; simpl.
  - eexists. reflexivity.
  - unfold try_catch at 1.
    destruct (Hfail attempt) as [e He].
    unfold bind at 1. unfold logger.info at 1, emit at 1.
    unfold RssFeedParser.parse, try_catch at 1.
    unfold bind at 1. unfold logger.info at 1, emit at 1. rewrite He.
    unfold throw at 1.
    match goal with
    | |- context [if instanceof_Error e then ?a else ?b] =>
        destruct (instanceof_Error e)
    end; unfold throw at 1;
    (unfold bind at 1; unfold logger.warn at 1, emit at 1;
     unfold bind at 1;
     match goal with
     | |- context [if ?c then delay ?d else ret tt] => destruct c
     end; [ unfold delay at 1, emit at 1 | unfold ret at 1 ]; apply IH).
Qed.

(** C7. [fetchFeeds] always fulfils: it answers the concatenation, in the
    order of the feeds, of what [fetchFeed] answers for each feed (its
    articles in parse order), where a feed whose [fetchFeed] throws, having
    exhausted its retries, counts for the empty list.  In particular a
    feed for which every request is rejected contributes nothing, and the
    call still fulfils. *)
Theorem fetchFeeds_absorbs_failures env options (feeds : list Feed.t) (w : World) :
  let contribution feed :=
    match fst (FeedClient.fetchFeed env options feed w) with
    | Ok items => items
    | Throw _ => []
    end in
  fst (FeedClient.fetchFeeds env options feeds w) = Ok (concat (map contribution feeds))
  /\ (forall feed,
        (forall k, exists e, parseURL env (Feed.url feed) k = UrlFail e) ->
        contribution feed = []).
Proof.
  cbn zeta. split.
  - unfold FeedClient.fetchFeeds.
    unfold bind at 1. unfold logger.info at 1, emit at 1.
    unfold bind at 1. unfold fork at 1.
    rewrite !map_map.
    set (w1 := {| disk := _; fs_calls := _; posts := _; trace := [] |}).
    erewrite (map_ext _ (fun feed => Ok _)).
    2:{ intros feed. apply (fetch_task_contribution env options feed w1 w). }
    rewrite <- (map_map _ Ok).
    unfold bind at 1. rewrite Promise_all_fulfilled.
    reflexivity.
  - intros feed Hfail.
    destruct (fetchFeed_from_all_fail env options feed
                (JS.iterations (FeedClient.maxRetries options)) 1 None w Hfail) as [e He].
    unfold FeedClient.fetchFeed. now rewrite He.
Qed.

Lemma fetchFeeds_absorbs_failures_witness :
  fst (FeedClient.fetchFeeds Samples.env Samples.fetch_options
         [Samples.bad_feed; Samples.good_feed] Samples.world)
  = Ok [Samples.old_news; Samples.tech_news]
  /\ match fst (FeedClient.fetchFeed Samples.env Samples.fetch_options Samples.bad_feed
                  Samples.world) with
     | Ok items => items
     | Throw _ => []
     end = [].
Proof.
  destruct (fetchFeeds_absorbs_failures Samples.env Samples.fetch_options
              [Samples.bad_feed; Samples.good_feed] Samples.world) as [Hall Hbad].
  split.
  - rewrite Hall. vm_compute. reflexivity.
  - apply Hbad. intros k. eexists. reflexivity.
Defined.

(** *** Delivery: the waits between attempts *)

(** [parseInt] reads back the decimal rendering of a natural number. *)
Lemma digit_value_pretty_char (d : N) :
  (d < 10)%N -> JS.digit_value 10 (pretty_N_char d) = Some (Z.of_N d).
Proof.
  intros Hd.
  assert (d = 0 ∨ d = 1 ∨ d = 2 ∨ d = 3 ∨ d = 4 ∨ d = 5 ∨ d = 6 ∨ d = 7 ∨ d = 8 ∨ d = 9)%N
    as Hcases by lia.
  repeat (destruct Hcases as [->|Hcases]; [ reflexivity | ]). subst. reflexivity.
Qed.

Lemma digits_pretty_go (x : N) :
  (0 < x)%N ->
  exists p : Z, forall s acc,
    JS.digits 10 (pretty_N_go x s) acc
    = JS.digits 10 s (Some (default 0 acc * p + Z.of_N x)).
Proof.
  induction (N.lt_wf_0 x) as [x _ IH]. intros Hx.
  assert (Hmod : (x `mod` 10 < 10)%N) by (apply N.mod_lt; lia).
  assert (Hdiv : Z.of_N x = Z.of_N (x `div` 10) * 10 + Z.of_N (x `mod` 10)).
  { rewrite (N.div_mod x 10) at 1 by lia. lia. }
  destruct (decide (x < 10)%N) as [Hsmall|Hbig].
  - exists 10. intros s acc. rewrite pretty_N_go_step by exact Hx.
    rewrite (N.div_small x 10), (N.mod_small x 10) by exact Hsmall.
    rewrite pretty_N_go_0. cbn [JS.digits].
    rewrite digit_value_pretty_char by exact Hsmall. reflexivity.
  - destruct (IH (x `div` 10)%N) as [p Hp].
    + apply N.div_lt; lia.
    + apply N.div_str_pos. lia.
    + exists (p * 10). intros s acc. rewrite pretty_N_go_step by exact Hx.
      rewrite Hp. cbn [JS.digits].
      rewrite digit_value_pretty_char by exact Hmod. f_equal. f_equal.
      cbn [from_option]. unfold id at 1. rewrite Hdiv. ring.
Qed.

Lemma pretty_go_first (x : N) :
  (0 < x)%N ->
  exists d, (1 <= d <= 9)%N /\ forall s, exists rest,
    pretty_N_go x s = String (pretty_N_char d) rest.
Proof.
  induction (N.lt_wf_0 x) as [x _ IH]. intros Hx.
  destruct (decide (x < 10)%N) as [Hsmall|Hbig].
  - exists x. split; [ lia | ]. intros s. eexists.
    rewrite pretty_N_go_step by exact Hx.
    rewrite (N.div_small x 10), (N.mod_small x 10) by exact Hsmall.
    apply pretty_N_go_0.
  - destruct (IH (x `div` 10)%N) as (d & Hd & Hfirst).
    + apply N.div_lt; lia.
    + apply N.div_str_pos. lia.
    + exists d. split; [ exact Hd | ]. intros s.
      rewrite pretty_N_go_step by exact Hx. apply Hfirst.
Qed.

Lemma parseInt_leading_digit (d : N) (rest : string) :
  (1 <= d <= 9)%N ->
  JS.parseInt (String (pretty_N_char d) rest)
  = match JS.digits 10 (String (pretty_N_char d) rest) None with
    | Some v => JS.Num (1 * v)
    | None => JS.NaN
    end.
Proof.
  intros Hd.
  assert (d = 1 ∨ d = 2 ∨ d = 3 ∨ d = 4 ∨ d = 5 ∨ d = 6 ∨ d = 7 ∨ d = 8 ∨ d = 9)%N
    as Hcases by lia.
  repeat (destruct Hcases as [->|Hcases]; [ reflexivity | ]). subst. reflexivity.
Qed.

Lemma parseInt_pretty (n : N) : JS.parseInt (pretty n) = JS.Num (Z.of_N n).
Proof.
  unfold pretty, pretty_N. destruct (decide (n = 0)%N) as [->|Hn]; [ reflexivity | ].
  assert (Hpos : (0 < n)%N) by lia.
  destruct (pretty_go_first n Hpos) as (d & Hd & Hfirst).
  destruct (Hfirst "") as [rest Hrest].
  destruct (digits_pretty_go n Hpos) as [p Hp].
  specialize (Hp "" None). rewrite Hrest in Hp.
  change (JS.digits 10 "" ?a) with a in Hp.
  rewrite Hrest, parseInt_leading_digit, Hp by exact Hd.
  f_equal. cbn [from_option]. unfold id. lia.
Qed.

Lemma pretty_N_truthy (n : N) : JS.truthy_string (pretty n) = true.
Proof.
  unfold pretty, pretty_N. destruct (decide (n = 0)%N) as [->|Hn]; [ reflexivity | ].
  destruct (pretty_go_first n ltac:(lia)) as (d & _ & Hfirst).
  destruct (Hfirst "") as [rest ->]. reflexivity.
Qed.

Ltac run_step :=
  cbn [DiscordNotifier.sendWithRetry_from];
  unfold try_catch, bind, logger.info, logger.warn, logger.error, logger.debug,
    emit, delay, axios_post, ret, throw;
  cbn [trace posts disk fs_calls fst snd].

Lemma iterations_bound (max : JS.number) (remaining : nat) (attempt : Z) :
  JS.iterations max = (S remaining + Z.to_nat (attempt - 1))%nat ->
  1 <= attempt ->
  JS.lt (JS.Num attempt) max = negb (Nat.eqb remaining 0)
  /\ JS.iterations max = (remaining + Z.to_nat (attempt + 1 - 1))%nat.
Proof.
  intros Hit Hat. destruct max as [z|]; cbn [JS.iterations JS.lt] in *; [ | lia ].
  split; [ | lia ].
  destruct remaining; cbn [Nat.eqb negb]; [ apply Z.ltb_ge | apply Z.ltb_lt ]; lia.
Qed.

Lemma sendWithRetry_from_waits env options message remaining attempt lastError w :
  JS.iterations (DiscordNotifier.maxRetries options)
  = (remaining + Z.to_nat (attempt - 1))%nat ->
  1 <= attempt ->
  exists new,
    trace (snd (DiscordNotifier.sendWithRetry_from env options message remaining attempt
                  lastError w)) = trace w ++ new
    /\ delays_until_post new = []
    /\ forall (k : nat) (ds : list JS.number),
         waits_after_posts new !! k = Some ds ->
         is_Some (waits_after_posts new !! S k) ->
         exists e,
           post_reply env (posts w + k) = PostFail e
           /\ ds = [match DiscordNotifier.rate_limited e with
                    | Some (Some hint) =>
                        if JS.truthy_string hint
                        then JS.mul (JS.parseInt hint) (JS.Num 1000)
                        else JS.mul (DiscordNotifier.retryDelayMs options)
                                    (JS.Num (attempt + Z.of_nat k))
                    | _ => JS.mul (DiscordNotifier.retryDelayMs options)
                                  (JS.Num (attempt + Z.of_nat k))
                    end].
Proof.
  revert attempt lastError w.
  induction remaining as [|remaining IH]; intros attempt lastError w Hit Hat.
  - exists []. run_step. rewrite app_nil_r.
    split; [ reflexivity | split; [ reflexivity | ] ].
    intros k ds Hk. cbn [waits_after_posts] in Hk. rewrite lookup_nil in Hk. discriminate.
  - destruct (iterations_bound _ _ _ Hit Hat) as [Hlt Hit'].
    run_step.
    destruct (post_reply env (posts w)) as [|e] eqn:Hreply.
    + eexists [_; _]. rewrite <- app_assoc. split; [ reflexivity | ].
      split; [ reflexivity | ].
      intros [|k] ds Hk [x Hx]; cbn in Hx; discriminate.
    + destruct (DiscordNotifier.rate_limited e) as [retryAfter|] eqn:Hrl.
      * run_step.
        match goal with
        | |- context [DiscordNotifier.sendWithRetry_from _ _ _ _ _ _ ?w3] =>
            destruct (IH (attempt + 1) (Some (as_Error e)) w3 Hit' ltac:(lia))
              as (new & Htr & Hdel & Hwaits)
        end.
        rewrite Htr. cbn [trace posts] in *.
        eexists (_ :: _ :: _ :: _ :: new).
        split; [ rewrite <- !app_assoc; reflexivity | ].
        split; [ reflexivity | ].
        intros [|k] ds Hk Hnext.
        -- cbn [waits_after_posts delays_until_post lookup list_lookup] in Hk.
           rewrite Hdel in Hk. inversion Hk; subst.
           exists e. rewrite Nat.add_0_r, Z.add_0_r, Hrl.
           split; [ exact Hreply | ].
           destruct retryAfter as [hint|]; reflexivity.
        -- cbn [waits_after_posts delays_until_post lookup list_lookup] in Hk, Hnext.
           destruct (Hwaits k ds Hk Hnext) as (e' & He' & Hds).
           exists e'. split.
           ++ rewrite <- He'. f_equal. now rewrite Nat.add_succ_r.
           ++ rewrite Hds.
              replace (attempt + Z.of_nat (S k)) with (attempt + 1 + Z.of_nat k) by lia.
              reflexivity.
      * run_step. rewrite Hlt.
        destruct remaining as [|remaining].
        -- cbn [Nat.eqb negb]. run_step.
           eexists [_; _; _]. split; [ rewrite <- !app_assoc; reflexivity | ].
           split; [ reflexivity | ].
           intros [|k] ds Hk [x Hx]; cbn in Hx; discriminate.
        -- cbn [Nat.eqb negb]. 
           match goal with
           | |- context [DiscordNotifier.sendWithRetry_from _ _ _ ?r ?a ?l] =>
               set (rec := DiscordNotifier.sendWithRetry_from env options message r a l)
           end.
           run_step.
           match goal with
           | |- context [rec ?w3] =>
               destruct (IH (attempt + 1) (Some (as_Error e)) w3 Hit' ltac:(lia))
                 as (new & Htr & Hdel & Hwaits)
           end.
           subst rec. rewrite Htr. cbn [trace posts] in *.
           eexists (_ :: _ :: _ :: _ :: new).
           split; [ rewrite <- !app_assoc; reflexivity | ].
           split; [ reflexivity | ].
           intros [|k] ds Hk Hnext.
           ++ cbn [waits_after_posts delays_until_post lookup list_lookup] in Hk.
              rewrite Hdel in Hk. inversion Hk; subst.
              exists e. rewrite Nat.add_0_r, Z.add_0_r, Hrl.
              split; [ exact Hreply | reflexivity ].
           ++ cbn [waits_after_posts delays_until_post lookup list_lookup] in Hk, Hnext.
              destruct (Hwaits k ds Hk Hnext) as (e' & He' & Hds).
              exists e'. split.
              ** rewrite <- He'. f_equal. now rewrite Nat.add_succ_r.
              ** rewrite Hds.
              replace (attempt + Z.of_nat (S k)) with (attempt + 1 + Z.of_nat k) by lia.
              reflexivity.
Qed.

(** *** Reading a [retry-after] header *)

Lemma pretty_N_go_append (x : N) :
  forall s rest, pretty_N_go x s +:+ rest = pretty_N_go x (s +:+ rest).
Proof.
  induction (N.lt_wf_0 x) as [x _ IH]. intros s rest.
  destruct (decide (x = 0)%N) as [->|Hx].
  - now rewrite !pretty_N_go_0.
  - rewrite (pretty_N_go_step x s), (pretty_N_go_step x (s +:+ rest)) by lia.
    rewrite IH by (apply N.div_lt; lia). reflexivity.
Qed.

Lemma digits_stop (rest : string) (v : Z) :
  numeral_ends rest = true -> JS.digits 10 rest (Some v) = Some v.
Proof.
  destruct rest as [|c rest]; [ reflexivity | ].
  cbn [numeral_ends JS.digits]. now destruct (JS.digit_value 10 c).
Qed.

Lemma parseInt_zero (rest : string) :
  numeral_ends rest = true -> JS.parseInt (String "0" rest) = JS.Num 0.
Proof.
  destruct rest as [|c rest]; [ reflexivity | ].
  destruct c as [[|] [|] [|] [|] [|] [|] [|] [|]];
    (discriminate || (intros _; reflexivity)).
Qed.

(** [parseInt] reads the numeral a string begins with and ignores what
    follows it. *)
Lemma parseInt_numeral (n : N) (rest : string) :
  numeral_ends rest = true ->
  JS.parseInt (pretty n +:+ rest) = JS.Num (Z.of_N n)
  /\ JS.truthy_string (pretty n +:+ rest) = true.
Proof.
  intros Hends. unfold pretty, pretty_N.
  destruct (decide (n = 0)%N) as [->|Hn].
  - split; [ now apply parseInt_zero | reflexivity ].
  - assert (Hpos : (0 < n)%N) by lia.
    rewrite pretty_N_go_append. change ("" +:+ rest) with rest.
    destruct (pretty_go_first n Hpos) as (d & Hd & Hfirst).
    destruct (Hfirst rest) as [tail Htail].
    destruct (digits_pretty_go n Hpos) as [p Hp].
    specialize (Hp rest None). rewrite Htail in Hp.
    rewrite digits_stop in Hp by exact Hends.
    rewrite Htail. split; [ | reflexivity ].
    rewrite parseInt_leading_digit, Hp by exact Hd.
    f_equal. cbn [from_option]. unfold id. lia.
Qed.

(** A string that begins with a letter has no numeral to read. *)
Lemma parseInt_letter (c : ascii) (rest : string) :
  is_letter c = true -> JS.parseInt (String c rest) = JS.NaN.
Proof.
  destruct c as [[|] [|] [|] [|] [|] [|] [|] [|]];
    (discriminate || (intros _; reflexivity)).
Qed.

(** C6, amended.  In a run of [sendWithRetry], consider an attempt that is
    followed by another attempt.  That attempt failed, and exactly one wait
    separates it from the next attempt.  After a 429 response whose
    [retry-after] header begins with the decimal numeral of a natural
    number and goes on with neither a further digit nor an x, the wait
    lasts that many seconds, whatever else follows the numeral and
    whatever the backoff would have been (for a number of milliseconds
    within the integers a double holds exactly); after a 429 response
    whose header
    begins with a letter, as an HTTP date does, the wait is NaN ms; after
    a 429 response without the header or with an empty one, and after any
    failure that is not a 429 response, the wait lasts the attempt number
    (from 1) times [retryDelayMs]. *)
Theorem sendWithRetry_waits env options message (w : World) (k : nat)
    (ds : list JS.number) :
  let new := events_of (DiscordNotifier.sendWithRetry env options message) w in
  waits_after_posts new !! k = Some ds ->
  is_Some (waits_after_posts new !! S k) ->
  exists failure,
    post_reply env (posts w + k) = PostFail failure
    /\ length ds = 1%nat
    /\ (forall (seconds : N) (rest : string),
          DiscordNotifier.rate_limited failure = Some (Some (pretty seconds +:+ rest)) ->
          numeral_ends rest = true ->
          Z.of_N seconds * 1000 <= 2 ^ 53 ->
          ds = [JS.Num (Z.of_N seconds * 1000)])
    /\ (forall (c : ascii) (rest : string),
          DiscordNotifier.rate_limited failure = Some (Some (String c rest)) ->
          is_letter c = true ->
          ds = [JS.NaN])
    /\ (DiscordNotifier.rate_limited failure = Some None
        \/ DiscordNotifier.rate_limited failure = Some (Some "")
        \/ DiscordNotifier.rate_limited failure = None ->
        ds = [JS.mul (DiscordNotifier.retryDelayMs options) (JS.Num (Z.of_nat k + 1))]).
Proof.
  cbn zeta. unfold events_of, DiscordNotifier.sendWithRetry.
  destruct (sendWithRetry_from_waits env options message
              (JS.iterations (DiscordNotifier.maxRetries options)) 1 None w)
    as (new & Htr & _ & Hwaits); [ cbn; lia | lia | ].
  rewrite Htr, drop_app_length.
  intros Hk Hnext. destruct (Hwaits k ds Hk Hnext) as (e & He & Hds).
  exists e. split; [ exact He | ].
  replace (1 + Z.of_nat k) with (Z.of_nat k + 1) in Hds by lia.
  split; [ now rewrite Hds | ].
  split; [ | split ].
  - intros seconds rest Hrl Hends _.
    destruct (parseInt_numeral seconds rest Hends) as [Hparse Htruthy].
    now rewrite Hds, Hrl, Htruthy, Hparse.
  - intros c rest Hrl Hletter.
    rewrite Hds, Hrl. cbn [JS.truthy_string].
    now rewrite (parseInt_letter c rest Hletter).
  - intros [Hrl|[Hrl|Hrl]]; now rewrite Hds, Hrl.
Qed.

Lemma sendWithRetry_waits_witness :
  exists failure,
    post_reply Samples.env (posts Samples.world + 0) = PostFail failure
    /\ length [JS.Num 2000] = 1%nat
    /\ (forall (seconds : N) (rest : string),
          DiscordNotifier.rate_limited failure = Some (Some (pretty seconds +:+ rest)) ->
          numeral_ends rest = true ->
          Z.of_N seconds * 1000 <= 2 ^ 53 ->
          [JS.Num 2000] = [JS.Num (Z.of_N seconds * 1000)])
    /\ (forall (c : ascii) (rest : string),
          DiscordNotifier.rate_limited failure = Some (Some (String c rest)) ->
          is_letter c = true ->
          [JS.Num 2000] = [JS.NaN])
    /\ (DiscordNotifier.rate_limited failure = Some None
        \/ DiscordNotifier.rate_limited failure = Some (Some "")
        \/ DiscordNotifier.rate_limited failure = None ->
        [JS.Num 2000]
        = [JS.mul (DiscordNotifier.retryDelayMs Samples.notify_options)
                  (JS.Num (Z.of_nat 0 + 1))]).
Proof.
  apply (sendWithRetry_waits Samples.env Samples.notify_options
           (NoArticlesMessage ["tech"]) Samples.world 0 [JS.Num 2000]).
  - vm_compute. reflexivity.
  - vm_compute. eexists. reflexivity.
Defined.

(** The hints of the counterexample, read by the amended claim: the
    numeral 1 followed by [.5], and a header that begins with a letter. *)
Example retry_after_examples :
  JS.parseInt "2" = JS.Num 2
  /\ JS.parseInt ("1" +:+ ".5") = JS.Num 1
  /\ numeral_ends ".5" = true
  /\ JS.parseInt "Wed, 21 Oct 2015 07:28:00 GMT" = JS.NaN.
Proof. vm_compute. repeat split. Qed.

(** C6, as stated, fails for a hint that is not a whole number of seconds:
    the code waits [parseInt(hint) * 1000] ms, so after a hint of 1.5
    seconds it waits 1000 ms, and after a hint that is an HTTP date it
    waits NaN ms. *)
Lemma retry_after_is_read_by_parseInt :
  let waits hint :=
    waits_after_posts
      (events_of (DiscordNotifier.sendWithRetry (MoreSamples.env_hint hint)
                    Samples.notify_options (NoArticlesMessage ["tech"]))
                 Samples.world) in
  waits "1.5" = [[JS.Num 1000]; []]
  /\ JS.Num 1000 <> JS.Num 1500
  /\ waits "Wed, 21 Oct 2015 07:28:00 GMT" = [[JS.NaN]; []].
Proof. vm_compute. repeat split. discriminate. Qed.

(** The retry example of the specification: two 429 answers hinting two
    seconds, then success.  Three attempts, a wait of 2000 ms before the
    second and before the third, and the call fulfils. *)
Example sendWithRetry_rate_limited_twice :
  let run := DiscordNotifier.sendWithRetry Samples.env Samples.notify_options
               (NoArticlesMessage ["tech"]) Samples.world in
  fst run = Ok tt
  /\ posts (snd run) = 3%nat
  /\ waits_after_posts (trace (snd run)) = [[JS.Num 2000]; [JS.Num 2000]; []].
Proof. vm_compute. repeat split. Qed.

(** Failures that are not rate limits back off linearly. *)
Example sendWithRetry_linear_backoff :
  let env := {| parseURL := parseURL Samples.env; parseDate := parseDate Samples.env;
                now := now Samples.env;
                daysBefore := daysBefore Samples.env;
                post_reply := fun n =>
                  if Nat.ltb n 2
                  then PostFail (ErrorObj (AxiosError (Some (500, None)))
                                          "Request failed with status code 500")
                  else PostOk;
                fs_fault := fs_fault Samples.env |} in
  let run := DiscordNotifier.sendWithRetry env Samples.notify_options
               (NoArticlesMessage ["tech"]) Samples.world in
  fst run = Ok tt
  /\ waits_after_posts (trace (snd run)) = [[JS.Num 1000]; [JS.Num 2000]; []].
Proof. vm_compute. repeat split. Qed.

(** *** Storage *)

Ltac sim :=
  cbn [trace posts disk fs_calls fst snd negb instanceof_Error instanceof_StorageError].

Ltac unfold_effects :=
  unfold try_catch, bind, fs_access, fs_readFile, fs_mkdir, fs_writeFile, fs_call,
    logger.info, logger.warn, logger.error, logger.debug, emit, delay, ret, throw;
  sim.

Lemma loadArticles_disk env path w :
  disk (snd (ArticleStorage.loadArticles env path w)) = disk w.
Proof.
  unfold ArticleStorage.loadArticles. unfold_effects.
  destruct (fs_fault env (fs_calls w)); [ reflexivity | ].
  destruct (disk w) as [c|] eqn:Hd; sim; [ | reflexivity ].
  destruct (fs_fault env (S (fs_calls w))); sim.
  - destruct (instanceof_Error t); sim; reflexivity.
  - destruct c; sim; reflexivity.
Qed.

Lemma loadArticles_stored env path w (existing : list Article.t) :
  fs_fault env (fs_calls w) = None ->
  fst (ArticleStorage.loadArticles env path w) = Ok existing ->
  existing = stored w.
Proof.
  intros Hok. unfold ArticleStorage.loadArticles, stored. unfold_effects.
  rewrite Hok.
  destruct (disk w) as [c|] eqn:Hd; sim; [ | now intros [= <-] ].
  destruct (fs_fault env (S (fs_calls w))); sim.
  - destruct (instanceof_Error t); discriminate.
  - destruct c; sim; try discriminate; now intros [= <-].
Qed.

Lemma saveArticles_disk env path (articles : list Article.t) w :
  let run := ArticleStorage.saveArticles env path articles w in
  match fst run with
  | Ok _ => disk (snd run) = Some (ArticlesJson (map Article.toPlainObject articles))
  | Throw _ => disk (snd run) = disk w
  end.
Proof.
  unfold ArticleStorage.saveArticles. unfold_effects.
  destruct (fs_fault env (fs_calls w)); sim.
  - destruct (instanceof_Error t); reflexivity.
  - destruct (fs_fault env (S (fs_calls w))); sim.
    + destruct (instanceof_Error t); reflexivity.
    + reflexivity.
Qed.

Lemma loadArticles_result env path w (existing : list Article.t) :
  fst (ArticleStorage.loadArticles env path w) = Ok existing ->
  existing = stored w \/ existing = [].
Proof.
  unfold ArticleStorage.loadArticles, stored. unfold_effects.
  destruct (fs_fault env (fs_calls w)); sim; [ intros [= <-]; now right | ].
  destruct (disk w) as [c|] eqn:Hd; sim; [ | intros [= <-]; now right ].
  destruct (fs_fault env (S (fs_calls w))); sim.
  - destruct (instanceof_Error t); discriminate.
  - destruct c; sim; try discriminate; intros [= <-]; auto.
Qed.

(** The three ways [appendArticles] can end: it throws and the file is as
    before; there is nothing to add and the file is not written; or the
    articles to add are written after the existing ones. *)
Lemma appendArticles_cases env path (newArticles : list Article.t) w r w' :
  ArticleStorage.appendArticles env path newArticles w = (r, w') ->
  let to_add (existing : list Article.t) :=
    List.filter
      (fun article =>
         negb (bool_decide (Article.id article
                            ∈ (list_to_set (map Article.id existing) : gset string))))
      newArticles in
  (exists e, r = Throw e /\ disk w' = disk w)
  \/ (exists existing,
        fst (ArticleStorage.loadArticles env path w) = Ok existing
        /\ to_add existing = [] /\ r = Ok tt /\ disk w' = disk w)
  \/ (exists existing,
        fst (ArticleStorage.loadArticles env path w) = Ok existing
        /\ to_add existing <> [] /\ r = Ok tt
        /\ disk w' = Some (ArticlesJson
                             (map Article.toPlainObject (existing ++ to_add existing)))).
Proof.
  cbn zeta. unfold ArticleStorage.appendArticles.
  unfold try_catch at 1. unfold bind at 1.
  pose proof (loadArticles_disk env path w) as Hload.
  destruct (ArticleStorage.loadArticles env path w) as [[existing|e] w1] eqn:Hrun;
    cbn [fst snd] in *.
  - set (toAdd := List.filter _ newArticles).
    destruct (Nat.eqb (length toAdd) 0) eqn:Hlen.
    + unfold_effects. intros [= <- <-]. right. left. exists existing. sim.
      repeat split; [ | exact Hload ].
      apply Nat.eqb_eq in Hlen. now apply nil_length_inv.
    + unfold bind at 1.
      pose proof (saveArticles_disk env path (existing ++ toAdd) w1) as Hsave.
      cbn zeta in Hsave.
      destruct (ArticleStorage.saveArticles env path (existing ++ toAdd) w1)
        as [[[]|e] w2]; cbn [fst snd] in *.
      * unfold_effects. intros [= <- <-]. right. right. exists existing. sim.
        repeat split; [ | exact Hsave ].
        intros Hnil. fold toAdd in Hnil. rewrite Hnil in Hlen. discriminate.
      * destruct (instanceof_StorageError e); [ | destruct (instanceof_Error e) ];
          unfold_effects; intros [= <- <-]; left; eexists; split; try reflexivity;
          congruence.
  - destruct (instanceof_StorageError e); [ | destruct (instanceof_Error e) ];
      unfold_effects; intros [= <- <-]; left; eexists; split; try reflexivity;
      exact Hload.
Qed.

Lemma not_unread_elem (seen : list string) (a : Article.t) :
  negb (bool_decide (Article.id a ∈ (list_to_set seen : gset string))) = false
  <-> Article.id a ∈ seen.
Proof.
  rewrite negb_false_iff, bool_decide_eq_true, elem_of_list_to_set. reflexivity.
Qed.

Lemma filter_bool_nil_iff {A} (p : A -> bool) (l : list A) :
  List.filter p l = [] <-> forall x, x ∈ l -> p x = false.
Proof.
  induction l as [|y l IH]; simpl.
  - split; [ intros _ x Hx; inversion Hx | reflexivity ].
  - destruct (p y) eqn:E.
    + split; [ discriminate | ]. intros H. rewrite (H y) in E by left. discriminate.
    + rewrite IH. split.
      * intros H x Hx. apply elem_of_cons in Hx as [->|Hx]; [ exact E | now apply H ].
      * intros H x Hx. apply H. now right.
Qed.

Lemma stored_of_disk (w w' : World) : disk w' = disk w -> stored w' = stored w.
Proof. unfold stored. now intros ->. Qed.

Lemma ids_of_written (l : list Article.t) :
  map Article.id (map Article.fromPlainObject (map Article.toPlainObject l))
  = map Article.id l.
Proof. rewrite !map_map. reflexivity. Qed.

(** Appending articles that are all on file does not write the file. *)
Lemma appendArticles_all_present env path (batch : list Article.t) (w : World) :
  fs_fault env (fs_calls w) = None ->
  (forall a, a ∈ batch -> Article.id a ∈ map Article.id (stored w)) ->
  disk (snd (ArticleStorage.appendArticles env path batch w)) = disk w.
Proof.
  intros Hok Hin.
  destruct (ArticleStorage.appendArticles env path batch w) as [r w'] eqn:E.
  cbn [snd].
  destruct (appendArticles_cases _ _ _ _ _ _ E)
    as [(e & _ & H)|[(existing & _ & _ & _ & H)|(existing & Hl & Hne & _)]];
    [ exact H | exact H | ].
  apply (loadArticles_stored env path w existing Hok) in Hl. subst existing.
  exfalso. apply Hne. apply filter_bool_nil_iff.
  intros a Ha. apply not_unread_elem. now apply Hin.
Qed.

(** After a successful append every article of the batch is on file. *)
Lemma appendArticles_then_present env path (batch : list Article.t) (w : World) :
  fst (ArticleStorage.appendArticles env path batch w) = Ok tt ->
  forall a, a ∈ batch ->
    Article.id a
    ∈ map Article.id (stored (snd (ArticleStorage.appendArticles env path batch w))).
Proof.
  destruct (ArticleStorage.appendArticles env path batch w) as [r w'] eqn:E.
  cbn [fst snd]. intros -> a Ha.
  destruct (appendArticles_cases _ _ _ _ _ _ E)
    as [(e & He & _)|[(existing & Hl & Hnil & _ & Hd)|(existing & Hl & _ & _ & Hd)]];
    [ discriminate | | ].
  - rewrite (stored_of_disk _ _ Hd).
    pose proof (proj1 (filter_bool_nil_iff _ batch) Hnil a Ha) as Hseen.
    apply not_unread_elem in Hseen.
    destruct (loadArticles_result env path w existing Hl) as [->| ->];
      [ exact Hseen | inversion Hseen ].
  - unfold stored. rewrite Hd, ids_of_written, map_app, elem_of_app.
    destruct (decide (Article.id a ∈ map Article.id existing)) as [Hin|Hout];
      [ now left | right ].
    apply list_elem_of_fmap_2. apply filter_bool_elem_of. split; [ exact Ha | ].
    apply negb_true_iff, bool_decide_eq_false. now rewrite elem_of_list_to_set.
Qed.

(** C8, as stated, fails when the file system rejects the existence check
    that opens an append: the check is read as an absent file, so the
    second append of a batch whose ids are all on file writes the batch
    alone and the record that was on file before is lost. *)
Lemma rejected_check_breaks_idempotence :
  let env := MoreSamples.env_second_check_denied in
  let once := ArticleStorage.appendArticles env Samples.storagePath
                [Samples.tech_news] Samples.world in
  let twice := ArticleStorage.appendArticles env Samples.storagePath
                 [Samples.tech_news] (snd once) in
  fst once = Ok tt
  /\ stored (snd once) = [Samples.old_news; Samples.tech_news]
  /\ fst twice = Ok tt
  /\ stored (snd twice) = [Samples.tech_news]
  /\ stored (snd twice) <> stored (snd once).
Proof. vm_compute. repeat split. discriminate. Qed.

(** C8, amended.  Provided the file system does not reject the existence
    check that opens the append, [appendArticles] is idempotent under
    article id.  When the ids of the articles to append are all on file,
    the file is not written and the stored collection stays as it is, so
    no duplicate record appears; and once a batch has been appended,
    appending it again leaves the stored collection as the first append
    left it. *)
Theorem appendArticles_idempotent env path (batch : list Article.t) (w : World) :
  let once := ArticleStorage.appendArticles env path batch w in
  let twice := ArticleStorage.appendArticles env path batch (snd once) in
  (fs_fault env (fs_calls w) = None ->
   (forall a, a ∈ batch -> Article.id a ∈ map Article.id (stored w)) ->
   disk (snd once) = disk w /\ stored (snd once) = stored w)
  /\ (fst once = Ok tt ->
      fs_fault env (fs_calls (snd once)) = None ->
      disk (snd twice) = disk (snd once) /\ stored (snd twice) = stored (snd once)).
Proof.
  cbn zeta. split.
  - intros Hok Hin.
    pose proof (appendArticles_all_present env path batch w Hok Hin) as H.
    split; [ exact H | now apply stored_of_disk ].
  - intros Hfirst Hok.
    pose proof (appendArticles_all_present env path batch _ Hok
                  (appendArticles_then_present env path batch w Hfirst)) as H.
    split; [ exact H | now apply stored_of_disk ].
Qed.

Lemma appendArticles_idempotent_witness :
  (disk (snd (ArticleStorage.appendArticles Samples.env Samples.storagePath
                [Samples.old_news] Samples.world)) = disk Samples.world
   /\ stored (snd (ArticleStorage.appendArticles Samples.env Samples.storagePath
                     [Samples.old_news] Samples.world)) = stored Samples.world)
  /\ (let once := ArticleStorage.appendArticles Samples.env Samples.storagePath
                    [Samples.tech_news] Samples.world in
      let twice := ArticleStorage.appendArticles Samples.env Samples.storagePath
                     [Samples.tech_news] (snd once) in
      disk (snd twice) = disk (snd once) /\ stored (snd twice) = stored (snd once)).
Proof.
  split.
  - refine (proj1 (appendArticles_idempotent Samples.env Samples.storagePath
                     [Samples.old_news] Samples.world) _ _).
    + reflexivity.
    + intros a Ha. apply list_elem_of_singleton in Ha. subst a.
      apply list_elem_of_here.
  - refine (proj2 (appendArticles_idempotent Samples.env Samples.storagePath
                     [Samples.tech_news] Samples.world) _ _).
    + vm_compute. reflexivity.
    + reflexivity.
Defined.

(** Appending a new article adds one record; appending it again adds none. *)
Example append_then_append_again :
  let once := ArticleStorage.appendArticles Samples.env Samples.storagePath
                [Samples.tech_news] Samples.world in
  let twice := ArticleStorage.appendArticles Samples.env Samples.storagePath
                 [Samples.tech_news] (snd once) in
  stored (snd once) = [Samples.old_news; Samples.tech_news]
  /\ stored (snd twice) = [Samples.old_news; Samples.tech_news].
Proof. vm_compute. repeat split. Qed.

(** The filter of [appendArticles] compares the batch with the file only:
    an article that is new and occurs twice in one batch is written twice. *)
Example append_repeated_in_one_batch :
  stored (snd (ArticleStorage.appendArticles Samples.env Samples.storagePath
                 [Samples.beta; Samples.beta] Samples.fresh_world))
  = [Samples.beta; Samples.beta].
Proof. vm_compute. reflexivity. Qed.

(** *** The notification use case *)

Lemma run_bind {A B} (m : M A) (k : A -> M B) (w : World) :
  bind m k w = match m w with
               | (Ok a, w') => k a w'
               | (Throw e, w') => (Throw e, w')
               end.
Proof. reflexivity. Qed.

Lemma run_try_catch {A} (m : M A) (handler : Thrown -> M A) (w : World) :
  try_catch m handler w = match m w with
                          | (Ok a, w') => (Ok a, w')
                          | (Throw e, w') => handler e w'
                          end.
Proof. reflexivity. Qed.

Lemma run_bind_info {A} (message : string) (k : unit -> M A) (w : World) :
  bind (logger.info message) k w = k tt (snd (logger.info message w)).
Proof. reflexivity. Qed.

Lemma sendWithRetry_extends env options message remaining attempt lastError :
  extends_trace (DiscordNotifier.sendWithRetry_from env options message remaining attempt
                   lastError).
Proof.
  revert attempt lastError.
  induction remaining as [|remaining IH]; intros attempt lastError w.
  - exists []. cbn. now rewrite app_nil_r.
  - cbn [DiscordNotifier.sendWithRetry_from].
    rewrite run_try_catch, run_bind_info. unfold axios_post.
    cbn [trace posts disk fs_calls snd logger.info emit].
    destruct (post_reply env (posts w)) as [|e].
    + eexists. cbn [snd trace]. rewrite <- app_assoc. reflexivity.
    + destruct (DiscordNotifier.rate_limited e) as [retryAfter|].
      * unfold bind, logger.warn, delay, emit. cbn [trace posts disk fs_calls snd].
        match goal with
        | |- context [DiscordNotifier.sendWithRetry_from _ _ _ _ _ _ ?w3] =>
            destruct (IH (attempt + 1) (Some (as_Error e)) w3) as [new Hnew]
        end.
        rewrite Hnew. cbn [trace]. eexists. rewrite <- !app_assoc. reflexivity.
      * destruct (JS.lt (JS.Num attempt) (DiscordNotifier.maxRetries options));
          unfold bind, logger.warn, delay, emit, ret; cbn [trace posts disk fs_calls snd];
          match goal with
          | |- context [DiscordNotifier.sendWithRetry_from _ _ _ _ _ _ ?w3] =>
              destruct (IH (attempt + 1) (Some (as_Error e)) w3) as [new Hnew]
          end;
          rewrite Hnew; cbn [trace]; eexists; rewrite <- !app_assoc; reflexivity.
Qed.

Lemma notifyError_extends env options error :
  extends_trace (DiscordNotifier.notifyError env options error).
Proof.
  intros w. unfold DiscordNotifier.notifyError, DiscordNotifier.sendWithRetry.
  rewrite run_try_catch, run_bind.
  destruct (sendWithRetry_extends env options (MessageFormatter.formatError error)
              (JS.iterations (DiscordNotifier.maxRetries options)) 1 None w) as [new Hnew].
  destruct (DiscordNotifier.sendWithRetry_from _ _ _ _ _ _ w) as [[[]|e] w1];
    cbn [snd] in Hnew; unfold logger.info, logger.error, emit; cbn [snd trace];
    rewrite Hnew; eexists; rewrite <- app_assoc; reflexivity.
Qed.

Lemma run_pair {A} (X : Outcome A * World) (r : Outcome A) (P : World -> Prop) :
  (exists w', X = (r, w') /\ P w') -> fst X = r /\ P (snd X).
Proof. intros (w' & -> & HP). split; [ reflexivity | exact HP ]. Qed.

Lemma notifyError_fulfils env options error (w : World) :
  fst (DiscordNotifier.notifyError env options error w) = Ok tt.
Proof.
  unfold DiscordNotifier.notifyError. rewrite run_try_catch, run_bind.
  destruct (DiscordNotifier.sendWithRetry _ _ _ w) as [[[]|e] w1]; reflexivity.
Qed.


(** The pruning failure of the sample run is logged as a warning. *)
Example prune_failure_is_logged :
  let run := NotifyArticlesUseCase.execute Samples.env_prune_fails Samples.notify_options
               (FileArticleRepository.new Samples.env_prune_fails Samples.storagePath)
               (JS.Num 30) Samples.notify_input Samples.world in
  Log LWarn "Failed to cleanup old articles (non-critical):"
      (Some (ErrorObj StorageError
               "Failed to load articles from storage: EIO: i/o error"))
  ∈ trace (snd run)
  /\ stored (snd run) = [Samples.old_news; Samples.tech_news].
Proof.
  split; [ | vm_compute; reflexivity ].
  apply list_elem_of_In. vm_compute. tauto.
Qed.

(** *** The fetch use case *)

(** What [FetchArticlesUseCase.execute] answers when it fulfils: the new
    articles, newest first, cut to [maxArticles] when that is truthy. *)
(** *** What a fetch answers *)

(** [fetchFeeds] answers what the feeds contribute, in their order. *)
Lemma fetchFeeds_answers env options (feeds : list Feed.t) (w w0 : World) :
  exists new,
    FeedClient.fetchFeeds env options feeds w
    = (Ok (concat (map (fun feed =>
                          match fst (FeedClient.fetchFeed env options feed w0) with
                          | Ok items => items
                          | Throw _ => []
                          end) feeds)),
       with_events w new).
Proof.
  unfold FeedClient.fetchFeeds.
  unfold bind at 1. unfold logger.info at 1, emit at 1.
  unfold bind at 1. unfold fork at 1.
  rewrite !map_map.
  set (w1 := {| disk := _; fs_calls := _; posts := _; trace := [] |}).
  erewrite (map_ext _ (fun feed => Ok _)).
  2:{ intros feed. apply (fetch_task_contribution env options feed w1 w0). }
  rewrite <- (map_map _ Ok).
  unfold bind at 1. rewrite Promise_all_fulfilled.
  unfold bind, logger.info, emit, ret, with_events. cbn [trace posts disk fs_calls].
  eexists (_ :: _ :: _ :: nil). rewrite <- !app_assoc. reflexivity.
Qed.

Lemma fetchArticlesFromFeeds_answers env options (feeds : list Feed.t) (w w0 : World) :
  exists new,
    FetchArticlesUseCase.fetchArticlesFromFeeds env options feeds w
    = (Ok (concat (map (fun feed =>
                          match fst (FeedClient.fetchFeed env options feed w0) with
                          | Ok items => items
                          | Throw _ => []
                          end) (List.filter Feed.isEnabled feeds))),
       with_events w new).
Proof.
  unfold FetchArticlesUseCase.fetchArticlesFromFeeds, FeedClient.fetchEnabledFeeds.
  rewrite run_bind_info.
  destruct (List.filter Feed.isEnabled feeds) as [|feed enabled] eqn:Henabled;
    cbn [length Nat.eqb].
  - unfold bind, logger.warn, logger.info, emit, ret, with_events.
    cbn [trace posts disk fs_calls snd map concat]. eexists (_ :: _ :: nil).
    rewrite <- !app_assoc. reflexivity.
  - rewrite run_bind_info.
    match goal with
    | |- context [FeedClient.fetchFeeds env options ?fs ?w1] =>
        destruct (fetchFeeds_answers env options fs w1 w0) as (new & ->)
    end.
    unfold logger.info, emit, with_events. cbn [trace posts disk fs_calls snd].
    eexists (_ :: _ :: new). rewrite <- !app_assoc. reflexivity.
Qed.

Lemma filterByKeywords_answers (articles : list Article.t) (keywords : list string)
    (w : World) :
  exists new,
    FetchArticlesUseCase.filterByKeywords articles keywords w
    = (Ok (match keywords with
           | [] => articles
           | _ :: _ =>
               ArticleFilterService.filterArticles articles
                 (ArticleFilter.Build keywords
                    (ArticleFilter.Options ArticleFilter.OR false true true
                                           (Some false)))
           end),
       with_events w new).
Proof.
  unfold FetchArticlesUseCase.filterByKeywords.
  destruct keywords as [|k keywords]; cbn [length Nat.eqb].
  - unfold bind, logger.info, emit, ret, with_events. cbn [trace posts disk fs_calls].
    eexists [_]. reflexivity.
  - unfold ArticleFilter.new. cbn [length Nat.eqb]. unfold ret.
    exists []. unfold with_events. rewrite app_nil_r. now destruct w.
Qed.

(** C10.  In [FetchArticlesUseCase.execute] the cap applies only when
    [maxArticles] is truthy.  When it is undefined or 0 (or NaN) and the
    use case fulfils, nothing is cut: with [fetched] what the enabled feeds
    contribute, [filtered] what passes the keywords, and [news] the
    filtered articles whose id the repository does not report as read, the
    answer holds all of [news], newest first, as many as [newArticles]
    counts, so it is empty only if there is no new article; the other
    counts are those of [fetched] and [filtered]. *)
Theorem falsy_maxArticles_means_no_cap env feedClient (repo : IArticleRepository)
    (input : FetchArticlesUseCase.FetchArticlesInput) (w : World)
    (out : FetchArticlesUseCase.FetchArticlesOutput) :
  let fetched :=
    concat (map (fun feed =>
                   match fst (FeedClient.fetchFeed env feedClient feed w) with
                   | Ok items => items
                   | Throw _ => []
                   end)
                (List.filter Feed.isEnabled (FetchArticlesUseCase.feeds input))) in
  let filtered :=
    match FetchArticlesUseCase.keywords input with
    | [] => fetched
    | _ :: _ =>
        ArticleFilterService.filterArticles fetched
          (ArticleFilter.Build (FetchArticlesUseCase.keywords input)
             (ArticleFilter.Options ArticleFilter.OR false true true (Some false)))
    end in
  match FetchArticlesUseCase.maxArticles input with
  | Some maxCount => JS.truthy maxCount = false
  | None => True
  end ->
  fst (FetchArticlesUseCase.execute env feedClient repo input w) = Ok out ->
  exists (ids : list string) (w' : World),
    disk w' = disk w /\ fs_calls w' = fs_calls w /\ posts w' = posts w
    /\ fst (findReadArticleIds repo w') = Ok ids
    /\ let news :=
         ArticleFilterService.excludeReadArticles filtered (list_to_set ids) in
       FetchArticlesUseCase.articles out
       = ArticleDTO.fromDomainList (ArticleFilterService.sortByPublishedDate news)
       /\ FetchArticlesUseCase.newArticles out = length news
       /\ length (FetchArticlesUseCase.articles out) = length news
       /\ FetchArticlesUseCase.totalFetched out = length fetched
       /\ FetchArticlesUseCase.totalFiltered out = length filtered.
Proof.
  cbn zeta. intros Hfalsy. unfold FetchArticlesUseCase.execute.
  rewrite run_bind_info, run_bind.
  match goal with
  | |- context [FetchArticlesUseCase.fetchArticlesFromFeeds env feedClient ?fs ?w1] =>
      destruct (fetchArticlesFromFeeds_answers env feedClient fs w1 w) as (new1 & ->)
  end.
  rewrite run_bind_info, run_bind.
  match goal with
  | |- context [FetchArticlesUseCase.filterByKeywords ?fetched ?ks ?w1] =>
      destruct (filterByKeywords_answers fetched ks w1) as (new2 & ->)
  end.
  set (fetched := concat _).
  set (filtered := match FetchArticlesUseCase.keywords input with
                   | [] => fetched
                   | _ :: _ => _
                   end).
  rewrite run_bind_info. unfold FetchArticlesUseCase.excludeReadArticles.
  rewrite !run_bind.
  match goal with
  | |- context [findReadArticleIds repo ?w1] =>
      assert (Hw : disk w1 = disk w /\ fs_calls w1 = fs_calls w /\ posts w1 = posts w)
        by (repeat split);
      set (w2 := w1) in *; clearbody w2
  end.
  destruct (findReadArticleIds repo w2) as [[ids|e] w3] eqn:Hids; [ | discriminate ].
  rewrite !run_bind_info. unfold ret. cbn [fst]. intros [= <-].
  exists ids, w2. destruct Hw as (Hd & Hf & Hp).
  rewrite Hids. cbn [fst].
  split; [ exact Hd | split; [ exact Hf | split; [ exact Hp | split; [ reflexivity | ] ] ] ].
  cbn [FetchArticlesUseCase.articles FetchArticlesUseCase.newArticles
       FetchArticlesUseCase.totalFetched FetchArticlesUseCase.totalFiltered].
  assert (Hall : match FetchArticlesUseCase.maxArticles input with
                 | Some maxCount =>
                     if JS.truthy maxCount
                     then ArticleFilterService.limitArticles
                            (ArticleFilterService.sortByPublishedDate
                               (ArticleFilterService.excludeReadArticles filtered
                                  (list_to_set ids))) maxCount
                     else ArticleFilterService.sortByPublishedDate
                            (ArticleFilterService.excludeReadArticles filtered
                               (list_to_set ids))
                 | None => ArticleFilterService.sortByPublishedDate
                             (ArticleFilterService.excludeReadArticles filtered
                                (list_to_set ids))
                 end
                 = ArticleFilterService.sortByPublishedDate
                     (ArticleFilterService.excludeReadArticles filtered
                        (list_to_set ids))).
  { destruct (FetchArticlesUseCase.maxArticles input) as [maxCount|]; [ | reflexivity ].
    now rewrite Hfalsy. }
  rewrite Hall. split; [ reflexivity | split; [ reflexivity | ] ].
  split; [ | split; reflexivity ].
  unfold ArticleDTO.fromDomainList. rewrite length_map.
  symmetry. apply Permutation_length, sort_perm.
Qed.

Lemma falsy_maxArticles_means_no_cap_witness :
  exists (ids : list string) (w' : World),
    disk w' = disk Samples.fresh_world
    /\ fs_calls w' = fs_calls Samples.fresh_world
    /\ posts w' = posts Samples.fresh_world
    /\ fst (findReadArticleIds
              (FileArticleRepository.new Samples.env Samples.storagePath) w') = Ok ids
    /\ let news :=
         ArticleFilterService.excludeReadArticles
           [Samples.old_news; Samples.tech_news] (list_to_set ids) in
       ArticleDTO.fromDomainList [Samples.tech_news; Samples.old_news]
       = ArticleDTO.fromDomainList (ArticleFilterService.sortByPublishedDate news)
       /\ 2%nat = length news
       /\ length (ArticleDTO.fromDomainList [Samples.tech_news; Samples.old_news])
          = length news
       /\ 2%nat = length [Samples.old_news; Samples.tech_news]
       /\ 2%nat = length [Samples.old_news; Samples.tech_news].
Proof.
  apply (falsy_maxArticles_means_no_cap Samples.env Samples.fetch_options
           (FileArticleRepository.new Samples.env Samples.storagePath)
           (Samples.fetch_input [] (Some (JS.Num 0))) Samples.fresh_world
           {| FetchArticlesUseCase.articles :=
                ArticleDTO.fromDomainList [Samples.tech_news; Samples.old_news];
              FetchArticlesUseCase.totalFetched := 2;
              FetchArticlesUseCase.totalFiltered := 2;
              FetchArticlesUseCase.newArticles := 2 |}).
  - reflexivity.
  - vm_compute. reflexivity.
Defined.

(** A truthy cap cuts the answer. *)
Example maxArticles_one_caps :
  match fst (FetchArticlesUseCase.execute Samples.env Samples.fetch_options
               (FileArticleRepository.new Samples.env Samples.storagePath)
               (Samples.fetch_input [] (Some (JS.Num 1))) Samples.fresh_world) with
  | Ok out =>
      FetchArticlesUseCase.articles out = ArticleDTO.fromDomainList [Samples.tech_news]
      /\ FetchArticlesUseCase.newArticles out = 2%nat
  | Throw _ => False
  end.
Proof. vm_compute. split; reflexivity. Qed.

(** *** The whole pipeline on the end-to-end scenario of the specification *)

(** Two sources, one answering [old_news] (day 1) and [tech_news] (day 2),
    the other failing all its retries; [old_news] is already on file; the
    keyword "tech" matches [tech_news] only.  The run delivers [tech_news]
    and leaves both articles on file. *)
Example end_to_end :
  let repo := FileArticleRepository.new Samples.env Samples.storagePath in
  let fetched := FetchArticlesUseCase.execute Samples.env Samples.fetch_options repo
                   (Samples.fetch_input ["tech"] None) Samples.world in
  match fst fetched with
  | Ok out =>
      FetchArticlesUseCase.articles out = [ArticleDTO.fromDomain Samples.tech_news]
      /\ FetchArticlesUseCase.totalFetched out = 2%nat
      /\ let notified :=
           NotifyArticlesUseCase.execute Samples.env Samples.notify_options repo (JS.Num 90)
             {| NotifyArticlesUseCase.articles := FetchArticlesUseCase.articles out;
                NotifyArticlesUseCase.keywords := ["tech"];
                NotifyArticlesUseCase.skipNotifyIfEmpty := None |}
             (snd fetched) in
         fst notified = Ok {| NotifyArticlesUseCase.notified := true;
                              NotifyArticlesUseCase.articleCount := 1;
                              NotifyArticlesUseCase.savedToRepository := true |}
         /\ stored (snd notified) = [Samples.old_news; Samples.tech_news]
         /\ In (Post (ArticlesMessage 1 [Samples.tech_news] ["tech"]))
               (trace (snd notified))
  | Throw _ => False
  end.
Proof. vm_compute. repeat split. tauto. Qed.

(* ===================================================================== *)
(** ** Further properties of the code *)
(* ===================================================================== *)

(** *** Further properties: matching, excluding, ranking and limiting *)

Lemma existsb_id_map {A} (p : A -> bool) (l : list A) :
  existsb (fun m => m) (map p l) = true <-> exists x, x ∈ l /\ p x = true.
Proof.
  rewrite existsb_exists. split.
  - intros (m & Hin & Hm). apply in_map_iff in Hin as (x & <- & Hx).
    exists x. split; [ now apply list_elem_of_In | exact Hm ].
  - intros (x & Hx & Hp). exists (p x). split; [ | exact Hp ].
    apply in_map. now apply list_elem_of_In.
Qed.

Lemma forallb_id_map {A} (p : A -> bool) (l : list A) :
  forallb (fun m => m) (map p l) = true <-> forall x, x ∈ l -> p x = true.
Proof.
  rewrite forallb_forall. split.
  - intros H x Hx. apply (H (p x)). apply in_map. now apply list_elem_of_In.
  - intros H m Hin. apply in_map_iff in Hin as (x & <- & Hx).
    apply H. now apply list_elem_of_In.
Qed.

(** X1. Under OR an article matches a filter exactly when its searchable
    text contains one of the keywords, under AND exactly when it contains
    all of them; so, for a filter with at least one keyword, what matches
    under AND matches under OR, and the articles kept under AND are among
    those kept under OR, in the same order. *)
Theorem matching_follows_strategy
    (keywords : list string) (caseSensitive inTitle inDescription : bool)
    (inContent : option bool) (articles : list Article.t) (a : Article.t) :
  let filter strategy :=
    ArticleFilter.Build keywords
      (ArticleFilter.Options strategy caseSensitive inTitle inDescription inContent) in
  let text :=
    ArticleFilterService.buildSearchableText a
      (ArticleFilter.Options ArticleFilter.OR caseSensitive inTitle inDescription
         inContent) in
  (ArticleFilterService.matchesFilter a (filter ArticleFilter.OR) = true
   <-> exists k, k ∈ keywords
                 /\ ArticleFilterService.matchKeyword text k caseSensitive = true)
  /\ (ArticleFilterService.matchesFilter a (filter ArticleFilter.AND) = true
      <-> forall k, k ∈ keywords
                    -> ArticleFilterService.matchKeyword text k caseSensitive = true)
  /\ (keywords <> [] ->
      sublist (ArticleFilterService.filterArticles articles (filter ArticleFilter.AND))
              (ArticleFilterService.filterArticles articles (filter ArticleFilter.OR))).
Proof.
  cbn zeta.
  assert (Hor : forall b,
    ArticleFilterService.matchesFilter b
      (ArticleFilter.Build keywords
         (ArticleFilter.Options ArticleFilter.OR caseSensitive inTitle inDescription
            inContent)) = true
    <-> exists k, k ∈ keywords
        /\ ArticleFilterService.matchKeyword
             (ArticleFilterService.buildSearchableText b
                (ArticleFilter.Options ArticleFilter.OR caseSensitive inTitle
                   inDescription inContent)) k caseSensitive = true).
  { intros b. unfold ArticleFilterService.matchesFilter. cbn. apply existsb_id_map. }
  assert (Hand : forall b,
    ArticleFilterService.matchesFilter b
      (ArticleFilter.Build keywords
         (ArticleFilter.Options ArticleFilter.AND caseSensitive inTitle inDescription
            inContent)) = true
    <-> forall k, k ∈ keywords
        -> ArticleFilterService.matchKeyword
             (ArticleFilterService.buildSearchableText b
                (ArticleFilter.Options ArticleFilter.OR caseSensitive inTitle
                   inDescription inContent)) k caseSensitive = true).
  { intros b. unfold ArticleFilterService.matchesFilter. cbn. apply forallb_id_map. }
  split; [ apply Hor | split; [ apply Hand | ] ].
  intros Hne. unfold ArticleFilterService.filterArticles.
  induction articles as [|b l IH]; [ constructor | ].
  cbn [List.filter].
  destruct (ArticleFilterService.matchesFilter b (ArticleFilter.Build _
              (ArticleFilter.Options ArticleFilter.AND _ _ _ _))) eqn:Eand.
  - pose proof (proj1 (Hand b) Eand) as Hall.
    destruct keywords as [|k ks]; [ contradiction | ].
    rewrite (proj2 (Hor b)); [ now apply sublist_skip | ].
    exists k. split; [ left | apply Hall; left ].
  - destruct (ArticleFilterService.matchesFilter b (ArticleFilter.Build _
                (ArticleFilter.Options ArticleFilter.OR _ _ _ _)));
      [ apply sublist_cons; exact IH | exact IH ].
Qed.

Lemma matching_follows_strategy_witness :
  sublist (ArticleFilterService.filterArticles [Samples.old_news; Samples.tech_news]
             (ArticleFilter.Build ["tech"; "new"]
                (ArticleFilter.Options ArticleFilter.AND false true true (Some false))))
          (ArticleFilterService.filterArticles [Samples.old_news; Samples.tech_news]
             (ArticleFilter.Build ["tech"; "new"]
                (ArticleFilter.Options ArticleFilter.OR false true true (Some false)))).
Proof.
  refine (proj2 (proj2 (matching_follows_strategy ["tech"; "new"] false true true
                          (Some false) [Samples.old_news; Samples.tech_news]
                          Samples.old_news)) _).
  discriminate.
Defined.

Lemma filter_bool_filter {A} (p q : A -> bool) (l : list A) :
  List.filter p (List.filter q l) = List.filter (fun x => q x && p x) l.
Proof.
  induction l as [|x l IH]; [ reflexivity | ].
  cbn [List.filter]. destruct (q x); cbn [List.filter andb]; [ | exact IH ].
  destruct (p x); now rewrite IH.
Qed.

Lemma filter_bool_ext {A} (p q : A -> bool) (l : list A) :
  (forall x, p x = q x) -> List.filter p l = List.filter q l.
Proof.
  intros H. induction l as [|x l IH]; [ reflexivity | ].
  cbn [List.filter]. now rewrite H, IH.
Qed.

(** X2. Excluding composes: excluding one set of ids and then another is
    excluding their union, excluding the empty set changes nothing, no
    article of the result has an excluded id, and excluding read articles
    before or after the keyword filter gives the same list. *)
Theorem excluding_composes
    (articles : list Article.t) (seen1 seen2 : gset string) (f : ArticleFilter.t) :
  ArticleFilterService.excludeReadArticles
    (ArticleFilterService.excludeReadArticles articles seen1) seen2
  = ArticleFilterService.excludeReadArticles articles (seen1 ∪ seen2)
  /\ ArticleFilterService.excludeReadArticles articles ∅ = articles
  /\ Forall (fun a => Article.id a ∉ seen1)
            (ArticleFilterService.excludeReadArticles articles seen1)
  /\ ArticleFilterService.excludeReadArticles
       (ArticleFilterService.filterArticles articles f) seen1
     = ArticleFilterService.filterArticles
         (ArticleFilterService.excludeReadArticles articles seen1) f.
Proof.
  unfold ArticleFilterService.excludeReadArticles, ArticleFilterService.filterArticles.
  split; [ | split; [ | split ] ].
  - rewrite filter_bool_filter. apply filter_bool_ext. intros a.
    rewrite <- negb_orb, <- bool_decide_or. f_equal.
    apply bool_decide_ext. now rewrite elem_of_union.
  - apply filter_bool_all. intros a. apply unread_iff. set_solver.
  - apply Forall_forall. intros a Ha.
    apply filter_bool_elem_of in Ha as [_ Ha]. now apply unread_iff.
  - rewrite !filter_bool_filter. apply filter_bool_ext. intros a. apply andb_comm.
Qed.

Lemma insert_at_front (x : Article.t) (l : list Article.t) :
  Forall (newer_first x) l ->
  JS.insert ArticleFilterService.byPublishedDate x l = x :: l.
Proof.
  intros H. destruct l as [|y l]; [ reflexivity | ].
  cbn [JS.insert]. rewrite after_byPublishedDate.
  apply Forall_cons in H as [Hy _]. unfold newer_first in Hy.
  destruct (Z.ltb_spec (Article.publishedAt x) (Article.publishedAt y));
    [ lia | reflexivity ].
Qed.

Lemma Forall_filter_bool {A} (P : A -> Prop) (p : A -> bool) (l : list A) :
  Forall P l -> Forall P (List.filter p l).
Proof.
  intros H. apply Forall_forall. intros x Hx.
  apply filter_bool_elem_of in Hx as [Hx _].
  rewrite Forall_forall in H. now apply H.
Qed.

(** Filtering commutes with inserting into a list that is newest first. *)
Lemma filter_insert (p : Article.t -> bool) (x : Article.t) (l : list Article.t) :
  StronglySorted newer_first l ->
  List.filter p (JS.insert ArticleFilterService.byPublishedDate x l)
  = if p x then JS.insert ArticleFilterService.byPublishedDate x (List.filter p l)
    else List.filter p l.
Proof.
  induction 1 as [|y l Hs IH Hy]; cbn [JS.insert List.filter].
  - destruct (p x); reflexivity.
  - rewrite after_byPublishedDate.
    destruct (Z.ltb_spec (Article.publishedAt x) (Article.publishedAt y)) as [Hlt|Hge].
    + cbn [List.filter]. rewrite IH.
      destruct (p y), (p x); try reflexivity.
      cbn [JS.insert]. rewrite after_byPublishedDate.
      now rewrite (proj2 (Z.ltb_lt _ _) Hlt).
    + cbn [List.filter]. destruct (p x); [ | reflexivity ].
      symmetry. apply insert_at_front.
      change (Forall (newer_first x) (List.filter p (y :: l))).
      apply Forall_filter_bool. constructor; [ exact Hge | ].
      eapply Forall_impl; [ exact Hy | ].
      unfold newer_first. intros z Hz. lia.
Qed.

Lemma filter_sort (p : Article.t -> bool) (l : list Article.t) :
  List.filter p (JS.sort ArticleFilterService.byPublishedDate l)
  = JS.sort ArticleFilterService.byPublishedDate (List.filter p l).
Proof.
  induction l as [|x l IH]; [ reflexivity | ].
  cbn [JS.sort List.filter]. rewrite filter_insert by apply sort_sorted.
  rewrite IH. destruct (p x); reflexivity.
Qed.

(** X3. Ranking composes with the other stages: sorting a sorted list
    changes nothing, and, the sort being stable, excluding read articles or
    filtering by keywords gives the same list before and after sorting. *)
Theorem ranking_composes
    (articles : list Article.t) (seen : gset string) (f : ArticleFilter.t) :
  ArticleFilterService.sortByPublishedDate
    (ArticleFilterService.sortByPublishedDate articles)
  = ArticleFilterService.sortByPublishedDate articles
  /\ ArticleFilterService.excludeReadArticles
       (ArticleFilterService.sortByPublishedDate articles) seen
     = ArticleFilterService.sortByPublishedDate
         (ArticleFilterService.excludeReadArticles articles seen)
  /\ ArticleFilterService.filterArticles
       (ArticleFilterService.sortByPublishedDate articles) f
     = ArticleFilterService.sortByPublishedDate
         (ArticleFilterService.filterArticles articles f).
Proof.
  unfold ArticleFilterService.sortByPublishedDate,
    ArticleFilterService.excludeReadArticles, ArticleFilterService.filterArticles.
  split; [ | split ].
  - apply sorted_sort_id, sort_sorted.
  - apply filter_sort.
  - apply filter_sort.
Qed.

Lemma sorted_app_order {A} (R : A -> A -> Prop) (l1 l2 : list A) :
  StronglySorted R (l1 ++ l2) -> forall a b, a ∈ l1 -> b ∈ l2 -> R a b.
Proof.
  induction l1 as [|x l1 IH]; intros Hs a b Ha Hb; [ inversion Ha | ].
  cbn in Hs. apply StronglySorted_inv in Hs as [Hs Hx].
  apply elem_of_cons in Ha as [->|Ha].
  - rewrite Forall_forall in Hx. apply Hx. apply elem_of_app. now right.
  - now apply (IH Hs).
Qed.

(** X4. Limiting after ranking keeps the newest: with a count [n] that is a
    natural number, [limitArticles] on the sorted list answers its first
    [n] articles, as many as [n] or the whole list if it is shorter, and
    no article left out is newer than an article kept. *)
Theorem limit_after_sort_keeps_newest (articles : list Article.t) (n : nat) :
  let sorted := ArticleFilterService.sortByPublishedDate articles in
  let kept := ArticleFilterService.limitArticles sorted (JS.Num (Z.of_nat n)) in
  kept = take n sorted
  /\ length kept = Nat.min n (length articles)
  /\ (forall a b, a ∈ kept -> b ∈ drop n sorted ->
        Article.publishedAt b <= Article.publishedAt a).
Proof.
  cbn zeta. unfold ArticleFilterService.limitArticles, JS.slice0.
  set (sorted := ArticleFilterService.sortByPublishedDate articles).
  assert (Hlen : length sorted = length articles).
  { symmetry. apply Permutation_length, sort_perm. }
  assert (Hkept : firstn (Z.to_nat
            (if Z.of_nat n <? 0
             then Z.max (Z.of_nat (length sorted) + Z.of_nat n) 0
             else Z.min (Z.of_nat n) (Z.of_nat (length sorted)))) sorted
          = take n sorted).
  { destruct (Z.ltb_spec (Z.of_nat n) 0) as [|_]; [ lia | ].
    destruct (Nat.le_gt_cases n (length sorted)) as [Hle|Hgt].
    - now rewrite Z.min_l, Nat2Z.id by lia.
    - rewrite Z.min_r, Nat2Z.id by lia.
      rewrite firstn_all. symmetry. apply take_ge. lia. }
  rewrite Hkept. split; [ reflexivity | split ].
  - rewrite length_take, Hlen. reflexivity.
  - intros a b Ha Hb.
    apply (sorted_app_order newer_first (take n sorted) (drop n sorted));
      [ rewrite take_drop; apply sort_sorted | exact Ha | exact Hb ].
Qed.

(** *** Further properties: parsing and fetching *)

(** What [itemToArticle] answers: nothing for an item without title or
    link, otherwise an article with that title and link, the name of the
    feed, and a date that parsed or the reading of the clock. *)
Lemma itemToArticle_spec env (item : Item) (feedName : string) (w : World) :
  exists r w',
    RssFeedParser.itemToArticle env item feedName w = (Ok r, w')
    /\ match r with
       | None =>
           (JS.truthy_opt (i_title item) && JS.truthy_opt (i_link item))%bool = false
       | Some a =>
           i_title item = Some (Article.title a)
           /\ i_link item = Some (Article.url a)
           /\ JS.truthy_string (Article.title a) = true
           /\ JS.truthy_string (Article.url a) = true
           /\ Article.feedName a = feedName
           /\ (Article.publishedAt a = now env
               \/ exists s, parseDate env s = Some (Article.publishedAt a))
       end.
Proof.
  unfold RssFeedParser.itemToArticle.
  destruct (i_title item) as [title|], (i_link item) as [link|];
    try (eexists None, _; split; [ reflexivity | cbn; now rewrite ?andb_false_r ]).
  cbn [JS.truthy_opt].
  destruct (JS.truthy_string title) eqn:Ht, (JS.truthy_string link) eqn:Hl;
    try (eexists None, _; split; reflexivity).
  cbn [andb]. rewrite run_bind.
  unfold RssFeedParser.parsePublishedDate.
  destruct (JS.or (JS.or (i_isoDate item) (i_pubDate item)) (i_published item))
    as [s|].
  - destruct (JS.truthy_string s).
    + destruct (parseDate env s) as [t|] eqn:Hdate.
      * eexists (Some _), _. split; [ reflexivity | ].
        cbn. repeat split; eauto.
      * eexists (Some _), _. split; [ reflexivity | ]. cbn. repeat split; auto.
    + eexists (Some _), _. split; [ reflexivity | ]. cbn. repeat split; auto.
  - eexists (Some _), _. split; [ reflexivity | ]. cbn. repeat split; auto.
Qed.

Lemma omap_step {A B} (f : A -> option B) (x : A) (l : list A) :
  omap f (x :: l) = match f x with Some y => y :: omap f l | None => omap f l end.
Proof. reflexivity. Qed.

Lemma parseItems_spec env (feed : Feed.t) (items : list Item) (acc : list Article.t)
    (w : World) :
  exists news w',
    RssFeedParser.parseItems env feed items acc w = (Ok (acc ++ news), w')
    /\ Forall (parsed_from env feed) news
    /\ map (fun a => (Article.title a, Article.url a)) news = omap item_key items.
Proof.
  revert acc w. induction items as [|item items IH]; intros acc w.
  - exists [], w. rewrite app_nil_r. repeat split; constructor.
  - cbn [RssFeedParser.parseItems]. rewrite run_bind, run_try_catch, run_bind.
    destruct (itemToArticle_spec env item (Feed.name feed) w) as (r & w1 & -> & Hr).
    unfold ret at 1.
    destruct r as [a|].
    + destruct Hr as (Ht & Hl & Htt & Hlt & Hname & Hdate).
      destruct (IH (acc ++ [a]) w1) as (news & w2 & -> & Hall & Hkeys).
      exists (a :: news), w2. rewrite <- app_assoc. split; [ reflexivity | ].
      split; [ constructor; [ now repeat split | exact Hall ] | ].
      rewrite omap_step. unfold item_key at 1. rewrite Ht, Hl, Htt, Hlt.
      cbn [andb map]. now rewrite Hkeys.
    + destruct (IH acc w1) as (news & w2 & -> & Hall & Hkeys).
      exists news, w2. split; [ reflexivity | split; [ exact Hall | ] ].
      rewrite omap_step. unfold item_key at 1.
      destruct (i_title item) as [t|], (i_link item) as [l|];
        cbn [JS.truthy_opt] in Hr; rewrite ?Hr; exact Hkeys.
Qed.

Lemma parse_spec env (feed : Feed.t) (nth_call : Z) (w : World) :
  match parseURL env (Feed.url feed) nth_call with
  | UrlFail e =>
      exists message,
        fst (RssFeedParser.parse env feed nth_call w)
        = Throw (ErrorObj FeedParseError message)
  | UrlFeed items =>
      exists articles,
        fst (RssFeedParser.parse env feed nth_call w) = Ok articles
        /\ Forall (parsed_from env feed) articles
        /\ map (fun a => (Article.title a, Article.url a)) articles
           = omap item_key (default [] items)
  end.
Proof.
  unfold RssFeedParser.parse. rewrite run_try_catch, run_bind_info.
  destruct (parseURL env (Feed.url feed) nth_call) as [items|e].
  - destruct items as [[|item items]|].
    + exists []. repeat split; constructor.
    + rewrite run_bind.
      destruct (parseItems_spec env feed (item :: items) []
                  (logger.info ("Parsing feed: " +:+ Feed.name feed +:+ " ("
                                +:+ Feed.url feed +:+ ")") w).2)
        as (news & w1 & -> & Hall & Hkeys).
      exists news. repeat split; assumption.
    + exists []. repeat split; constructor.
  - unfold throw at 1. destruct (instanceof_Error e); eexists; reflexivity.
Qed.

(** X5. [RssFeedParser.parse] fails only when the request for the feed is
    rejected, and then with a FeedParseError; when the request is answered
    it fulfils, whatever the items are, and every article it answers has a
    non-empty title and url, the name of the feed, and a publication date
    that either parsed from a date string or is the reading of the
    clock. *)
Theorem parse_fails_only_on_rejected_request env (feed : Feed.t) (nth_call : Z)
    (w : World) :
  (forall e, fst (RssFeedParser.parse env feed nth_call w) = Throw e ->
     (exists message, e = ErrorObj FeedParseError message)
     /\ exists cause, parseURL env (Feed.url feed) nth_call = UrlFail cause)
  /\ (forall articles, fst (RssFeedParser.parse env feed nth_call w) = Ok articles ->
        Forall (fun a =>
                  JS.truthy_string (Article.title a) = true
                  /\ JS.truthy_string (Article.url a) = true
                  /\ Article.feedName a = Feed.name feed
                  /\ (Article.publishedAt a = now env
                      \/ exists s, parseDate env s = Some (Article.publishedAt a)))
               articles)
  /\ (forall items, parseURL env (Feed.url feed) nth_call = UrlFeed items ->
        exists articles, fst (RssFeedParser.parse env feed nth_call w) = Ok articles).
Proof.
  pose proof (parse_spec env feed nth_call w) as Hspec.
  destruct (parseURL env (Feed.url feed) nth_call) as [items|cause].
  - destruct Hspec as (articles & Hrun & Hall & _). rewrite Hrun.
    split; [ intros e [=] | split ].
    + intros ? [= <-]. exact Hall.
    + intros _ _. now exists articles.
  - destruct Hspec as (message & Hrun). rewrite Hrun.
    split; [ | split; [ intros ? [=] | intros ? [=] ] ].
    intros e [= <-]. split; eauto.
Qed.

Lemma parse_fails_only_on_rejected_request_witness :
  Forall (fun a =>
            JS.truthy_string (Article.title a) = true
            /\ JS.truthy_string (Article.url a) = true
            /\ Article.feedName a = Feed.name Samples.good_feed
            /\ (Article.publishedAt a = now Samples.env
                \/ exists s, parseDate Samples.env s = Some (Article.publishedAt a)))
         [Samples.old_news; Samples.tech_news]
  /\ ((exists message,
         ErrorObj FeedParseError "Failed to parse feed Bad: connect ECONNREFUSED"
         = ErrorObj FeedParseError message)
      /\ exists cause,
           parseURL Samples.env (Feed.url Samples.bad_feed) 1 = UrlFail cause).
Proof.
  split.
  - refine (proj1 (proj2 (parse_fails_only_on_rejected_request Samples.env
                            Samples.good_feed 1 Samples.world)) _ _).
    vm_compute. reflexivity.
  - refine (proj1 (parse_fails_only_on_rejected_request Samples.env
                     Samples.bad_feed 1 Samples.world) _ _).
    vm_compute. reflexivity.
Defined.

Lemma omap_length_le {A B} (f : A -> option B) (l : list A) :
  (length (omap f l) <= length l)%nat.
Proof.
  induction l as [|x l IH]; [ reflexivity | ].
  rewrite omap_step. destruct (f x); cbn [length]; lia.
Qed.

(** X6. [RssFeedParser.parse] drops the items that lack a title or a link
    and keeps the others in the order of the feed: the titles and links of
    the articles it answers are those of the items that have both, in
    order, so it never answers more articles than the feed has items. *)
Theorem parse_keeps_order_drops_incomplete env (feed : Feed.t) (nth_call : Z)
    (w : World) (items : option (list Item)) (articles : list Article.t) :
  parseURL env (Feed.url feed) nth_call = UrlFeed items ->
  fst (RssFeedParser.parse env feed nth_call w) = Ok articles ->
  map (fun a => (Article.title a, Article.url a)) articles
  = omap item_key (default [] items)
  /\ (length articles <= length (default [] items))%nat.
Proof.
  intros Hreply Hrun.
  pose proof (parse_spec env feed nth_call w) as Hspec. rewrite Hreply in Hspec.
  destruct Hspec as (articles' & Hrun' & _ & Hkeys).
  rewrite Hrun in Hrun'. injection Hrun' as <-.
  split; [ exact Hkeys | ].
  rewrite <- (length_map (fun a => (Article.title a, Article.url a))), Hkeys.
  apply omap_length_le.
Qed.

Lemma parse_keeps_order_drops_incomplete_witness :
  map (fun a => (Article.title a, Article.url a)) [Samples.old_news; Samples.tech_news]
  = omap item_key
      (default []
         (Some [Samples.item "Old news" "https://good.example/1" Samples.day1;
                Samples.item "New tech arrives" "https://good.example/2" Samples.day2]))
  /\ (length [Samples.old_news; Samples.tech_news]
      <= length (default []
                   (Some [Samples.item "Old news" "https://good.example/1" Samples.day1;
                          Samples.item "New tech arrives" "https://good.example/2"
                                       Samples.day2])))%nat.
Proof.
  apply (parse_keeps_order_drops_incomplete Samples.env Samples.good_feed 1 Samples.world).
  - reflexivity.
  - vm_compute. reflexivity.
Defined.

Lemma with_events_nil (w : World) : with_events w [] = w.
Proof. destruct w. unfold with_events. cbn. now rewrite app_nil_r. Qed.

Lemma with_events_app (w : World) (n1 n2 : list Event) :
  with_events (with_events w n1) n2 = with_events w (n1 ++ n2).
Proof. unfold with_events. cbn. now rewrite app_assoc. Qed.

Lemma events_of_with_events {A} (m : M A) (w : World) (new : list Event) :
  snd (m w) = with_events w new -> events_of m w = new.
Proof. intros H. unfold events_of. rewrite H. cbn. apply drop_app_length. Qed.

Lemma delays_of_app (t1 t2 : list Event) :
  delays_of (t1 ++ t2) = delays_of t1 ++ delays_of t2.
Proof.
  induction t1 as [|e t1 IH]; [ reflexivity | ].
  destruct e; cbn; now rewrite IH.
Qed.

Lemma posts_of_app (t1 t2 : list Event) :
  posts_of (t1 ++ t2) = posts_of t1 ++ posts_of t2.
Proof.
  induction t1 as [|e t1 IH]; [ reflexivity | ].
  destruct e; cbn; now rewrite IH.
Qed.

Lemma delays_of_logs (tr : list Event) : Forall is_log tr -> delays_of tr = [].
Proof.
  induction 1 as [|e tr He _ IH]; [ reflexivity | ].
  destruct e; cbn in *; tauto.
Qed.

Lemma logs_ret {A} (a : A) : logs_only (ret a).
Proof. intros w. exists []. now rewrite with_events_nil. Qed.

Lemma logs_throw {A} (e : Thrown) : logs_only (@throw A e).
Proof. intros w. exists []. now rewrite with_events_nil. Qed.

Lemma logs_log level message meta : logs_only (emit (Log level message meta)).
Proof. intros w. eexists [_]. split; [ reflexivity | repeat constructor ]. Qed.

Lemma logs_bind {A B} (m : M A) (k : A -> M B) :
  logs_only m -> (forall a, logs_only (k a)) -> logs_only (bind m k).
Proof.
  intros Hm Hk w. rewrite run_bind.
  destruct (Hm w) as (n1 & H1 & Hl1).
  destruct (m w) as [[a|e] w1]; cbn [snd] in *; subst w1.
  - destruct (Hk a (with_events w n1)) as (n2 & H2 & Hl2).
    exists (n1 ++ n2). rewrite H2, with_events_app.
    split; [ reflexivity | now apply Forall_app ].
  - now exists n1.
Qed.

Lemma logs_try_catch {A} (m : M A) (handler : Thrown -> M A) :
  logs_only m -> (forall e, logs_only (handler e)) -> logs_only (try_catch m handler).
Proof.
  intros Hm Hh w. rewrite run_try_catch.
  destruct (Hm w) as (n1 & H1 & Hl1).
  destruct (m w) as [[a|e] w1]; cbn [snd] in *; subst w1.
  - now exists n1.
  - destruct (Hh e (with_events w n1)) as (n2 & H2 & Hl2).
    exists (n1 ++ n2). rewrite H2, with_events_app.
    split; [ reflexivity | now apply Forall_app ].
Qed.

Ltac logs :=
  repeat lazymatch goal with
    | |- logs_only (ret _) => apply logs_ret
    | |- logs_only (throw _) => apply logs_throw
    | |- logs_only (bind _ _) => apply logs_bind; [ | intros ? ]
    | |- logs_only (try_catch _ _) => apply logs_try_catch; [ | intros ? ]
    | |- logs_only (logger.info _) => apply logs_log
    | |- logs_only (logger.debug _) => apply logs_log
    | |- logs_only (logger.warn _ _) => apply logs_log
    | |- logs_only (logger.error _ _) => apply logs_log
    | |- logs_only (match ?x with _ => _ end) => destruct x
    end.

Lemma logs_parsePublishedDate env item :
  logs_only (RssFeedParser.parsePublishedDate env item).
Proof. unfold RssFeedParser.parsePublishedDate. logs. Qed.

Lemma logs_itemToArticle env item feedName :
  logs_only (RssFeedParser.itemToArticle env item feedName).
Proof.
  unfold RssFeedParser.itemToArticle.
  destruct (i_title item), (i_link item); logs.
  apply logs_parsePublishedDate.
Qed.

Lemma logs_parseItems env feed items articles :
  logs_only (RssFeedParser.parseItems env feed items articles).
Proof.
  revert articles. induction items as [|item rest IH]; intros articles; simpl.
  - logs.
  - apply logs_bind; [ | intros a; apply IH ].
    logs. apply logs_itemToArticle.
Qed.

Lemma logs_parse env feed nth_call : logs_only (RssFeedParser.parse env feed nth_call).
Proof.
  unfold RssFeedParser.parse.
  apply logs_try_catch; [ | intros e; logs ].
  apply logs_bind; [ logs | intros _ ].
  destruct (parseURL env (Feed.url feed) nth_call) as [items|e]; [ | logs ].
  destruct items as [[|item items]|]; [ logs | | logs ].
  apply logs_bind; [ apply logs_parseItems | intros articles; logs ].
Qed.

(** One attempt of [fetchFeed]: it answers what the parser answers and
    only logs. *)
Lemma fetch_attempt_run env (feed : Feed.t) (attempt : Z) (message : string) (w : World) :
  exists new,
    Forall is_log new
    /\ bind (logger.info message) (fun _ => RssFeedParser.parse env feed attempt) w
       = (fst (RssFeedParser.parse env feed attempt w), with_events w new).
Proof.
  assert (Hlogs : logs_only (bind (logger.info message)
                               (fun _ => RssFeedParser.parse env feed attempt))).
  { apply logs_bind; [ apply logs_log | intros _; apply logs_parse ]. }
  destruct (Hlogs w) as (new & Hw & Hnew). exists new. split; [ exact Hnew | ].
  rewrite <- Hw. rewrite run_bind_info.
  rewrite (blind_parse env feed attempt w (logger.info message w).2).
  now destruct (RssFeedParser.parse env feed attempt (logger.info message w).2).
Qed.

Lemma seq_map_shift {B} (f : nat -> B) (k : nat) :
  map f (seq 0 (S k)) = f 0%nat :: map (fun j => f (S j)) (seq 0 k).
Proof. cbn [seq map]. f_equal. rewrite <- seq_shift, map_map. reflexivity. Qed.

Lemma fetchFeed_from_succeeds env options (feed : Feed.t) (k : nat) :
  forall (remaining : nat) (attempt : Z) lastError (w : World) (articles : list Article.t),
    (k < remaining)%nat ->
    JS.iterations (FeedClient.maxRetries options)
    = (remaining + Z.to_nat (attempt - 1))%nat ->
    1 <= attempt ->
    (forall j, (j < k)%nat ->
       exists e, parseURL env (Feed.url feed) (attempt + Z.of_nat j) = UrlFail e) ->
    fst (RssFeedParser.parse env feed (attempt + Z.of_nat k) w) = Ok articles ->
    exists new,
      FeedClient.fetchFeed_from env options feed remaining attempt lastError w
      = (Ok articles, with_events w new)
      /\ delays_of new
         = map (fun j => JS.mul (FeedClient.retryDelayMs options)
                                (JS.Num (attempt + Z.of_nat j)))
               (seq 0 k).
Proof.
  induction k as [|k IH]; intros remaining attempt lastError w articles Hk Hit Hat Hfail Hok;
    (destruct remaining as [|remaining]; [ lia | ]);
    cbn [FeedClient.fetchFeed_from]; rewrite run_try_catch;
    match goal with
    | |- context [bind (logger.info ?msg) _ w] =>
        destruct (fetch_attempt_run env feed attempt msg w) as (n1 & Hn1 & ->)
    end.
  - rewrite Z.add_0_r in Hok. rewrite Hok. exists n1.
    split; [ reflexivity | now apply delays_of_logs ].
  - destruct (Hfail 0%nat ltac:(lia)) as [e He]. rewrite Z.add_0_r in He.
    pose proof (parse_spec env feed attempt w) as Hspec. rewrite He in Hspec.
    destruct Hspec as [message ->].
    destruct (iterations_bound _ _ _ Hit Hat) as [Hlt Hit'].
    destruct remaining as [|remaining]; [ lia | ]. cbn [Nat.eqb negb] in Hlt.
    rewrite run_bind. unfold logger.warn at 1, emit at 1.
    rewrite run_bind, Hlt. unfold delay at 1, emit at 1.
    cbn [trace posts disk fs_calls with_events].
    match goal with
    | |- context [FeedClient.fetchFeed_from _ _ _ _ _ ?le ?w3] =>
        destruct (IH (S remaining) (attempt + 1) le w3 articles ltac:(lia) Hit' ltac:(lia))
          as (new & Hrun & Hdelays)
    end.
    + intros j Hj. destruct (Hfail (S j) ltac:(lia)) as [e' He'].
      exists e'. rewrite <- He'. f_equal. lia.
    + rewrite <- Hok.
      replace (attempt + 1 + Z.of_nat k) with (attempt + Z.of_nat (S k)) by lia.
      apply blind_parse.
    + rewrite Hrun. eexists (n1 ++ [_; _] ++ new). split.
      * f_equal. unfold with_events. cbn [trace posts disk fs_calls].
        f_equal. rewrite <- !app_assoc. reflexivity.
      * rewrite !delays_of_app, (delays_of_logs n1 Hn1), Hdelays, seq_map_shift.
        cbn [delays_of app]. rewrite Z.add_0_r. f_equal.
        apply map_ext. intros j.
        replace (attempt + Z.of_nat (S j)) with (attempt + 1 + Z.of_nat j) by lia.
        reflexivity.
Qed.

Lemma fetchFeed_from_exhausts env options (feed : Feed.t) :
  forall (remaining : nat) (attempt : Z) lastError (w : World),
    JS.iterations (FeedClient.maxRetries options)
    = (remaining + Z.to_nat (attempt - 1))%nat ->
    1 <= attempt ->
    (forall j, (j < remaining)%nat ->
       exists e, parseURL env (Feed.url feed) (attempt + Z.of_nat j) = UrlFail e) ->
    exists new message,
      FeedClient.fetchFeed_from env options feed remaining attempt lastError w
      = (Throw (ErrorObj FeedFetchError message), with_events w new)
      /\ delays_of new
         = map (fun j => JS.mul (FeedClient.retryDelayMs options)
                                (JS.Num (attempt + Z.of_nat j)))
               (seq 0 (remaining - 1)).
Proof.
  induction remaining as [|remaining IH]; intros attempt lastError w Hit Hat Hfail.
  - cbn [FeedClient.fetchFeed_from]. unfold throw.
    eexists [], _. rewrite with_events_nil. split; reflexivity.
  - cbn [FeedClient.fetchFeed_from]. rewrite run_try_catch.
    match goal with
    | |- context [bind (logger.info ?msg) _ w] =>
        destruct (fetch_attempt_run env feed attempt msg w) as (n1 & Hn1 & ->)
    end.
    destruct (Hfail 0%nat ltac:(lia)) as [e He]. rewrite Z.add_0_r in He.
    pose proof (parse_spec env feed attempt w) as Hspec. rewrite He in Hspec.
    destruct Hspec as [message ->].
    destruct (iterations_bound _ _ _ Hit Hat) as [Hlt Hit'].
    rewrite run_bind. unfold logger.warn at 1, emit at 1.
    rewrite run_bind, Hlt.
    assert (Hrest : forall j, (j < remaining)%nat ->
              exists e, parseURL env (Feed.url feed) (attempt + 1 + Z.of_nat j)
                        = UrlFail e).
    { intros j Hj. destruct (Hfail (S j) ltac:(lia)) as [e' He'].
      exists e'. rewrite <- He'. f_equal. lia. }
    destruct remaining as [|remaining]; cbn [Nat.eqb negb].
    + unfold ret at 1. cbn [FeedClient.fetchFeed_from]. unfold throw.
      eexists (n1 ++ [_]), _. split.
      * f_equal. unfold with_events. cbn [trace posts disk fs_calls].
        f_equal. now rewrite <- app_assoc.
      * rewrite delays_of_app, (delays_of_logs n1 Hn1). reflexivity.
    + unfold delay at 1, emit at 1. cbn [trace posts disk fs_calls with_events].
      match goal with
      | |- context [FeedClient.fetchFeed_from _ _ _ _ _ ?le ?w3] =>
          destruct (IH (attempt + 1) le w3 Hit' ltac:(lia) Hrest)
            as (new & message' & Hrun & Hdelays)
      end.
      rewrite Hrun. eexists (n1 ++ [_; _] ++ new), message'. split.
      * f_equal. unfold with_events. cbn [trace posts disk fs_calls].
        f_equal. rewrite <- !app_assoc. reflexivity.
      * rewrite !delays_of_app, (delays_of_logs n1 Hn1), Hdelays.
        replace (S (S remaining) - 1)%nat with (S remaining) by lia.
        replace (S remaining - 1)%nat with remaining by lia.
        rewrite seq_map_shift.
        cbn [delays_of app]. rewrite Z.add_0_r. f_equal.
        apply map_ext. intros j.
        replace (attempt + Z.of_nat (S j)) with (attempt + 1 + Z.of_nat j) by lia.
        reflexivity.
Qed.

Lemma seq_from_one {B} (f : Z -> B) (k : nat) :
  map (fun j => f (1 + Z.of_nat j)) (seq 0 k) = map (fun a => f (Z.of_nat a)) (seq 1 k).
Proof.
  rewrite <- seq_shift, map_map. apply map_ext. intros j. f_equal. lia.
Qed.

(** X7. [fetchFeed] answers the articles of the first attempt that the
    parser fulfils, provided it comes within [maxRetries] attempts: when
    the requests of the attempts 1 to k are rejected and attempt k + 1
    parses, [fetchFeed] fulfils with those articles, having waited
    [retryDelayMs * a] after each failed attempt [a] and not at all when
    the first attempt parses. *)
Theorem fetchFeed_answers_first_success env options (feed : Feed.t) (w : World)
    (k : nat) (articles : list Article.t) :
  (k < JS.iterations (FeedClient.maxRetries options))%nat ->
  (forall j, (j < k)%nat ->
     exists e, parseURL env (Feed.url feed) (1 + Z.of_nat j) = UrlFail e) ->
  fst (RssFeedParser.parse env feed (1 + Z.of_nat k) w) = Ok articles ->
  fst (FeedClient.fetchFeed env options feed w) = Ok articles
  /\ delays_of (events_of (FeedClient.fetchFeed env options feed) w)
     = map (fun a => JS.mul (FeedClient.retryDelayMs options) (JS.Num (Z.of_nat a)))
           (seq 1 k).
Proof.
  intros Hk Hfail Hok. unfold FeedClient.fetchFeed.
  destruct (fetchFeed_from_succeeds env options feed k
              (JS.iterations (FeedClient.maxRetries options)) 1 None w articles
              Hk ltac:(cbn; lia) ltac:(lia) Hfail Hok) as (new & Hrun & Hdelays).
  split; [ now rewrite Hrun | ].
  rewrite (events_of_with_events _ w new) by now rewrite Hrun.
  rewrite Hdelays. apply (seq_from_one (fun z => JS.mul _ (JS.Num z))).
Qed.

Lemma fetchFeed_answers_first_success_witness :
  fst (FeedClient.fetchFeed MoreSamples.env_flaky Samples.fetch_options Samples.good_feed
         Samples.world) = Ok [Samples.old_news; Samples.tech_news]
  /\ delays_of (events_of (FeedClient.fetchFeed MoreSamples.env_flaky Samples.fetch_options
                            Samples.good_feed) Samples.world)
     = map (fun a => JS.mul (FeedClient.retryDelayMs Samples.fetch_options)
                            (JS.Num (Z.of_nat a)))
           (seq 1 2).
Proof.
  apply (fetchFeed_answers_first_success MoreSamples.env_flaky Samples.fetch_options
           Samples.good_feed Samples.world 2 [Samples.old_news; Samples.tech_news]).
  - vm_compute. lia.
  - intros j Hj. eexists.
    destruct j as [|[|j]]; [ reflexivity | reflexivity | lia ].
  - vm_compute. reflexivity.
Defined.

(** X8. [fetchFeed] gives up after [maxRetries] attempts: when the
    requests of all of them are rejected it throws a FeedFetchError, having
    waited [retryDelayMs * a] after each failed attempt [a] but the last;
    and when [maxRetries] is 0, negative or NaN it throws the
    FeedFetchError at once, without a request, a wait or a log entry. *)
Theorem fetchFeed_gives_up env options (feed : Feed.t) (w : World) :
  let n := JS.iterations (FeedClient.maxRetries options) in
  ((forall j, (j < n)%nat ->
      exists e, parseURL env (Feed.url feed) (1 + Z.of_nat j) = UrlFail e) ->
   (exists message,
      fst (FeedClient.fetchFeed env options feed w)
      = Throw (ErrorObj FeedFetchError message))
   /\ delays_of (events_of (FeedClient.fetchFeed env options feed) w)
      = map (fun a => JS.mul (FeedClient.retryDelayMs options) (JS.Num (Z.of_nat a)))
            (seq 1 (n - 1)))
  /\ (n = 0%nat ->
      FeedClient.fetchFeed env options feed w
      = (Throw (ErrorObj FeedFetchError
                  ("Failed to fetch feed " +:+ Feed.name feed +:+ " after "
                   +:+ JS.show (FeedClient.maxRetries options)
                   +:+ " attempts: undefined")), w)).
Proof.
  cbn zeta. split.
  - intros Hfail. unfold FeedClient.fetchFeed.
    destruct (fetchFeed_from_exhausts env options feed
                (JS.iterations (FeedClient.maxRetries options)) 1 None w
                ltac:(cbn; lia) ltac:(lia) Hfail) as (new & message & Hrun & Hdelays).
    split; [ exists message; now rewrite Hrun | ].
    rewrite (events_of_with_events _ w new) by now rewrite Hrun.
    rewrite Hdelays. apply (seq_from_one (fun z => JS.mul _ (JS.Num z))).
  - intros Hn. unfold FeedClient.fetchFeed. rewrite Hn. reflexivity.
Qed.

Lemma fetchFeed_gives_up_witness :
  (exists message,
     fst (FeedClient.fetchFeed Samples.env Samples.fetch_options Samples.bad_feed
            Samples.world) = Throw (ErrorObj FeedFetchError message))
  /\ delays_of (events_of (FeedClient.fetchFeed Samples.env Samples.fetch_options
                            Samples.bad_feed) Samples.world)
     = map (fun a => JS.mul (FeedClient.retryDelayMs Samples.fetch_options)
                            (JS.Num (Z.of_nat a)))
           (seq 1 (JS.iterations (FeedClient.maxRetries Samples.fetch_options) - 1)).
Proof.
  refine (proj1 (fetchFeed_gives_up Samples.env Samples.fetch_options Samples.bad_feed
                   Samples.world) _).
  intros j _. eexists. reflexivity.
Defined.

Example fetchFeed_waits :
  delays_of (events_of (FeedClient.fetchFeed MoreSamples.env_flaky Samples.fetch_options
                          Samples.good_feed) Samples.world)
  = [JS.Num 1000; JS.Num 2000]
  /\ delays_of (events_of (FeedClient.fetchFeed Samples.env Samples.fetch_options
                             Samples.bad_feed) Samples.world)
     = [JS.Num 1000; JS.Num 2000].
Proof. vm_compute. split; reflexivity. Qed.

(** An environment with other answers to the requests for feeds. *)
Lemma parseItems_other_answers env f (feed : Feed.t) (items : list Item) :
  forall (acc : list Article.t) (w : World),
    RssFeedParser.parseItems
      {| parseURL := f; parseDate := parseDate env; now := now env;
         daysBefore := daysBefore env;
         post_reply := post_reply env; fs_fault := fs_fault env |} feed items acc w
    = RssFeedParser.parseItems env feed items acc w.
Proof.
  induction items as [|item items IH]; intros acc w; [ reflexivity | ].
  cbn [RssFeedParser.parseItems]. rewrite !run_bind.
  change (RssFeedParser.itemToArticle
            {| parseURL := f; parseDate := parseDate env; now := now env;
               daysBefore := daysBefore env;
               post_reply := post_reply env; fs_fault := fs_fault env |} item
            (Feed.name feed))
    with (RssFeedParser.itemToArticle env item (Feed.name feed)).
  destruct (try_catch _ _ w) as [[acc'|e] w1]; [ apply IH | reflexivity ].
Qed.

Lemma parse_other_answers env f (feed : Feed.t) (nth_call : Z) (w : World) :
  f (Feed.url feed) nth_call = parseURL env (Feed.url feed) nth_call ->
  RssFeedParser.parse
    {| parseURL := f; parseDate := parseDate env; now := now env;
       daysBefore := daysBefore env;
       post_reply := post_reply env; fs_fault := fs_fault env |} feed nth_call w
  = RssFeedParser.parse env feed nth_call w.
Proof.
  intros Hf. unfold RssFeedParser.parse. rewrite !run_try_catch, !run_bind_info.
  cbn [parseURL]. rewrite Hf.
  destruct (parseURL env (Feed.url feed) nth_call) as [items|e]; [ | reflexivity ].
  destruct items as [[|item items]|]; [ reflexivity | | reflexivity ].
  rewrite !run_bind, parseItems_other_answers. reflexivity.
Qed.

Lemma fetchFeed_from_other_answers env f options (feed : Feed.t) (remaining : nat) :
  (forall k, f (Feed.url feed) k = parseURL env (Feed.url feed) k) ->
  forall (attempt : Z) lastError (w : World),
    FeedClient.fetchFeed_from
      {| parseURL := f; parseDate := parseDate env; now := now env;
         daysBefore := daysBefore env;
         post_reply := post_reply env; fs_fault := fs_fault env |}
      options feed remaining attempt lastError w
    = FeedClient.fetchFeed_from env options feed remaining attempt lastError w.
Proof.
  intros Hf. induction remaining as [|remaining IH]; intros attempt lastError w;
    [ reflexivity | ].
  cbn [FeedClient.fetchFeed_from]. rewrite !run_try_catch, !run_bind_info.
  rewrite parse_other_answers by apply Hf.
  destruct (RssFeedParser.parse env feed attempt _) as [[articles|e] w1];
    [ reflexivity | ].
  rewrite !run_bind.
  destruct (logger.warn _ _ w1) as [[[]|e0] w2]; [ | reflexivity ].
  rewrite !run_bind.
  destruct ((if JS.lt (JS.Num attempt) (FeedClient.maxRetries options)
             then delay (JS.mul (FeedClient.retryDelayMs options) (JS.Num attempt))
             else ret tt) _) as [[[]|e'] w3]; [ apply IH | reflexivity ].
Qed.

Lemma fetchFeeds_other_answers env f options (feeds : list Feed.t) (w : World) :
  (forall feed, In feed feeds ->
     forall k, f (Feed.url feed) k = parseURL env (Feed.url feed) k) ->
  FeedClient.fetchFeeds
    {| parseURL := f; parseDate := parseDate env; now := now env;
       daysBefore := daysBefore env;
       post_reply := post_reply env; fs_fault := fs_fault env |} options feeds w
  = FeedClient.fetchFeeds env options feeds w.
Proof.
  intros Hf. unfold FeedClient.fetchFeeds.
  rewrite !run_bind_info. rewrite !(run_bind (fork _)). unfold fork. cbv zeta.
  match goal with
  | |- ?L = ?R =>
      match L with
      | context [map (fun task => task ?w0) (map ?T' feeds)] =>
          match R with
          | context [map (fun task => task w0) (map ?T feeds)] =>
              assert (Hruns : map (fun task => task w0) (map T' feeds)
                              = map (fun task => task w0) (map T feeds))
          end
      end
  end.
  { rewrite !map_map. apply map_ext_in. intros feed Hin.
    rewrite !run_try_catch. unfold FeedClient.fetchFeed.
    rewrite fetchFeed_from_other_answers by now apply Hf. reflexivity. }
  rewrite Hruns. reflexivity.
Qed.

(** X9. A disabled feed is never requested: [fetchEnabledFeeds] answers
    the same articles, and leaves the same trace, whatever the remote end
    would answer for the feeds that are not enabled. *)
Theorem disabled_feeds_are_not_requested env f options (feeds : list Feed.t)
    (w : World) :
  (forall feed, feed ∈ feeds -> Feed.isEnabled feed = true ->
     forall k, f (Feed.url feed) k = parseURL env (Feed.url feed) k) ->
  FeedClient.fetchEnabledFeeds
    {| parseURL := f; parseDate := parseDate env; now := now env;
       daysBefore := daysBefore env;
       post_reply := post_reply env; fs_fault := fs_fault env |} options feeds w
  = FeedClient.fetchEnabledFeeds env options feeds w.
Proof.
  intros Hf. unfold FeedClient.fetchEnabledFeeds.
  rewrite !run_bind_info. apply fetchFeeds_other_answers.
  intros feed Hin. apply filter_In in Hin as [Hin Hen].
  apply Hf; [ now apply list_elem_of_In | exact Hen ].
Qed.

Lemma disabled_feeds_are_not_requested_witness :
  FeedClient.fetchEnabledFeeds
    {| parseURL := MoreSamples.answers_off_feed; parseDate := parseDate Samples.env;
       now := now Samples.env;
       daysBefore := daysBefore Samples.env; post_reply := post_reply Samples.env;
       fs_fault := fs_fault Samples.env |}
    Samples.fetch_options [Samples.good_feed; MoreSamples.off_feed] Samples.world
  = FeedClient.fetchEnabledFeeds Samples.env Samples.fetch_options
      [Samples.good_feed; MoreSamples.off_feed] Samples.world.
Proof.
  apply (disabled_feeds_are_not_requested Samples.env MoreSamples.answers_off_feed
           Samples.fetch_options [Samples.good_feed; MoreSamples.off_feed] Samples.world).
  intros feed Hin Henabled k.
  apply elem_of_cons in Hin as [->|Hin]; [ reflexivity | ].
  apply list_elem_of_singleton in Hin as ->. discriminate.
Defined.

Lemma filed_lookup (c : Feed.t -> list Article.t) (feeds : list Feed.t) :
  forall (m0 : gmap string (list Article.t)) (name : string),
    fold_left (fun (results : gmap string (list Article.t)) result =>
                 <[fst result := snd result]> results)
              (map (fun feed => (Feed.name feed, c feed)) feeds) m0 !! name
    = match last (filter (fun feed => Feed.name feed = name) feeds) with
      | Some feed => Some (c feed)
      | None => m0 !! name
      end.
Proof.
  induction feeds as [|feed feeds IH]; intros m0 name; [ reflexivity | ].
  cbn [map fold_left fst snd]. rewrite IH, filter_cons.
  destruct (decide (Feed.name feed = name)) as [Heq|Hne].
  - rewrite last_cons.
    destruct (last (filter _ feeds)); [ reflexivity | ].
    rewrite Heq. now rewrite lookup_insert_eq.
  - destruct (last (filter _ feeds)); [ reflexivity | ].
    now rewrite lookup_insert_ne.
Qed.

Lemma parse_task_result env (feed : Feed.t) (w0 w : World) :
  fst (try_catch
         (bind (RssFeedParser.parse env feed 1)
               (fun articles => ret (Feed.name feed, articles)))
         (fun error =>
            bind (logger.error ("Failed to parse feed " +:+ Feed.name feed +:+ ":") error)
                 (fun _ => ret (Feed.name feed, []))) w0)
  = Ok (Feed.name feed,
        match fst (RssFeedParser.parse env feed 1 w) with
        | Ok articles => articles
        | Throw _ => []
        end).
Proof.
  rewrite (blind_parse env feed 1 w w0). rewrite run_try_catch, run_bind.
  destruct (RssFeedParser.parse env feed 1 w0) as [[articles|e] w1]; reflexivity.
Qed.

(** X10. [parseMultiple] never rejects, and files the articles by feed
    name: under a name the map holds what the parser answered for the last
    feed of that name (the empty list if that parse failed), and it holds
    nothing under a name that no feed has.  Articles of an earlier feed
    with the same name are replaced. *)
Theorem parseMultiple_files_by_name env (feeds : list Feed.t) (w : World) :
  exists results,
    fst (RssFeedParser.parseMultiple env feeds w) = Ok results
    /\ forall name,
         results !! name
         = (fun feed => match fst (RssFeedParser.parse env feed 1 w) with
                        | Ok articles => articles
                        | Throw _ => []
                        end)
           <$> last (filter (fun feed => Feed.name feed = name) feeds).
Proof.
  unfold RssFeedParser.parseMultiple.
  rewrite run_bind. unfold fork at 1. rewrite !map_map.
  set (w1 := {| disk := _; fs_calls := _; posts := _; trace := [] |}).
  erewrite (map_ext _ (fun feed => Ok _)).
  2:{ intros feed. apply (parse_task_result env feed w1 w). }
  rewrite <- (map_map _ Ok).
  rewrite run_bind, Promise_all_fulfilled. unfold ret.
  eexists. split; [ reflexivity | ].
  intros name. rewrite filed_lookup.
  destruct (last (filter _ feeds)); [ reflexivity | apply lookup_empty ].
Qed.

(** *** Further properties: delivery *)

Lemma after_posts_after (w : World) (j1 j2 : nat) (n1 n2 : list Event) :
  after_posts (after_posts w j1 n1) j2 n2 = after_posts w (j1 + j2) (n1 ++ n2).
Proof.
  unfold after_posts. cbn. f_equal; [ lia | now rewrite app_assoc ].
Qed.

Ltac send_step :=
  cbn [DiscordNotifier.sendWithRetry_from];
  unfold try_catch, bind, logger.info, logger.warn, logger.error, logger.debug,
    emit, delay, axios_post, ret, throw;
  cbn [trace posts disk fs_calls fst snd].

(** What [sendWithRetry] does to the world, whatever the answers: it posts
    its message some number of times, at most the attempts it has, and
    leaves the file system alone. *)
Lemma send_from_frame env options message remaining attempt lastError w :
  exists new j,
    (j <= remaining)%nat
    /\ snd (DiscordNotifier.sendWithRetry_from env options message remaining attempt
              lastError w) = after_posts w j new
    /\ posts_of new = repeat message j.
Proof.
  revert attempt lastError w.
  induction remaining as [|remaining IH]; intros attempt lastError w.
  - exists [], 0%nat. send_step. unfold after_posts.
    rewrite app_nil_r, Nat.add_0_r. destruct w. repeat split. lia.
  - send_step.
    destruct (post_reply env (posts w)) as [|e].
    + eexists [_; _], 1%nat. cbn [snd]. unfold after_posts.
      rewrite <- app_assoc, Nat.add_1_r. repeat split. lia.
    + destruct (DiscordNotifier.rate_limited e) as [retryAfter|].
      * send_step.
        match goal with
        | |- context [DiscordNotifier.sendWithRetry_from _ _ _ _ _ ?le ?w3] =>
            destruct (IH (attempt + 1) le w3) as (new & j & Hj & Hw & Hposts)
        end.
        rewrite Hw. eexists (_ :: _ :: _ :: _ :: new), (S j).
        unfold after_posts. cbn [trace posts disk fs_calls].
        rewrite <- !app_assoc. split; [ lia | split ].
        -- f_equal. lia.
        -- cbn. now rewrite Hposts.
      * destruct (JS.lt (JS.Num attempt) (DiscordNotifier.maxRetries options));
          send_step;
          match goal with
          | |- context [DiscordNotifier.sendWithRetry_from _ _ _ _ _ ?le ?w3] =>
              destruct (IH (attempt + 1) le w3) as (new & j & Hj & Hw & Hposts)
          end;
          rewrite Hw; [ eexists (_ :: _ :: _ :: _ :: new), (S j)
                      | eexists (_ :: _ :: _ :: new), (S j) ];
          unfold after_posts; cbn [trace posts disk fs_calls];
          rewrite <- !app_assoc;
          (split; [ lia | split; [ f_equal; lia | cbn; now rewrite Hposts ] ]).
Qed.

Lemma send_from_succeeds env options message (k : nat) :
  forall (remaining : nat) (attempt : Z) lastError (w : World),
    (k < remaining)%nat ->
    (forall j, (j < k)%nat -> exists e, post_reply env (posts w + j) = PostFail e) ->
    post_reply env (posts w + k) = PostOk ->
    exists new,
      DiscordNotifier.sendWithRetry_from env options message remaining attempt lastError w
      = (Ok tt, after_posts w (S k) new)
      /\ posts_of new = repeat message (S k).
Proof.
  induction k as [|k IH]; intros remaining attempt lastError w Hk Hfail Hok;
    (destruct remaining as [|remaining]; [ lia | ]); send_step.
  - rewrite Nat.add_0_r in Hok. rewrite Hok.
    eexists [_; _]. unfold after_posts. rewrite <- app_assoc, Nat.add_1_r.
    split; reflexivity.
  - destruct (Hfail 0%nat ltac:(lia)) as [e He]. rewrite Nat.add_0_r in He. rewrite He.
    assert (Hfail' : forall j, (j < k)%nat ->
              exists e, post_reply env (S (posts w) + j) = PostFail e).
    { intros j Hj. destruct (Hfail (S j) ltac:(lia)) as [e' He'].
      exists e'. rewrite <- He'. f_equal. lia. }
    assert (Hok' : post_reply env (S (posts w) + k) = PostOk).
    { rewrite <- Hok. f_equal. lia. }
    destruct (DiscordNotifier.rate_limited e) as [retryAfter|].
    + send_step.
      match goal with
      | |- context [DiscordNotifier.sendWithRetry_from _ _ _ _ _ ?le ?w3] =>
          destruct (IH remaining (attempt + 1) le w3 ltac:(lia) Hfail' Hok')
            as (new & Hrun & Hposts)
      end.
      rewrite Hrun. eexists (_ :: _ :: _ :: _ :: new).
      unfold after_posts. cbn [trace posts disk fs_calls].
      rewrite <- !app_assoc.
      replace (S (posts w) + S k)%nat with (posts w + S (S k))%nat by lia.
      split; [ reflexivity | cbn; now rewrite Hposts ].
    + destruct (JS.lt (JS.Num attempt) (DiscordNotifier.maxRetries options));
        send_step;
        match goal with
        | |- context [DiscordNotifier.sendWithRetry_from _ _ _ _ _ ?le ?w3] =>
            destruct (IH remaining (attempt + 1) le w3 ltac:(lia) Hfail' Hok')
              as (new & Hrun & Hposts)
        end;
        rewrite Hrun; [ eexists (_ :: _ :: _ :: _ :: new)
                      | eexists (_ :: _ :: _ :: new) ];
        unfold after_posts; cbn [trace posts disk fs_calls];
        rewrite <- !app_assoc;
        replace (S (posts w) + S k)%nat with (posts w + S (S k))%nat by lia;
        (split; [ reflexivity | cbn; now rewrite Hposts ]).
Qed.

Lemma exhausted_waits_step env (first r : nat) :
  exhausted_waits env first (S (S r)) = S (exhausted_waits env (S first) (S r)).
Proof.
  unfold exhausted_waits.
  replace (S first + r)%nat with (first + S r)%nat by lia.
  destruct (post_reply env (first + S r)) as [|e]; [ reflexivity | ].
  now destruct (DiscordNotifier.rate_limited e).
Qed.

Lemma send_from_exhausts env options message (remaining : nat) :
  forall (attempt : Z) lastError (w : World),
    JS.iterations (DiscordNotifier.maxRetries options)
    = (remaining + Z.to_nat (attempt - 1))%nat ->
    1 <= attempt ->
    (forall j, (j < remaining)%nat ->
               exists e, post_reply env (posts w + j) = PostFail e) ->
    exists new text,
      DiscordNotifier.sendWithRetry_from env options message remaining attempt lastError w
      = (Throw (ErrorObj NotificationError text), after_posts w remaining new)
      /\ posts_of new = repeat message remaining
      /\ length (delays_of new) = exhausted_waits env (posts w) remaining.
Proof.
  induction remaining as [|remaining IH]; intros attempt lastError w Hit Hat Hfail.
  - send_step. eexists [], _. unfold after_posts.
    rewrite app_nil_r, Nat.add_0_r. destruct w. repeat split.
  - send_step.
    destruct (Hfail 0%nat ltac:(lia)) as [e He]. rewrite Nat.add_0_r in He. rewrite He.
    destruct (iterations_bound _ _ _ Hit Hat) as [Hlt Hit'].
    assert (Hfail' : forall j, (j < remaining)%nat ->
              exists e, post_reply env (S (posts w) + j) = PostFail e).
    { intros j Hj. destruct (Hfail (S j) ltac:(lia)) as [e' He'].
      exists e'. rewrite <- He'. f_equal. lia. }
    rewrite Hlt.
    destruct (DiscordNotifier.rate_limited e) as [retryAfter|] eqn:Erate.
    + send_step.
      match goal with
      | |- context [DiscordNotifier.sendWithRetry_from _ _ _ _ _ ?le ?w3] =>
          destruct (IH (attempt + 1) le w3 Hit' ltac:(lia) Hfail')
            as (new & text & Hrun & Hposts & Hdelays)
      end.
      rewrite Hrun. eexists (_ :: _ :: _ :: _ :: new), text.
      unfold after_posts. cbn [trace posts disk fs_calls].
      rewrite <- !app_assoc.
      replace (S (posts w) + remaining)%nat with (posts w + S remaining)%nat by lia.
      split; [ reflexivity | ]. split; [ cbn; now rewrite Hposts | ].
      cbn [delays_of app length]. rewrite Hdelays. cbn [posts].
      destruct remaining as [|remaining].
      * unfold exhausted_waits. rewrite Nat.add_0_r, He, Erate. reflexivity.
      * now rewrite exhausted_waits_step.
    + destruct remaining as [|remaining]; cbn [Nat.eqb negb].
      * send_step. eexists [_; _; _], _.
        unfold after_posts. cbn [trace posts disk fs_calls].
        rewrite <- !app_assoc.
        replace (S (posts w))%nat with (posts w + 1)%nat by lia.
        split; [ reflexivity | ]. split; [ reflexivity | ].
        unfold exhausted_waits. now rewrite Nat.add_0_r, He, Erate.
      * unfold emit. cbn [trace posts disk fs_calls fst snd].
        match goal with
        | |- context [DiscordNotifier.sendWithRetry_from _ _ _ _ _ ?le ?w3] =>
            destruct (IH (attempt + 1) le w3 Hit' ltac:(lia) Hfail')
              as (new & text & Hrun & Hposts & Hdelays)
        end.
        rewrite Hrun. eexists (_ :: _ :: _ :: _ :: new), text.
        unfold after_posts. cbn [trace posts disk fs_calls].
        rewrite <- !app_assoc.
        replace (S (posts w) + S remaining)%nat
          with (posts w + S (S remaining))%nat by lia.
        split; [ reflexivity | ]. split; [ cbn; now rewrite Hposts | ].
        cbn [delays_of app length]. rewrite Hdelays. cbn [posts].
        now rewrite exhausted_waits_step.
Qed.

Lemma events_of_after_posts {A} (m : M A) (w : World) (j : nat) (new : list Event) :
  snd (m w) = after_posts w j new -> events_of m w = new.
Proof. intros H. unfold events_of. rewrite H. cbn. apply drop_app_length. Qed.

(** X11. [sendWithRetry] delivers with the first POST the webhook accepts,
    provided it comes within [maxRetries] attempts: the call fulfils, the
    message has been posted once per attempt and nothing else has, and the
    storage file has not been touched. *)
Theorem sendWithRetry_delivers_at_first_accepted_post env options message
    (k : nat) (w : World) :
  (k < JS.iterations (DiscordNotifier.maxRetries options))%nat ->
  (forall j, (j < k)%nat -> exists e, post_reply env (posts w + j) = PostFail e) ->
  post_reply env (posts w + k) = PostOk ->
  let send := DiscordNotifier.sendWithRetry env options message in
  fst (send w) = Ok tt
  /\ posts_of (events_of send w) = repeat message (S k)
  /\ posts (snd (send w)) = (posts w + S k)%nat
  /\ disk (snd (send w)) = disk w
  /\ fs_calls (snd (send w)) = fs_calls w.
Proof.
  intros Hk Hfail Hok send. subst send. unfold DiscordNotifier.sendWithRetry.
  destruct (send_from_succeeds env options message k _ 1 None w Hk Hfail Hok)
    as (new & Hrun & Hposts).
  split; [ now rewrite Hrun | ].
  split; [ now rewrite (events_of_after_posts _ w (S k) new) by now rewrite Hrun | ].
  rewrite Hrun. repeat split.
Qed.

Lemma sendWithRetry_delivers_at_first_accepted_post_witness :
  let send := DiscordNotifier.sendWithRetry Samples.env Samples.notify_options
                (NoArticlesMessage ["tech"]) in
  fst (send Samples.world) = Ok tt
  /\ posts_of (events_of send Samples.world) = repeat (NoArticlesMessage ["tech"]) 3
  /\ posts (snd (send Samples.world)) = (posts Samples.world + 3)%nat
  /\ disk (snd (send Samples.world)) = disk Samples.world
  /\ fs_calls (snd (send Samples.world)) = fs_calls Samples.world.
Proof.
  apply (sendWithRetry_delivers_at_first_accepted_post Samples.env
           Samples.notify_options (NoArticlesMessage ["tech"]) 2 Samples.world).
  - vm_compute. lia.
  - intros [|[|j]] Hj; [ eexists; reflexivity | eexists; reflexivity | lia ].
  - reflexivity.
Defined.

(** X12. When every one of its [maxRetries] attempts is answered by a
    failure, [sendWithRetry] rejects with a NotificationError after posting
    the message [maxRetries] times; it has waited after every failed
    attempt but the last, and after the last one too when that failure was
    a rate limit.  With [maxRetries] at most 0, or NaN, it rejects without
    posting.  The storage file is not touched. *)
Theorem sendWithRetry_gives_up env options message (w : World) :
  let n := JS.iterations (DiscordNotifier.maxRetries options) in
  let send := DiscordNotifier.sendWithRetry env options message in
  (forall j, (j < n)%nat -> exists e, post_reply env (posts w + j) = PostFail e) ->
  (exists text, fst (send w) = Throw (ErrorObj NotificationError text))
  /\ posts_of (events_of send w) = repeat message n
  /\ length (delays_of (events_of send w)) = exhausted_waits env (posts w) n
  /\ posts (snd (send w)) = (posts w + n)%nat
  /\ disk (snd (send w)) = disk w
  /\ fs_calls (snd (send w)) = fs_calls w.
Proof.
  intros n send Hfail. subst send. unfold DiscordNotifier.sendWithRetry. fold n.
  destruct (send_from_exhausts env options message n 1 None w) as
    (new & text & Hrun & Hposts & Hdelays); [ subst n; lia | lia | exact Hfail | ].
  split; [ exists text; now rewrite Hrun | ].
  rewrite (events_of_after_posts _ w n new) by now rewrite Hrun.
  rewrite Hrun. repeat split; assumption.
Qed.

Lemma sendWithRetry_gives_up_witness :
  let options := DiscordNotifier.new (Some (JS.Num 2)) None in
  let send := DiscordNotifier.sendWithRetry Samples.env options
                (NoArticlesMessage ["tech"]) in
  (exists text, fst (send Samples.world) = Throw (ErrorObj NotificationError text))
  /\ posts_of (events_of send Samples.world) = repeat (NoArticlesMessage ["tech"]) 2
  /\ length (delays_of (events_of send Samples.world)) = 2%nat
  /\ posts (snd (send Samples.world)) = (posts Samples.world + 2)%nat
  /\ disk (snd (send Samples.world)) = disk Samples.world
  /\ fs_calls (snd (send Samples.world)) = fs_calls Samples.world.
Proof.
  apply (sendWithRetry_gives_up Samples.env (DiscordNotifier.new (Some (JS.Num 2)) None)
           (NoArticlesMessage ["tech"]) Samples.world).
  intros [|[|j]] Hj; [ eexists; reflexivity | eexists; reflexivity | ].
  vm_compute in Hj. lia.
Defined.

Lemma notifyError_run env options (error : Thrown) (w : World) :
  exists new j,
    DiscordNotifier.notifyError env options error w = (Ok tt, after_posts w j new)
    /\ (j <= JS.iterations (DiscordNotifier.maxRetries options))%nat
    /\ posts_of new = repeat (MessageFormatter.formatError error) j.
Proof.
  unfold DiscordNotifier.notifyError, DiscordNotifier.sendWithRetry.
  destruct (send_from_frame env options (MessageFormatter.formatError error)
              (JS.iterations (DiscordNotifier.maxRetries options)) 1 None w)
    as (new & j & Hj & Hw & Hposts).
  unfold try_catch, bind, logger.info, logger.error, emit, ret.
  destruct (DiscordNotifier.sendWithRetry_from _ _ _ _ _ _ w) as [[[]|e] w'];
    cbn [fst snd] in *; subst w'; eexists (new ++ [_]), j;
    unfold after_posts; cbn [trace posts disk fs_calls]; rewrite <- app_assoc;
    (split; [ reflexivity | split; [ exact Hj | ] ]);
    rewrite posts_of_app, Hposts; cbn; apply app_nil_r.
Qed.

(** X13. [DiscordNotifier.notifyError] never rejects, whatever the webhook
    answers: it posts the error notice at most [maxRetries] times, posts
    nothing else, and does not touch the storage file. *)
Theorem notifyError_is_best_effort env options (error : Thrown) (w : World) :
  let notify := DiscordNotifier.notifyError env options error in
  fst (notify w) = Ok tt
  /\ (exists j, (j <= JS.iterations (DiscordNotifier.maxRetries options))%nat
                /\ posts_of (events_of notify w)
                   = repeat (MessageFormatter.formatError error) j
                /\ posts (snd (notify w)) = (posts w + j)%nat)
  /\ disk (snd (notify w)) = disk w
  /\ fs_calls (snd (notify w)) = fs_calls w.
Proof.
  intros notify. subst notify.
  destruct (notifyError_run env options error w) as (new & j & Hrun & Hj & Hposts).
  rewrite (events_of_after_posts _ w j new) by now rewrite Hrun.
  rewrite Hrun. cbn. repeat split. exists j. repeat split; assumption.
Qed.

(** X14. The error notice of the use case never rejects either: the
    notifier has already absorbed a failed delivery, so the handler that
    would log and re-throw is never entered.  The run ends with the log
    line of the successful path. *)
Theorem usecase_notifyError_never_rejects env options (error : Thrown) (w : World) :
  let notify := NotifyArticlesUseCase.notifyError env options error in
  fst (notify w) = Ok tt
  /\ last (trace (snd (notify w))) = Some (Log LInfo "Notified error to Discord" None)
  /\ disk (snd (notify w)) = disk w
  /\ fs_calls (snd (notify w)) = fs_calls w.
Proof.
  intros notify. subst notify. unfold NotifyArticlesUseCase.notifyError.
  destruct (notifyError_run env options error w) as (new & j & Hrun & _ & _).
  unfold try_catch, bind. rewrite Hrun.
  unfold logger.info, emit, after_posts. cbn [fst snd trace posts disk fs_calls].
  repeat split. apply last_snoc.
Qed.

(** *** Further properties: the storage file *)

Lemma only_StorageError_ret {A} (a : A) : rejects_only_StorageError (ret a).
Proof. intros w e. discriminate. Qed.

Lemma only_StorageError_log level message detail :
  rejects_only_StorageError (emit (Log level message detail)).
Proof. intros w e. discriminate. Qed.

Lemma only_StorageError_bind {A B} (m : M A) (k : A -> M B) :
  rejects_only_StorageError m ->
  (forall a, rejects_only_StorageError (k a)) ->
  rejects_only_StorageError (bind m k).
Proof.
  intros Hm Hk w e. rewrite run_bind.
  specialize (Hm w). destruct (m w) as [[a|e0] w1]; cbn [fst] in *.
  - apply Hk.
  - intros [= <-]. now apply Hm.
Qed.

(** A handler that logs and throws the error on. *)
Lemma only_StorageError_rethrow {A} (m : M A) (message : string) :
  rejects_only_StorageError m ->
  rejects_only_StorageError
    (try_catch m (fun error => logger.error message error ;; throw error)).
Proof.
  intros Hm w e. rewrite run_try_catch.
  specialize (Hm w). destruct (m w) as [[a|e0] w1]; cbn [fst] in *.
  - discriminate.
  - intros [= <-]. now apply Hm.
Qed.

(** The handlers of the storage class: a StorageError is thrown on,
    anything else is wrapped into one. *)
Lemma only_StorageError_wrap {A} (m : M A) (handler : Thrown -> M A) :
  (forall e w, exists e', fst (handler e w) = Throw e'
                          /\ instanceof_StorageError e' = true) ->
  rejects_only_StorageError (try_catch m handler).
Proof.
  intros Hh w e. rewrite run_try_catch.
  destruct (m w) as [[a|e0] w1]; cbn [fst]; [ discriminate | ].
  destruct (Hh e0 w1) as (e' & -> & He'). now intros [= <-].
Qed.

Ltac storage_handler :=
  apply only_StorageError_wrap; intros e w; unfold throw;
  repeat match goal with
         | |- context [if ?b then _ else _] => destruct b eqn:?
         end;
  eexists; split; try reflexivity; try assumption.

Lemma loadArticles_only_StorageError env path :
  rejects_only_StorageError (ArticleStorage.loadArticles env path).
Proof. unfold ArticleStorage.loadArticles. storage_handler. Qed.

Lemma saveArticles_only_StorageError env path articles :
  rejects_only_StorageError (ArticleStorage.saveArticles env path articles).
Proof. unfold ArticleStorage.saveArticles. storage_handler. Qed.

Lemma appendArticles_only_StorageError env path articles :
  rejects_only_StorageError (ArticleStorage.appendArticles env path articles).
Proof. unfold ArticleStorage.appendArticles. storage_handler. Qed.

Lemma cleanupOldArticles_only_StorageError env path days :
  rejects_only_StorageError (ArticleStorage.cleanupOldArticles env path days).
Proof. unfold ArticleStorage.cleanupOldArticles. storage_handler. Qed.

(** X15. Whatever the file system does, every method of
    FileArticleRepository that rejects, rejects with a StorageError: the
    storage class wraps every other error, and the repository logs and
    throws on what it caught. *)
Theorem repository_rejects_only_with_StorageError env path :
  let repo := FileArticleRepository.new env path in
  rejects_only_StorageError (findReadArticleIds repo)
  /\ (forall articleId, rejects_only_StorageError (isArticleRead repo articleId))
  /\ (forall article, rejects_only_StorageError (saveReadArticle repo article))
  /\ (forall articles, rejects_only_StorageError (saveReadArticles repo articles))
  /\ (forall days, rejects_only_StorageError (cleanupOldArticles repo days)).
Proof.
  cbn.
  assert (Hfind : rejects_only_StorageError
                    (FileArticleRepository.findReadArticleIds env path)).
  { apply only_StorageError_rethrow, only_StorageError_bind;
      [ apply loadArticles_only_StorageError | ].
    intros a. apply only_StorageError_bind;
      [ apply only_StorageError_log | intros; apply only_StorageError_ret ]. }
  split; [ exact Hfind | ].
  split; [ | split; [ | split ] ].
  - intros articleId. apply only_StorageError_rethrow, only_StorageError_bind;
      [ exact Hfind | ].
    intros a. apply only_StorageError_bind;
      [ apply only_StorageError_log | intros; apply only_StorageError_ret ].
  - intros article. apply only_StorageError_rethrow, only_StorageError_bind;
      [ apply appendArticles_only_StorageError | intros; apply only_StorageError_log ].
  - intros articles. apply only_StorageError_rethrow.
    destruct (Nat.eqb (length articles) 0); [ apply only_StorageError_log | ].
    apply only_StorageError_bind;
      [ apply appendArticles_only_StorageError | intros; apply only_StorageError_log ].
  - intros days. apply only_StorageError_rethrow, only_StorageError_bind;
      [ apply cleanupOldArticles_only_StorageError | intros; apply only_StorageError_log ].
Qed.

Lemma persisted_spec (a : Article.t) :
  Article.fromPlainObject (Article.toPlainObject a) = persisted a.
Proof. reflexivity. Qed.

Lemma persisted_fromPlainObject (o : Article.plain) :
  persisted (Article.fromPlainObject o) = Article.fromPlainObject o.
Proof. reflexivity. Qed.

Lemma persisted_id (a : Article.t) : Article.id (persisted a) = Article.id a.
Proof. reflexivity. Qed.

Lemma stored_written (w : World) (l : list Article.t) :
  disk w = Some (ArticlesJson (map Article.toPlainObject l)) ->
  stored w = map persisted l.
Proof. intros H. unfold stored. rewrite H, map_map. reflexivity. Qed.

Lemma persisted_stored (w : World) : map persisted (stored w) = stored w.
Proof.
  unfold stored. destruct (disk w) as [[| |items]|]; try reflexivity.
  rewrite map_map. reflexivity.
Qed.

(** What [loadArticles] answers when the file system rejects neither of
    its two calls and the file, if there is one, holds JSON. *)
Lemma loadArticles_reads env path (w : World) :
  fs_fault env (fs_calls w) = None ->
  fs_fault env (S (fs_calls w)) = None ->
  (forall why, disk w <> Some (NotJson why)) ->
  fst (ArticleStorage.loadArticles env path w) = Ok (stored w).
Proof.
  intros H0 H1 Hjson. unfold ArticleStorage.loadArticles, stored. unfold_effects.
  rewrite H0. destruct (disk w) as [c|] eqn:Hd; sim; [ | reflexivity ].
  rewrite H1. destruct c; sim; try reflexivity. now destruct (Hjson why).
Qed.

Lemma saveArticles_writes env path (articles : list Article.t) (w : World) :
  fs_fault env (fs_calls w) = None ->
  fs_fault env (S (fs_calls w)) = None ->
  let run := ArticleStorage.saveArticles env path articles w in
  fst run = Ok tt
  /\ disk (snd run) = Some (ArticlesJson (map Article.toPlainObject articles))
  /\ fs_calls (snd run) = S (S (fs_calls w)).
Proof.
  intros H0 H1. unfold ArticleStorage.saveArticles. unfold_effects.
  rewrite H0. sim. rewrite H1. sim. repeat split.
Qed.

(** X16. Saving and loading again gives the articles back in order, each
    with the fields the file keeps (title, url, date, feed name,
    description, hence the same id) and without its content, when the file
    system rejects none of the four calls involved. *)
Theorem save_then_load env path (articles : list Article.t) (w : World) :
  (forall k, (k < 4)%nat -> fs_fault env (fs_calls w + k) = None) ->
  let saved := ArticleStorage.saveArticles env path articles w in
  let loaded := ArticleStorage.loadArticles env path (snd saved) in
  fst saved = Ok tt
  /\ fst loaded = Ok (map persisted articles)
  /\ map Article.id (map persisted articles) = map Article.id articles.
Proof.
  intros Hok saved loaded. subst saved loaded.
  pose proof (Hok 0%nat ltac:(lia)) as H0. rewrite Nat.add_0_r in H0.
  pose proof (Hok 1%nat ltac:(lia)) as H1. rewrite Nat.add_1_r in H1.
  pose proof (Hok 2%nat ltac:(lia)) as H2.
  pose proof (Hok 3%nat ltac:(lia)) as H3.
  destruct (saveArticles_writes env path articles w H0 H1) as (Hs & Hd & Hc).
  split; [ exact Hs | ]. split.
  - rewrite loadArticles_reads.
    + f_equal. now apply stored_written.
    + rewrite Hc. rewrite <- H2. f_equal. lia.
    + rewrite Hc. rewrite <- H3. f_equal. lia.
    + intros why. rewrite Hd. discriminate.
  - rewrite map_map. reflexivity.
Qed.

Lemma save_then_load_witness :
  let saved := ArticleStorage.saveArticles Samples.env Samples.storagePath
                 [Samples.alpha; Samples.beta] Samples.world in
  let loaded := ArticleStorage.loadArticles Samples.env Samples.storagePath (snd saved) in
  fst saved = Ok tt
  /\ fst loaded = Ok (map persisted [Samples.alpha; Samples.beta])
  /\ map Article.id (map persisted [Samples.alpha; Samples.beta])
     = map Article.id [Samples.alpha; Samples.beta].
Proof.
  apply (save_then_load Samples.env Samples.storagePath [Samples.alpha; Samples.beta]
           Samples.world).
  intros k Hk. reflexivity.
Defined.

Lemma appendArticles_stored env path (batch : list Article.t) (w : World) :
  fs_fault env (fs_calls w) = None ->
  fst (ArticleStorage.appendArticles env path batch w) = Ok tt ->
  stored (snd (ArticleStorage.appendArticles env path batch w))
  = stored w ++ map persisted (unseen (stored w) batch).
Proof.
  intros Hok.
  destruct (ArticleStorage.appendArticles env path batch w) as [r w'] eqn:E.
  cbn [fst snd]. intros ->.
  destruct (appendArticles_cases _ _ _ _ _ _ E)
    as [(e & He & _)|[(existing & Hl & Hnil & _ & Hd)|(existing & Hl & _ & _ & Hd)]];
    [ discriminate | | ];
    apply (loadArticles_stored env path w existing Hok) in Hl; subst existing.
  - rewrite (stored_of_disk _ _ Hd). unfold unseen. rewrite Hnil. cbn.
    now rewrite app_nil_r.
  - rewrite (stored_written _ _ Hd), map_app, persisted_stored. reflexivity.
Qed.

(** X17. A successful [appendArticles] never loses or reorders a record:
    the file afterwards holds what it held before, followed by the
    articles of the batch whose id was not on file, in batch order (when
    the file system has not rejected the opening existence check). *)
Theorem appendArticles_extends_the_file env path (batch : list Article.t) (w : World) :
  fs_fault env (fs_calls w) = None ->
  fst (ArticleStorage.appendArticles env path batch w) = Ok tt ->
  let after := stored (snd (ArticleStorage.appendArticles env path batch w)) in
  after = stored w ++ map persisted (unseen (stored w) batch)
  /\ stored w `prefix_of` after
  /\ sublist (map Article.id (drop (length (stored w)) after)) (map Article.id batch).
Proof.
  intros Hok Hrun after. subst after.
  rewrite (appendArticles_stored env path batch w Hok Hrun).
  split; [ reflexivity | ]. split; [ now eexists | ].
  rewrite drop_app_length, map_map.
  unfold unseen. apply (fmap_sublist Article.id). apply filter_bool_sublist.
Qed.

Lemma appendArticles_extends_the_file_witness :
  let batch := [Samples.old_news; Samples.tech_news] in
  let after := stored (snd (ArticleStorage.appendArticles Samples.env Samples.storagePath
                              batch Samples.world)) in
  after = stored Samples.world ++ map persisted (unseen (stored Samples.world) batch)
  /\ stored Samples.world `prefix_of` after
  /\ sublist (map Article.id (drop (length (stored Samples.world)) after))
             (map Article.id batch).
Proof.
  apply (appendArticles_extends_the_file Samples.env Samples.storagePath
           [Samples.old_news; Samples.tech_news] Samples.world);
    vm_compute; reflexivity.
Defined.

Lemma loadArticles_access_rejected env path (w : World) (e : Thrown) :
  fs_fault env (fs_calls w) = Some e ->
  exists new,
    ArticleStorage.loadArticles env path w
    = (Ok [], {| disk := disk w; fs_calls := S (fs_calls w); posts := posts w;
                 trace := trace w ++ new |}).
Proof.
  intros He. unfold ArticleStorage.loadArticles. unfold_effects. rewrite He. sim.
  eexists. reflexivity.
Qed.

Lemma unseen_nil (batch : list Article.t) : unseen [] batch = batch.
Proof.
  unfold unseen. apply filter_bool_all. intros a.
  apply negb_true_iff, bool_decide_eq_false. cbn. set_solver.
Qed.

(** X18. [loadArticles] reads any rejection of the existence check as an
    absent file.  So when the file system rejects that check (whatever the
    reason) and then accepts the write, [appendArticles] of a non-empty
    batch fulfils and the file holds the batch alone: the records that
    were on file are gone. *)
Theorem rejected_existence_check_replaces_the_file env path
    (batch : list Article.t) (w : World) (e : Thrown) :
  fs_fault env (fs_calls w) = Some e ->
  fs_fault env (fs_calls w + 1) = None ->
  fs_fault env (fs_calls w + 2) = None ->
  batch <> [] ->
  let run := ArticleStorage.appendArticles env path batch w in
  fst run = Ok tt
  /\ disk (snd run) = Some (ArticlesJson (map Article.toPlainObject batch))
  /\ stored (snd run) = map persisted batch.
Proof.
  intros He H1 H2 Hne run. subst run.
  assert (Hrun : fst (ArticleStorage.appendArticles env path batch w) = Ok tt
                 /\ disk (snd (ArticleStorage.appendArticles env path batch w))
                    = Some (ArticlesJson (map Article.toPlainObject batch))).
  { unfold ArticleStorage.appendArticles. rewrite run_try_catch, run_bind.
    destruct (loadArticles_access_rejected env path w e He) as [new ->].
    fold (unseen [] batch). rewrite unseen_nil. cbn [app].
    destruct batch as [|a batch]; [ now destruct Hne | ].
    cbn [length Nat.eqb]. rewrite run_bind.
    match goal with
    | |- context [ArticleStorage.saveArticles env path ?l ?w1] =>
        destruct (saveArticles_writes env path l w1) as (Hs & Hd & _);
        [ cbn [fs_calls]; rewrite <- H1; f_equal; lia
        | cbn [fs_calls]; rewrite <- H2; f_equal; lia | ];
        destruct (ArticleStorage.saveArticles env path l w1) as [r w2]
    end.
    cbn [fst snd] in *. subst r. unfold logger.info, emit. cbn [fst snd disk].
    split; [ reflexivity | exact Hd ]. }
  destruct Hrun as [Hr Hd]. split; [ exact Hr | ]. split; [ exact Hd | ].
  now apply stored_written.
Qed.

Lemma rejected_existence_check_replaces_the_file_witness :
  let run := ArticleStorage.appendArticles MoreSamples.env_access_denied
               Samples.storagePath [Samples.tech_news] Samples.world in
  fst run = Ok tt
  /\ disk (snd run) = Some (ArticlesJson (map Article.toPlainObject [Samples.tech_news]))
  /\ stored (snd run) = map persisted [Samples.tech_news].
Proof.
  apply (rejected_existence_check_replaces_the_file MoreSamples.env_access_denied
           Samples.storagePath [Samples.tech_news] Samples.world
           (ErrorObj PlainError "EACCES: permission denied"));
    [ reflexivity | reflexivity | reflexivity | discriminate ].
Defined.

Lemma filter_bool_same_length {A} (p : A -> bool) (l : list A) :
  (length l - length (List.filter p l))%nat = 0%nat -> List.filter p l = l.
Proof.
  induction l as [|x l IH]; [ reflexivity | ].
  cbn [List.filter]. pose proof (sublist_length _ _ (filter_bool_sublist p l)) as Hle.
  destruct (p x); cbn [length]; intros H.
  - f_equal. apply IH. lia.
  - lia.
Qed.

Lemma persisted_filter_stored (p : Article.t -> bool) (w : World) :
  map persisted (List.filter p (stored w)) = List.filter p (stored w).
Proof.
  assert (H : Forall (fun a => persisted a = a) (stored w)).
  { rewrite <- (persisted_stored w) at 1. 
    generalize (stored w). intros l. induction l as [|a l IH]; constructor;
      [ destruct a; reflexivity | exact IH ]. }
  induction H as [|a l Ha H IH]; [ reflexivity | ].
  cbn [List.filter]. destruct (p a); [ cbn [map]; now rewrite Ha, IH | exact IH ].
Qed.

(** How [cleanupOldArticles] leaves the file: as it was, or holding the
    recent ones of the articles it loaded. *)
Lemma cleanupOldArticles_cases env path days (w : World) :
  let run := ArticleStorage.cleanupOldArticles env path days w in
  stored (snd run) = stored w
  /\ (forall articles,
        fst (ArticleStorage.loadArticles env path w) = Ok articles ->
        fst run = Ok tt ->
        List.filter (recent env days) articles = articles)
  \/ exists articles,
       fst (ArticleStorage.loadArticles env path w) = Ok articles
       /\ stored (snd run) = map persisted (List.filter (recent env days) articles).
Proof.
  cbn zeta. unfold ArticleStorage.cleanupOldArticles.
  rewrite run_try_catch, run_bind.
  pose proof (loadArticles_disk env path w) as Hload.
  destruct (ArticleStorage.loadArticles env path w) as [[articles|e] w1] eqn:Hrun;
    cbn [fst snd] in *.
  - fold (recent env days).
    destruct (Nat.ltb 0 (length articles
                         - length (List.filter (recent env days) articles))) eqn:Hcount.
    + rewrite run_bind.
      pose proof (saveArticles_disk env path
                    (List.filter (recent env days) articles) w1) as Hsave.
      cbn zeta in Hsave.
      destruct (ArticleStorage.saveArticles env path _ w1) as [[[]|e] w2];
        cbn [fst snd] in *.
      * right. exists articles. split; [ reflexivity | ].
        unfold logger.info, emit. cbn [snd]. unfold stored at 1. cbn [disk].
        rewrite Hsave, map_map. reflexivity.
      * left. split.
        -- apply stored_of_disk.
           destruct (instanceof_StorageError e); [ | destruct (instanceof_Error e) ];
             cbn [throw snd]; congruence.
        -- intros ? _.
           destruct (instanceof_StorageError e); [ | destruct (instanceof_Error e) ];
             discriminate.
    + left. unfold logger.info, emit. cbn [fst snd]. split.
      * apply stored_of_disk. exact Hload.
      * intros ? [= <-] _. apply filter_bool_same_length.
        apply Nat.ltb_ge in Hcount. lia.
  - left. split.
    + apply stored_of_disk.
      destruct (instanceof_StorageError e); [ | destruct (instanceof_Error e) ];
        cbn [throw snd]; congruence.
    + intros ? [=].
Qed.

(** X19. [cleanupOldArticles] only removes: however it ends, what the file
    holds afterwards is what it held before with some records left out,
    the others in their order. *)
Theorem cleanupOldArticles_only_removes env path days (w : World) :
  sublist (stored (snd (ArticleStorage.cleanupOldArticles env path days w))) (stored w).
Proof.
  destruct (cleanupOldArticles_cases env path days w)
    as [[-> _]|(articles & Hl & ->)]; [ reflexivity | ].
  destruct (loadArticles_result env path w articles Hl) as [->| ->].
  - rewrite persisted_filter_stored. apply filter_bool_sublist.
  - apply sublist_nil_l.
Qed.

(** X20. When it fulfils (and the file system has not rejected the opening
    existence check), [cleanupOldArticles] leaves on file exactly the
    articles published at or after its cutoff date, the date that
    [setDate(getDate() - retentionDays)] makes of the current one.  With
    NaN for [retentionDays] the cutoff is an invalid date, no date passes
    the comparison and the file is emptied. *)
Theorem cleanupOldArticles_keeps_recent env path days (w : World) :
  fs_fault env (fs_calls w) = None ->
  fst (ArticleStorage.cleanupOldArticles env path days w) = Ok tt ->
  let after := stored (snd (ArticleStorage.cleanupOldArticles env path days w)) in
  after = List.filter (recent env days) (stored w)
  /\ (days = JS.NaN -> after = []).
Proof.
  intros Hok Hrun after. subst after.
  assert (H : stored (snd (ArticleStorage.cleanupOldArticles env path days w))
              = List.filter (recent env days) (stored w)).
  { destruct (ArticleStorage.loadArticles env path w) as [[articles|e] w1] eqn:Hl.
    - pose proof (loadArticles_stored env path w articles Hok) as Hst.
      rewrite Hl in Hst. specialize (Hst eq_refl). subst articles.
      destruct (cleanupOldArticles_cases env path days w)
        as [[-> Hsame]|(articles & Hl' & ->)].
      + symmetry. apply Hsame; [ now rewrite Hl | exact Hrun ].
      + rewrite Hl in Hl'. injection Hl' as <-. apply persisted_filter_stored.
    - exfalso. revert Hrun. unfold ArticleStorage.cleanupOldArticles.
      rewrite run_try_catch, run_bind, Hl.
      destruct (instanceof_StorageError e); [ | destruct (instanceof_Error e) ];
        discriminate. }
  split; [ exact H | ].
  intros ->. rewrite H. apply filter_bool_none. intros a. reflexivity.
Qed.

Lemma cleanupOldArticles_keeps_recent_witness :
  let after := stored (snd (ArticleStorage.cleanupOldArticles Samples.env
                              Samples.storagePath (JS.Num 30) Samples.world)) in
  after = List.filter (recent Samples.env (JS.Num 30)) (stored Samples.world)
  /\ (JS.Num 30 = JS.NaN -> after = []).
Proof.
  apply (cleanupOldArticles_keeps_recent Samples.env Samples.storagePath (JS.Num 30)
           Samples.world); reflexivity.
Defined.

(** *** Further properties: the repository *)

Lemma findReadArticleIds_reads env path (w : World) :
  fs_fault env (fs_calls w) = None ->
  fs_fault env (S (fs_calls w)) = None ->
  (forall why, disk w <> Some (NotJson why)) ->
  fst (FileArticleRepository.findReadArticleIds env path w)
  = Ok (map Article.id (stored w)).
Proof.
  intros H0 H1 Hjson. unfold FileArticleRepository.findReadArticleIds.
  rewrite run_try_catch, run_bind.
  pose proof (loadArticles_reads env path w H0 H1 Hjson) as Hl.
  destruct (ArticleStorage.loadArticles env path w) as [r w1]. cbn [fst] in Hl.
  subst r. reflexivity.
Qed.

(** X21. An article saved as read is read: after [saveReadArticle] has
    fulfilled, [isArticleRead] answers true for the article's id, when the
    file system rejects neither of the two calls of that look-up. *)
Theorem saved_article_is_read env path (article : Article.t) (w : World) :
  let saved := FileArticleRepository.saveReadArticle env path article w in
  fst saved = Ok tt ->
  fs_fault env (fs_calls (snd saved)) = None ->
  fs_fault env (S (fs_calls (snd saved))) = None ->
  fst (FileArticleRepository.isArticleRead env path (Article.id article) (snd saved))
  = Ok true.
Proof.
  intros saved. subst saved. unfold FileArticleRepository.saveReadArticle.
  rewrite run_try_catch, run_bind.
  pose proof (appendArticles_then_present env path [article] w) as Hpresent.
  destruct (ArticleStorage.appendArticles env path [article] w) as [[[]|e] w1];
    cbn [fst snd] in *; [ | discriminate ].
  intros _ H0 H1.
  specialize (Hpresent eq_refl article ltac:(left)).
  unfold logger.debug, emit in H0, H1 |- *. cbn [fst snd fs_calls] in H0, H1 |- *.
  set (w2 := {| disk := disk w1; fs_calls := fs_calls w1; posts := posts w1;
                trace := trace w1 ++ _ |}).
  assert (Hst : stored w2 = stored w1) by now apply stored_of_disk.
  unfold FileArticleRepository.isArticleRead. rewrite run_try_catch, run_bind.
  rewrite (surjective_pairing (FileArticleRepository.findReadArticleIds env path w2)).
  rewrite findReadArticleIds_reads; [ | exact H0 | exact H1 | ].
  - rewrite Hst. rewrite bool_decide_eq_true_2 by exact Hpresent. reflexivity.
  - intros why Hd. unfold stored in Hpresent. cbn [disk w2] in Hd.
    rewrite Hd in Hpresent. inversion Hpresent.
Qed.

Lemma saved_article_is_read_witness :
  let saved := FileArticleRepository.saveReadArticle Samples.env Samples.storagePath
                 Samples.tech_news Samples.world in
  fst (FileArticleRepository.isArticleRead Samples.env Samples.storagePath
         (Article.id Samples.tech_news) (snd saved))
  = Ok true.
Proof.
  apply (saved_article_is_read Samples.env Samples.storagePath Samples.tech_news
           Samples.world); vm_compute; reflexivity.
Defined.

(** *** Further properties: the use cases *)

Lemma with_events_with_events (w : World) (n1 n2 : list Event) :
  with_events (with_events w n1) n2 = with_events w (n1 ++ n2).
Proof. unfold with_events. cbn. now rewrite app_assoc. Qed.

(** [fetchFeeds] fulfils and does nothing to the world but add events. *)
Lemma fetchFeeds_run env options (feeds : list Feed.t) (w : World) :
  exists articles new,
    FeedClient.fetchFeeds env options feeds w = (Ok articles, with_events w new).
Proof.
  unfold FeedClient.fetchFeeds.
  unfold bind at 1. unfold logger.info at 1, emit at 1.
  unfold bind at 1. unfold fork at 1.
  rewrite !map_map.
  set (w1 := {| disk := _; fs_calls := _; posts := _; trace := [] |}).
  erewrite (map_ext _ (fun feed => Ok _)).
  2:{ intros feed. apply (fetch_task_contribution env options feed w1 w). }
  rewrite <- (map_map _ Ok).
  unfold bind at 1. rewrite Promise_all_fulfilled.
  unfold bind, logger.info, emit, ret, with_events. cbn [trace posts disk fs_calls].
  eexists _, (_ :: _ :: _ :: nil). rewrite <- !app_assoc. reflexivity.
Qed.

Lemma fetchArticlesFromFeeds_run env options (feeds : list Feed.t) (w : World) :
  exists articles new,
    FetchArticlesUseCase.fetchArticlesFromFeeds env options feeds w
    = (Ok articles, with_events w new).
Proof.
  unfold FetchArticlesUseCase.fetchArticlesFromFeeds, FeedClient.fetchEnabledFeeds.
  rewrite run_bind_info.
  destruct (Nat.eqb _ 0).
  - unfold bind, logger.warn, logger.info, emit, ret, with_events.
    cbn [trace posts disk fs_calls snd]. eexists _, (_ :: _ :: nil).
    rewrite <- !app_assoc. reflexivity.
  - rewrite run_bind_info.
    match goal with
    | |- context [FeedClient.fetchFeeds env options ?fs ?w1] =>
        destruct (fetchFeeds_run env options fs w1) as (articles & new & ->)
    end.
    unfold logger.info, emit, with_events. cbn [trace posts disk fs_calls snd].
    eexists articles, (_ :: _ :: new). rewrite <- !app_assoc. reflexivity.
Qed.

Lemma filterByKeywords_run (articles : list Article.t) (keywords : list string)
    (w : World) :
  exists filtered new,
    FetchArticlesUseCase.filterByKeywords articles keywords w
    = (Ok filtered, with_events w new)
    /\ sublist filtered articles
    /\ (keywords = [] -> filtered = articles).
Proof.
  unfold FetchArticlesUseCase.filterByKeywords.
  destruct keywords as [|k keywords]; cbn [length Nat.eqb].
  - unfold bind, logger.info, emit, ret, with_events. cbn [trace posts disk fs_calls].
    eexists articles, [_].
    split; [ reflexivity | ]. split; [ reflexivity | intros _; reflexivity ].
  - unfold ArticleFilter.new. cbn [length Nat.eqb]. unfold ret.
    eexists _, []. unfold with_events. rewrite app_nil_r. destruct w.
    split; [ reflexivity | ]. split; [ apply filter_bool_sublist | discriminate ].
Qed.

(** The run of [FetchArticlesUseCase.execute], step by step: fetching and
    filtering fulfil and only add events; the repository is then asked for
    the ids read, in a world with the storage as it was; what it rejects
    with, [execute] rejects with, and what it answers decides the output. *)
Lemma fetch_execute_run env feedClient (repo : IArticleRepository)
    (input : FetchArticlesUseCase.FetchArticlesInput) (w : World) :
  exists (fetched filtered : list Article.t) (new : list Event),
    sublist filtered fetched
    /\ (FetchArticlesUseCase.keywords input = [] -> filtered = fetched)
    /\ match fst (findReadArticleIds repo (with_events w new)) with
       | Throw e =>
           fst (FetchArticlesUseCase.execute env feedClient repo input w) = Throw e
       | Ok ids =>
           let news := ArticleFilterService.excludeReadArticles filtered
                         (list_to_set ids) in
           fst (FetchArticlesUseCase.execute env feedClient repo input w)
           = Ok {| FetchArticlesUseCase.articles :=
                     ArticleDTO.fromDomainList
                       (capped (FetchArticlesUseCase.maxArticles input)
                               (ArticleFilterService.sortByPublishedDate news));
                   FetchArticlesUseCase.totalFetched := length fetched;
                   FetchArticlesUseCase.totalFiltered := length filtered;
                   FetchArticlesUseCase.newArticles := length news |}
       end.
Proof.
  unfold FetchArticlesUseCase.execute.
  rewrite run_bind_info, run_bind.
  match goal with
  | |- context [FetchArticlesUseCase.fetchArticlesFromFeeds env feedClient ?fs ?w1] =>
      destruct (fetchArticlesFromFeeds_run env feedClient fs w1)
        as (fetched & new1 & ->)
  end.
  rewrite run_bind_info, run_bind.
  match goal with
  | |- context [FetchArticlesUseCase.filterByKeywords fetched ?ks ?w1] =>
      destruct (filterByKeywords_run fetched ks w1)
        as (filtered & new2 & -> & Hsub & Hall)
  end.
  rewrite run_bind_info. unfold FetchArticlesUseCase.excludeReadArticles.
  rewrite !run_bind.
  match goal with
  | |- context [findReadArticleIds repo ?w1] =>
      assert (Hw : exists new, w1 = with_events w new);
      [ | set (w2 := w1) in *; clearbody w2 ]
  end.
  { unfold logger.info, emit, with_events. cbn [trace posts disk fs_calls snd].
    eexists. rewrite <- !app_assoc. reflexivity. }
  destruct Hw as [new ->].
  exists fetched, filtered, new. split; [ exact Hsub | ]. split; [ exact Hall | ].
  destruct (findReadArticleIds repo (with_events w new)) as [[ids|e] w3];
    cbn [fst]; [ | reflexivity ].
  rewrite !run_bind_info. reflexivity.
Qed.

Lemma sort_length (l : list Article.t) :
  length (ArticleFilterService.sortByPublishedDate l) = length l.
Proof. symmetry. apply Permutation_length, sort_perm. Qed.

Lemma capped_length (maxArticles : option JS.number) (l : list Article.t) :
  (length (capped maxArticles l) <= length l)%nat.
Proof.
  unfold capped. destruct maxArticles as [maxCount|]; [ | lia ].
  destruct (JS.truthy maxCount); [ | lia ].
  unfold ArticleFilterService.limitArticles, JS.slice0.
  destruct maxCount as [z|]; [ | cbn; lia ].
  rewrite length_take. lia.
Qed.

Lemma capped_positive (n : nat) (l : list Article.t) :
  (0 < n)%nat -> length (capped (Some (JS.Num (Z.of_nat n))) l) = Nat.min n (length l).
Proof.
  intros Hn. unfold capped, JS.truthy.
  destruct (Z.eqb_spec (Z.of_nat n) 0) as [|_]; [ lia | ]. cbn [negb].
  unfold ArticleFilterService.limitArticles, JS.slice0.
  destruct (Z.ltb_spec (Z.of_nat n) 0) as [|_]; [ lia | ].
  rewrite length_take. lia.
Qed.

(** X22. The counts of a fulfilled [FetchArticlesUseCase.execute] form a
    funnel: no more articles are answered than are new, no more are new
    than passed the keywords, no more passed than were fetched.  Without
    keywords every fetched article passes.  Under a cap [n > 0] the answer
    holds [n] articles, or all the new ones if they are fewer. *)
Theorem fetch_execute_funnel env feedClient (repo : IArticleRepository)
    (input : FetchArticlesUseCase.FetchArticlesInput) (w : World)
    (out : FetchArticlesUseCase.FetchArticlesOutput) :
  fst (FetchArticlesUseCase.execute env feedClient repo input w) = Ok out ->
  (length (FetchArticlesUseCase.articles out) <= FetchArticlesUseCase.newArticles out)%nat
  /\ (FetchArticlesUseCase.newArticles out <= FetchArticlesUseCase.totalFiltered out)%nat
  /\ (FetchArticlesUseCase.totalFiltered out <= FetchArticlesUseCase.totalFetched out)%nat
  /\ (FetchArticlesUseCase.keywords input = [] ->
      FetchArticlesUseCase.totalFiltered out = FetchArticlesUseCase.totalFetched out)
  /\ (forall n : nat,
        (0 < n)%nat ->
        FetchArticlesUseCase.maxArticles input = Some (JS.Num (Z.of_nat n)) ->
        length (FetchArticlesUseCase.articles out)
        = Nat.min n (FetchArticlesUseCase.newArticles out)).
Proof.
  destruct (fetch_execute_run env feedClient repo input w)
    as (fetched & filtered & new & Hsub & Hall & Hrun).
  destruct (fst (findReadArticleIds repo (with_events w new))) as [ids|e].
  - cbn zeta in Hrun. rewrite Hrun. intros [= <-].
    cbn [FetchArticlesUseCase.articles FetchArticlesUseCase.newArticles
         FetchArticlesUseCase.totalFiltered FetchArticlesUseCase.totalFetched].
    unfold ArticleDTO.fromDomainList. rewrite length_map.
    set (news := ArticleFilterService.excludeReadArticles filtered (list_to_set ids)).
    split; [ | split; [ | split; [ | split ] ] ].
    + rewrite <- (sort_length news). apply capped_length.
    + apply sublist_length, filter_bool_sublist.
    + now apply sublist_length.
    + intros Hk. now rewrite Hall.
    + intros n Hn ->. rewrite capped_positive by exact Hn. now rewrite sort_length.
  - rewrite Hrun. discriminate.
Qed.

Lemma fetch_execute_funnel_witness :
  (1 <= 1)%nat /\ (1 <= 1)%nat /\ (1 <= 2)%nat
  /\ (["tech"] = [] -> 1%nat = 2%nat)
  /\ (forall n : nat,
        (0 < n)%nat ->
        Some (JS.Num 1) = Some (JS.Num (Z.of_nat n)) ->
        1%nat = Nat.min n 1).
Proof.
  apply (fetch_execute_funnel Samples.env Samples.fetch_options
           (FileArticleRepository.new Samples.env Samples.storagePath)
           (Samples.fetch_input ["tech"] (Some (JS.Num 1))) Samples.fresh_world
           {| FetchArticlesUseCase.articles :=
                ArticleDTO.fromDomainList [Samples.tech_news];
              FetchArticlesUseCase.totalFetched := 2;
              FetchArticlesUseCase.totalFiltered := 1;
              FetchArticlesUseCase.newArticles := 1 |}).
  vm_compute. reflexivity.
Defined.

(** X23. Feeds never make [FetchArticlesUseCase.execute] fail: when it
    rejects, it rejects with what the repository's [findReadArticleIds]
    rejected with, asked in a world whose storage is as it was at the
    start. *)
Theorem fetch_execute_rejects_with_the_repository env feedClient
    (repo : IArticleRepository) (input : FetchArticlesUseCase.FetchArticlesInput)
    (w : World) (e : Thrown) :
  fst (FetchArticlesUseCase.execute env feedClient repo input w) = Throw e ->
  exists w',
    disk w' = disk w /\ fs_calls w' = fs_calls w /\ posts w' = posts w
    /\ fst (findReadArticleIds repo w') = Throw e.
Proof.
  destruct (fetch_execute_run env feedClient repo input w)
    as (fetched & filtered & new & _ & _ & Hrun).
  intros He. exists (with_events w new). repeat split.
  destruct (fst (findReadArticleIds repo (with_events w new))) as [ids|e'].
  - cbn zeta in Hrun. rewrite Hrun in He. discriminate.
  - rewrite Hrun in He. injection He as ->. reflexivity.
Qed.

Lemma fetch_execute_rejects_with_the_repository_witness :
  exists w',
    disk w' = disk MoreSamples.corrupt_world
    /\ fs_calls w' = fs_calls MoreSamples.corrupt_world
    /\ posts w' = posts MoreSamples.corrupt_world
    /\ fst (findReadArticleIds
              (FileArticleRepository.new Samples.env Samples.storagePath) w')
       = Throw (ErrorObj StorageError
                  "Failed to load articles from storage: Unexpected token } in JSON at position 12").
Proof.
  apply (fetch_execute_rejects_with_the_repository Samples.env Samples.fetch_options
           (FileArticleRepository.new Samples.env Samples.storagePath)
           (Samples.fetch_input ["tech"] None) MoreSamples.corrupt_world).
  vm_compute. reflexivity.
Defined.

Lemma posts_of_log level message detail :
  posts_of [Log level message detail] = [].
Proof. reflexivity. Qed.

Lemma run_bind_error {A} (message : string) (error : Thrown) (k : unit -> M A)
    (w : World) :
  bind (logger.error message error) k w = k tt (snd (logger.error message error w)).
Proof. reflexivity. Qed.

(** X24. When every attempt to deliver a non-empty batch fails,
    [NotifyArticlesUseCase.execute] rejects with the NotificationError of
    the delivery and nothing is marked as read: the repository is not
    called and the storage file is not touched.  The webhook has received
    the batch once per attempt and then the error notice, at most
    [maxRetries] times. *)
Theorem failed_delivery_marks_nothing_read env options (repo : IArticleRepository)
    (retentionDays : JS.number) (input : NotifyArticlesUseCase.NotifyArticlesInput)
    (w : World) :
  let n := JS.iterations (DiscordNotifier.maxRetries options) in
  let run := NotifyArticlesUseCase.execute env options repo retentionDays input in
  let batch := MessageFormatter.formatArticles
                 (map ArticleDTO.toDomain (NotifyArticlesUseCase.articles input))
                 (NotifyArticlesUseCase.keywords input) in
  NotifyArticlesUseCase.articles input <> [] ->
  (forall j, (j < n)%nat -> exists e, post_reply env (posts w + j) = PostFail e) ->
  exists text (j : nat),
    fst (run w) = Throw (ErrorObj NotificationError text)
    /\ (j <= n)%nat
    /\ posts_of (events_of run w)
       = repeat batch n
         ++ repeat (MessageFormatter.formatError (ErrorObj NotificationError text)) j
    /\ disk (snd (run w)) = disk w
    /\ fs_calls (snd (run w)) = fs_calls w.
Proof.
  intros n run batch Hne Hfail. subst run.
  unfold events_of, NotifyArticlesUseCase.execute.
  rewrite run_bind_info.
  destruct (NotifyArticlesUseCase.articles input) as [|dto dtos] eqn:Hin;
    [ now destruct Hne | ].
  cbn [length Nat.eqb]. rewrite run_try_catch, run_bind.
  unfold DiscordNotifier.notifyArticles. cbn [map length Nat.eqb].
  rewrite run_bind. unfold DiscordNotifier.sendWithRetry. fold n.
  match goal with
  | |- context [DiscordNotifier.sendWithRetry_from env options ?m n 1 None ?w1] =>
      destruct (send_from_exhausts env options m n 1 None w1)
        as (new & text & Hrun & Hposts & _);
      [ subst n; lia | lia | exact Hfail | ]
  end.
  rewrite Hrun. cbn [instanceof_Error].
  rewrite run_bind_error, run_bind, run_try_catch.
  match goal with
  | |- context [DiscordNotifier.notifyError env options ?err ?w2] =>
      destruct (notifyError_run env options err w2) as (new2 & j & Hrun2 & Hj & Hposts2)
  end.
  rewrite Hrun2. unfold throw, after_posts, logger.info, logger.error, emit.
  cbn [fst snd trace posts disk fs_calls].
  exists text, j. split; [ reflexivity | ]. split; [ exact Hj | ].
  split; [ | split; reflexivity ].
  rewrite <- !app_assoc, drop_app_length, !posts_of_app, Hposts, Hposts2.
  subst batch. reflexivity.
Qed.

Lemma failed_delivery_marks_nothing_read_witness :
  let options := DiscordNotifier.new (Some (JS.Num 2)) None in
  let run := NotifyArticlesUseCase.execute Samples.env options
               (FileArticleRepository.new Samples.env Samples.storagePath)
               (JS.Num 30) Samples.notify_input in
  let batch := MessageFormatter.formatArticles
                 (map ArticleDTO.toDomain
                      (NotifyArticlesUseCase.articles Samples.notify_input))
                 (NotifyArticlesUseCase.keywords Samples.notify_input) in
  exists text (j : nat),
    fst (run Samples.world) = Throw (ErrorObj NotificationError text)
    /\ (j <= 2)%nat
    /\ posts_of (events_of run Samples.world)
       = repeat batch 2
         ++ repeat (MessageFormatter.formatError (ErrorObj NotificationError text)) j
    /\ disk (snd (run Samples.world)) = disk Samples.world
    /\ fs_calls (snd (run Samples.world)) = fs_calls Samples.world.
Proof.
  apply (failed_delivery_marks_nothing_read Samples.env
           (DiscordNotifier.new (Some (JS.Num 2)) None)
           (FileArticleRepository.new Samples.env Samples.storagePath)
           (JS.Num 30) Samples.notify_input Samples.world).
  - discriminate.
  - intros [|[|j]] Hj; [ eexists; reflexivity | eexists; reflexivity | ].
    vm_compute in Hj. lia.
Defined.

(** [sendWithRetry] fulfils or rejects with a NotificationError. *)
Lemma send_from_outcome env options message remaining attempt lastError w :
  fst (DiscordNotifier.sendWithRetry_from env options message remaining attempt
         lastError w) = Ok tt
  \/ exists text,
       fst (DiscordNotifier.sendWithRetry_from env options message remaining attempt
              lastError w) = Throw (ErrorObj NotificationError text).
Proof.
  revert attempt lastError w.
  induction remaining as [|remaining IH]; intros attempt lastError w.
  - right. eexists. reflexivity.
  - send_step.
    destruct (post_reply env (posts w)) as [|e]; [ now left | ].
    destruct (DiscordNotifier.rate_limited e) as [retryAfter|].
    + send_step. apply IH.
    + destruct (JS.lt (JS.Num attempt) (DiscordNotifier.maxRetries options));
        send_step; apply IH.
Qed.

(** X25. With no article to deliver, [NotifyArticlesUseCase.execute] never
    calls the repository and never touches the storage file.  When asked to
    skip it posts nothing and fulfils.  Otherwise it posts the no-articles
    message, at most [maxRetries] times, and nothing else: a failed
    delivery rejects with its NotificationError and, unlike for a
    non-empty batch, no error notice follows. *)
Theorem empty_batch_is_not_persisted env options (repo : IArticleRepository)
    (retentionDays : JS.number) (input : NotifyArticlesUseCase.NotifyArticlesInput)
    (w : World) :
  let run := NotifyArticlesUseCase.execute env options repo retentionDays input in
  NotifyArticlesUseCase.articles input = [] ->
  disk (snd (run w)) = disk w
  /\ fs_calls (snd (run w)) = fs_calls w
  /\ (NotifyArticlesUseCase.skipNotifyIfEmpty input = Some true ->
      fst (run w) = Ok {| NotifyArticlesUseCase.notified := false;
                          NotifyArticlesUseCase.articleCount := 0;
                          NotifyArticlesUseCase.savedToRepository := false |}
      /\ posts_of (events_of run w) = [])
  /\ (NotifyArticlesUseCase.skipNotifyIfEmpty input <> Some true ->
      (fst (run w) = Ok {| NotifyArticlesUseCase.notified := true;
                           NotifyArticlesUseCase.articleCount := 0;
                           NotifyArticlesUseCase.savedToRepository := false |}
       \/ exists text, fst (run w) = Throw (ErrorObj NotificationError text))
      /\ exists j,
           (j <= JS.iterations (DiscordNotifier.maxRetries options))%nat
           /\ posts_of (events_of run w)
              = repeat (MessageFormatter.formatNoArticles
                          (NotifyArticlesUseCase.keywords input)) j).
Proof.
  intros run Hin. subst run. unfold events_of, NotifyArticlesUseCase.execute.
  rewrite Hin. cbn [length Nat.eqb]. rewrite !run_bind_info.
  destruct (NotifyArticlesUseCase.skipNotifyIfEmpty input) as [[|]|] eqn:Hskip;
    cbn [from_option id].
  1:{ rewrite run_bind_info. unfold ret, logger.info, emit.
      cbn [fst snd trace posts disk fs_calls].
      split; [ reflexivity | ]. split; [ reflexivity | ].
      split; [ | intros H; now destruct H ].
      intros _. split; [ reflexivity | ].
      rewrite <- !app_assoc, drop_app_length. reflexivity. }
  all: split; [ | split; [ | split; [ discriminate | intros _ ] ] ].
  all: rewrite ?run_bind; unfold DiscordNotifier.notifyArticles;
    cbn [length Nat.eqb]; rewrite ?run_bind_info;
    unfold DiscordNotifier.sendNoArticlesMessage, DiscordNotifier.sendWithRetry;
    rewrite ?run_bind;
    match goal with
    | |- context [DiscordNotifier.sendWithRetry_from ?en ?op ?m ?n 1 None ?w1] =>
        destruct (send_from_frame en op m n 1 None w1)
          as (new & j & Hj & Hw & Hposts);
        pose proof (send_from_outcome en op m n 1 None w1) as Hout;
        destruct (DiscordNotifier.sendWithRetry_from en op m n 1 None w1)
          as [[[]|e] w2]
    end;
    cbn [fst snd] in *; subst w2;
    unfold ret, after_posts, logger.info, emit;
    cbn [fst snd trace posts disk fs_calls]; try reflexivity.
  all: split;
    [ first [ now left
            | destruct Hout as [Hout|[text Hout]];
              [ discriminate | right; exists text; congruence ] ]
    | exists j; split; [ exact Hj | ];
      rewrite <- ?app_assoc, drop_app_length, ?posts_of_app, Hposts; cbn;
      now rewrite ?app_nil_r ].
Qed.

Lemma empty_batch_is_not_persisted_witness :
  let input := {| NotifyArticlesUseCase.articles := [];
                  NotifyArticlesUseCase.keywords := ["tech"];
                  NotifyArticlesUseCase.skipNotifyIfEmpty := None |} in
  let run := NotifyArticlesUseCase.execute Samples.env Samples.notify_options
               (FileArticleRepository.new Samples.env Samples.storagePath)
               (JS.Num 30) input in
  disk (snd (run Samples.world)) = disk Samples.world
  /\ fs_calls (snd (run Samples.world)) = fs_calls Samples.world
  /\ (NotifyArticlesUseCase.skipNotifyIfEmpty input = Some true ->
      fst (run Samples.world)
      = Ok {| NotifyArticlesUseCase.notified := false;
              NotifyArticlesUseCase.articleCount := 0;
              NotifyArticlesUseCase.savedToRepository := false |}
      /\ posts_of (events_of run Samples.world) = [])
  /\ (NotifyArticlesUseCase.skipNotifyIfEmpty input <> Some true ->
      (fst (run Samples.world)
       = Ok {| NotifyArticlesUseCase.notified := true;
               NotifyArticlesUseCase.articleCount := 0;
               NotifyArticlesUseCase.savedToRepository := false |}
       \/ exists text, fst (run Samples.world) = Throw (ErrorObj NotificationError text))
      /\ exists j,
           (j <= JS.iterations (DiscordNotifier.maxRetries Samples.notify_options))%nat
           /\ posts_of (events_of run Samples.world)
              = repeat (MessageFormatter.formatNoArticles
                          (NotifyArticlesUseCase.keywords input)) j).
Proof.
  apply (empty_batch_is_not_persisted Samples.env Samples.notify_options
           (FileArticleRepository.new Samples.env Samples.storagePath)
           (JS.Num 30)
           {| NotifyArticlesUseCase.articles := [];
              NotifyArticlesUseCase.keywords := ["tech"];
              NotifyArticlesUseCase.skipNotifyIfEmpty := None |} Samples.world).
  reflexivity.
Defined.

(** *** Further properties: keywords and the command line *)

Lemma Set_add_fold (l acc : list string) :
  NoDup acc ->
  NoDup (fold_left JS.Set_add l acc)
  /\ (forall x, x ∈ fold_left JS.Set_add l acc <-> x ∈ acc \/ x ∈ l)
  /\ sublist (fold_left JS.Set_add l acc) (acc ++ l).
Proof.
  revert acc. induction l as [|y l IH]; intros acc Hacc; cbn [fold_left].
  - split; [ exact Hacc | ]. split.
    + intros x. rewrite elem_of_nil. tauto.
    + now rewrite app_nil_r.
  - unfold JS.Set_add at 2 4 6. destruct (bool_decide_reflect (y ∈ acc)) as [Hin|Hout].
    + destruct (IH acc Hacc) as (Hnd & Hmem & Hsub).
      split; [ exact Hnd | ]. split.
      * intros x. rewrite Hmem, elem_of_cons.
        split; [ tauto | intros [H|[->|H]]; tauto ].
      * etransitivity; [ exact Hsub | ].
        apply sublist_app; [ reflexivity | now apply sublist_cons ].
    + destruct (IH (acc ++ [y])) as (Hnd & Hmem & Hsub).
      { apply NoDup_app. split; [ exact Hacc | ]. split; [ | apply NoDup_singleton ].
        intros x Hx Hy. apply list_elem_of_singleton in Hy. now subst. }
      split; [ exact Hnd | ]. split.
      * intros x. rewrite Hmem, elem_of_app, list_elem_of_singleton, elem_of_cons. tauto.
      * now rewrite <- app_assoc in Hsub.
Qed.

Lemma uniq_spec (l : list string) :
  NoDup (JS.uniq l) /\ (forall x, x ∈ JS.uniq l <-> x ∈ l) /\ sublist (JS.uniq l) l.
Proof.
  unfold JS.uniq. destruct (Set_add_fold l [] (NoDup_nil_2 (A:=string))) as (Hnd & Hmem & Hsub).
  split; [ exact Hnd | ]. split; [ | exact Hsub ].
  intros x. rewrite Hmem, elem_of_nil. tauto.
Qed.

Lemma nonempty_iff (k : string) : Nat.ltb 0 (String.length k) = true <-> k <> "".
Proof. destruct k; cbn; split; intros H; congruence || reflexivity || discriminate. Qed.

(** The strings of a list that are not in [seen]. *)
Lemma Set_add_fold_filter (l : list string) :
  forall acc,
    fold_left JS.Set_add l acc
    = acc ++ List.filter (fun y => negb (bool_decide (y ∈ acc))) (JS.uniq l).
Proof.
  induction l as [|x l IH]; intros acc.
  - cbn. now rewrite app_nil_r.
  - assert (H0 : JS.Set_add [] x = [x]) by reflexivity.
    unfold JS.uniq at 1. cbn [fold_left]. rewrite H0, (IH [x]), (IH (JS.Set_add acc x)).
    cbn [app List.filter]. unfold JS.Set_add.
    destruct (bool_decide_reflect (x ∈ acc)) as [Hin|Hout]; cbn [negb].
    + f_equal. rewrite filter_bool_filter. apply filter_bool_ext. intros y.
      destruct (bool_decide_reflect (y ∈ [x])) as [Hy|Hy]; cbn [negb andb];
        [ | reflexivity ].
      apply list_elem_of_singleton in Hy. subst y.
      now rewrite bool_decide_eq_true_2.
    + rewrite <- app_assoc. cbn [app]. do 2 f_equal.
      rewrite filter_bool_filter. apply filter_bool_ext. intros y.
      destruct (bool_decide_reflect (y ∈ [x])) as [Hy|Hy]; cbn [negb andb].
      * apply list_elem_of_singleton in Hy. subst y.
        apply negb_false_iff, bool_decide_eq_true. set_solver.
      * f_equal. apply bool_decide_ext. rewrite elem_of_app, list_elem_of_singleton.
        rewrite list_elem_of_singleton in Hy. tauto.
Qed.

(** The first string comes first, and the others follow without it. *)
Lemma uniq_cons (x : string) (l : list string) :
  JS.uniq (x :: l)
  = x :: List.filter (fun y => negb (bool_decide (y ∈ [x]))) (JS.uniq l).
Proof.
  assert (H0 : JS.Set_add [] x = [x]) by reflexivity.
  unfold JS.uniq at 1. cbn [fold_left]. rewrite H0, Set_add_fold_filter.
  reflexivity.
Qed.

Lemma uniq_app (l1 l2 : list string) :
  JS.uniq (l1 ++ l2)
  = JS.uniq l1 ++ List.filter (fun y => negb (bool_decide (y ∈ l1))) (JS.uniq l2).
Proof.
  unfold JS.uniq at 1. rewrite fold_left_app. fold (JS.uniq l1).
  rewrite Set_add_fold_filter. f_equal. apply filter_bool_ext. intros y.
  f_equal. apply bool_decide_ext. apply (proj1 (proj2 (uniq_spec l1))).
Qed.

(** A string that stands before another in [uniq l] occurs in [l] at a
    place before which neither of them occurs. *)
Lemma uniq_order (l : list string) :
  forall k1 k2, k1 <> k2 -> sublist [k1; k2] (JS.uniq l) ->
    exists l1 l2, l = l1 ++ k1 :: l2 /\ (k1 ∉ l1) /\ (k2 ∉ l1).
Proof.
  induction l as [|x l IH]; intros k1 k2 Hne Hsub.
  - apply sublist_nil_r in Hsub. discriminate.
  - rewrite uniq_cons in Hsub.
    destruct (decide (k1 = x)) as [->|Hx].
    + exists [], l. repeat split; apply not_elem_of_nil.
    + assert (Hrest : sublist [k1; k2]
                        (List.filter (fun y => negb (bool_decide (y ∈ [x])))
                                     (JS.uniq l))).
      { apply sublist_cons_r in Hsub as [Hsub|(l' & Heq & _)];
          [ exact Hsub | congruence ]. }
      assert (Hk2 : k2 <> x).
      { intros ->.
        assert (Hin : x ∈ List.filter (fun y => negb (bool_decide (y ∈ [x])))
                                      (JS.uniq l)).
        { eapply elem_of_sublist; [ | exact Hrest ]. set_solver. }
        apply filter_bool_elem_of in Hin as [_ Hin].
        apply negb_true_iff, bool_decide_eq_false in Hin. apply Hin. set_solver. }
      destruct (IH k1 k2 Hne) as (l1 & l2 & -> & H1 & H2).
      { etransitivity; [ exact Hrest | apply filter_bool_sublist ]. }
      exists (x :: l1), l2. split; [ reflexivity | ].
      rewrite !not_elem_of_cons. auto.
Qed.

(** X26. [mergeKeywords] answers every non-empty keyword of the default
    and the custom lists, each once, in the order of first occurrence
    with the defaults first: a keyword that stands before another in the
    answer occurs, in the defaults followed by the customs, at a place
    before which neither of them occurs; and the answer is the merged
    defaults followed by the merged customs that are not defaults. *)
Theorem mergeKeywords_spec (defaultKeywords customKeywords : list string) :
  let merged := DailyNewsCommand.mergeKeywords defaultKeywords customKeywords in
  NoDup merged
  /\ (forall k, k ∈ merged <-> (k ∈ defaultKeywords \/ k ∈ customKeywords) /\ k <> "")
  /\ sublist merged (defaultKeywords ++ customKeywords)
  /\ (forall k1 k2, k1 <> k2 -> sublist [k1; k2] merged ->
        exists l1 l2,
          defaultKeywords ++ customKeywords = l1 ++ k1 :: l2
          /\ (k1 ∉ l1) /\ (k2 ∉ l1))
  /\ merged
     = DailyNewsCommand.mergeKeywords defaultKeywords []
       ++ List.filter (fun k => negb (bool_decide (k ∈ defaultKeywords)))
                      (DailyNewsCommand.mergeKeywords [] customKeywords).
Proof.
  cbn zeta. unfold DailyNewsCommand.mergeKeywords.
  destruct (uniq_spec (defaultKeywords ++ customKeywords)) as (Hnd & Hmem & Hsub).
  split; [ | split; [ | split; [ | split ] ] ].
  - eapply sublist_NoDup; [ exact Hnd | apply filter_bool_sublist ].
  - intros k. rewrite filter_bool_elem_of, Hmem, elem_of_app, nonempty_iff. tauto.
  - etransitivity; [ apply filter_bool_sublist | exact Hsub ].
  - intros k1 k2 Hne Hord. apply uniq_order; [ exact Hne | ].
    etransitivity; [ exact Hord | apply filter_bool_sublist ].
  - rewrite app_nil_r. cbn [app]. rewrite uniq_app, List.filter_app. f_equal.
    rewrite !filter_bool_filter. apply filter_bool_ext. intros k.
    apply andb_comm.
Qed.

(** The defaults come first, each keyword once. *)
Example mergeKeywords_example :
  DailyNewsCommand.mergeKeywords ["a"] ["b"; "a"; ""; "b"] = ["a"; "b"].
Proof. vm_compute. reflexivity. Qed.

Lemma new_filter_inv (keywords : list string) options (f : ArticleFilter.t) :
  ArticleFilter.new keywords options = Ok f ->
  keywords <> []
  /\ ArticleFilter._keywords f = keywords
  /\ ArticleFilter.as_partial (ArticleFilter._options f)
     = ArticleFilter.Partial
         (Some (ArticleFilter.matchStrategy (ArticleFilter._options f)))
         (Some (ArticleFilter.caseSensitive (ArticleFilter._options f)))
         (Some (ArticleFilter.searchInTitle (ArticleFilter._options f)))
         (Some (ArticleFilter.searchInDescription (ArticleFilter._options f)))
         (Some (default false (options ≫= ArticleFilter.o_searchInContent)))
  /\ ArticleFilter.searchInContent (ArticleFilter._options f)
     = Some (default false (options ≫= ArticleFilter.o_searchInContent)).
Proof.
  unfold ArticleFilter.new. destruct keywords as [|k keywords]; [ discriminate | ].
  cbn [length Nat.eqb]. intros [= <-]. repeat split. discriminate.
Qed.

(** X27. On a filter built by the constructor, [addKeywords] never throws:
    it answers a filter with the same options whose keywords are the old
    and the new ones, each once. *)
Theorem addKeywords_spec (keywords newKeywords : list string) options
    (f : ArticleFilter.t) :
  ArticleFilter.new keywords options = Ok f ->
  exists f',
    ArticleFilter.addKeywords f newKeywords = Ok f'
    /\ NoDup (ArticleFilter._keywords f')
    /\ (forall k, k ∈ ArticleFilter._keywords f' <-> k ∈ keywords \/ k ∈ newKeywords)
    /\ ArticleFilter._options f' = ArticleFilter._options f.
Proof.
  intros Hnew. destruct (new_filter_inv _ _ _ Hnew) as (Hne & Hks & Hpartial & Hcontent).
  unfold ArticleFilter.addKeywords. rewrite Hks, Hpartial.
  destruct (uniq_spec (keywords ++ newKeywords)) as (Hnd & Hmem & _).
  unfold ArticleFilter.new.
  destruct (JS.uniq (keywords ++ newKeywords)) as [|k merged] eqn:Hmerged.
  - destruct keywords as [|k keywords]; [ now destruct Hne | ].
    exfalso. apply (not_elem_of_nil k), Hmem. left.
  - cbn [length Nat.eqb]. eexists. split; [ reflexivity | ].
    cbn [ArticleFilter._keywords ArticleFilter._options].
    split; [ exact Hnd | ]. split.
    + intros x. rewrite Hmem, elem_of_app. reflexivity.
    + cbn. rewrite <- Hcontent. now destruct (ArticleFilter._options f).
Qed.

Lemma addKeywords_spec_witness :
  exists f',
    ArticleFilter.addKeywords
      (ArticleFilter.Build ["rust"; "go"]
         (ArticleFilter.Options ArticleFilter.AND false true true (Some false)))
      ["go"; "zig"] = Ok f'
    /\ NoDup (ArticleFilter._keywords f')
    /\ (forall k, k ∈ ArticleFilter._keywords f' <-> k ∈ ["rust"; "go"] \/ k ∈ ["go"; "zig"])
    /\ ArticleFilter._options f'
       = ArticleFilter._options
           (ArticleFilter.Build ["rust"; "go"]
              (ArticleFilter.Options ArticleFilter.AND false true true (Some false))).
Proof.
  apply (addKeywords_spec ["rust"; "go"] ["go"; "zig"]
           (Some (ArticleFilter.Partial (Some ArticleFilter.AND) None None None None))).
  reflexivity.
Defined.

(** X28. A filter built by the constructor survives the round trip through
    its plain object: [fromPlainObject] on the keywords and options that
    [toPlainObject] gives answers the same filter. *)
Theorem filter_plain_round_trip (keywords : list string) options (f : ArticleFilter.t) :
  ArticleFilter.new keywords options = Ok f ->
  ArticleFilter.fromPlainObject
    (fst (ArticleFilter.toPlainObject f))
    (Some (ArticleFilter.as_partial (snd (ArticleFilter.toPlainObject f))))
  = Ok f.
Proof.
  intros Hnew. destruct (new_filter_inv _ _ _ Hnew) as (Hne & Hks & Hpartial & Hcontent).
  unfold ArticleFilter.toPlainObject, ArticleFilter.fromPlainObject. cbn [fst snd].
  rewrite Hpartial, Hks. unfold ArticleFilter.new.
  destruct keywords as [|k keywords]; [ now destruct Hne | ].
  cbn [length Nat.eqb]. f_equal. destruct f as [ks o]. cbn in *. subst ks.
  f_equal. destruct o. cbn in *. now subst.
Qed.

Lemma filter_plain_round_trip_witness :
  ArticleFilter.fromPlainObject
    (fst (ArticleFilter.toPlainObject
            (ArticleFilter.Build ["rust"]
               (ArticleFilter.Options ArticleFilter.OR false true true (Some false)))))
    (Some (ArticleFilter.as_partial
             (snd (ArticleFilter.toPlainObject
                     (ArticleFilter.Build ["rust"]
                        (ArticleFilter.Options ArticleFilter.OR false true true
                                               (Some false)))))))
  = Ok (ArticleFilter.Build ["rust"]
          (ArticleFilter.Options ArticleFilter.OR false true true (Some false))).
Proof.
  apply (filter_plain_round_trip ["rust"] None). reflexivity.
Defined.

Lemma parseArgs_from_step (arg next : string) (rest : list string)
    (options : DailyNewsCommand.CommandOptions) :
  DailyNewsCommand.parseArgs_from (arg :: next :: rest) options
  = if String.eqb arg "--keywords"
    then
      DailyNewsCommand.parseArgs_from rest
        {| DailyNewsCommand.keywords :=
             Some (List.filter (fun k => Nat.ltb 0 (String.length k))
                     (map JS.trim (JS.split "," next)));
           DailyNewsCommand.skipNotifyIfEmpty :=
             DailyNewsCommand.skipNotifyIfEmpty options;
           DailyNewsCommand.maxArticles := DailyNewsCommand.maxArticles options |}
    else if String.eqb arg "--skip-notify-if-empty"
    then
      DailyNewsCommand.parseArgs_from (next :: rest)
        {| DailyNewsCommand.keywords := DailyNewsCommand.keywords options;
           DailyNewsCommand.skipNotifyIfEmpty := Some true;
           DailyNewsCommand.maxArticles := DailyNewsCommand.maxArticles options |}
    else if String.eqb arg "--max-articles"
    then
      DailyNewsCommand.parseArgs_from rest
        (if JS.lt (JS.Num 0) (JS.parseInt10 next)
         then {| DailyNewsCommand.keywords := DailyNewsCommand.keywords options;
                 DailyNewsCommand.skipNotifyIfEmpty :=
                   DailyNewsCommand.skipNotifyIfEmpty options;
                 DailyNewsCommand.maxArticles := Some (JS.parseInt10 next) |}
         else options)
    else DailyNewsCommand.parseArgs_from (next :: rest) options.
Proof. reflexivity. Qed.

Lemma parseArgs_from_well_formed (n : nat) :
  forall (args : list string) (options : DailyNewsCommand.CommandOptions),
    (length args <= n)%nat ->
    well_formed_options options ->
    well_formed_options (DailyNewsCommand.parseArgs_from args options).
Proof.
  induction n as [|n IH]; intros args options Hlen Hwf.
  - destruct args; [ exact Hwf | cbn in Hlen; lia ].
  - destruct args as [|arg [|next rest]].
    + exact Hwf.
    + cbn [DailyNewsCommand.parseArgs_from].
      destruct (String.eqb arg "--skip-notify-if-empty"); [ | exact Hwf ].
      destruct Hwf as (Hk & _ & Hm). repeat split; [ exact Hk | discriminate | exact Hm ].
    + rewrite parseArgs_from_step. cbn [length] in Hlen.
      destruct (String.eqb arg "--keywords").
      { apply IH; [ lia | ]. destruct Hwf as (_ & Hs & Hm).
        split; [ | split; [ exact Hs | exact Hm ] ].
        cbn. rewrite filter_bool_elem_of. intros [_ H]. discriminate. }
      destruct (String.eqb arg "--skip-notify-if-empty").
      { apply IH; [ cbn [length]; lia | ]. destruct Hwf as (Hk & _ & Hm).
        repeat split; [ exact Hk | discriminate | exact Hm ]. }
      destruct (String.eqb arg "--max-articles").
      { apply IH; [ lia | ].
        destruct (JS.lt (JS.Num 0) (JS.parseInt10 next)) eqn:Hpositive;
          [ | exact Hwf ].
        destruct Hwf as (Hk & Hs & _).
        split; [ exact Hk | split; [ exact Hs | exact Hpositive ] ]. }
      apply IH; [ cbn [length]; lia | exact Hwf ].
Qed.

(** X29. Whatever the arguments, and whatever [parseInt] and [trim] make
    of them, [parseArgs] answers options in which the keywords, when set,
    hold no empty string, the skip flag is set or absent, and the cap, when
    set, is greater than 0 (a value that is NaN, 0 or negative is not
    stored); so a cap from the command line is always truthy and always
    applied. *)
Theorem parseArgs_well_formed (args : list string) :
  let options := DailyNewsCommand.parseArgs args in
  well_formed_options options
  /\ forall n, DailyNewsCommand.maxArticles options = Some n -> JS.truthy n = true.
Proof.
  cbn zeta.
  assert (Hwf : well_formed_options (DailyNewsCommand.parseArgs args)).
  { apply (parseArgs_from_well_formed (length args)); [ lia | ].
    repeat split. discriminate. }
  split; [ exact Hwf | ].
  intros n Hn. destruct Hwf as (_ & _ & Hm). rewrite Hn in Hm.
  destruct n as [z|]; [ | discriminate ].
  cbn in Hm |- *. apply Z.ltb_lt in Hm. apply negb_true_iff, Z.eqb_neq. lia.
Qed.

(* ===================================================================== *)
(** ** Persisting, pruning and the error notice *)
(* ===================================================================== *)

(** *** The error notice after a failure *)






(** In the sample run whose write is rejected, the batch is posted and
    then, once, the notice of the storage error. *)
Example persist_failure_is_noticed :
  let run := NotifyArticlesUseCase.execute Samples.env_disk_full Samples.notify_options
               (FileArticleRepository.new Samples.env_disk_full Samples.storagePath)
               (JS.Num 30) Samples.notify_input in
  posts_of (events_of run Samples.world)
  = [ArticlesMessage 1 [Samples.tech_news] ["tech"];
     ErrorMessage (ErrorObj StorageError
                     "Failed to save articles to storage: ENOSPC: no space left on device")].
Proof. vm_compute. reflexivity. Qed.
